(** * tinycrab: the session key, the message bus, the memory search, the
    session manager, the subagent manager, the cron service, the per-agent
    server, the local backend and the HTTP channel, embedded from their
    TypeScript sources, with the properties of the specification proved or
    refuted on them and further properties read off the code.

    Part I holds the models, one module per source file, with the names of
    the source. Part II holds the concrete scenarios used as examples.
    Part III holds the lemmas and theorems. *)

From Stdlib Require Import ZArith QArith Qround Lia List Bool Ascii String DecimalString DecimalPos Sorted.
From Corelib Require PrimFloat FloatOps SpecFloat.
From stdpp Require Import base gmap strings list.
Import ListNotations.
Local Open Scope string_scope.
Local Open Scope Z_scope.

(** * Part I: the models *)

(** * Session keys ([src/session-key.ts])

    JavaScript strings are modelled as [string]: a sequence of code units in
    the Latin-1 range (0..255), on which [trim], [toLowerCase] and the
    character class of [normalize] are written out below. *)
Module SessionKey.

Record SessionKeyParts := mkParts {
  channel : string;
  chatId : string;
  threadId : option string
}.

(** Code units that [String.prototype.trim] strips: TAB, LF, VT, FF, CR,
    SPACE and NBSP. *)
Definition isWhiteSpace (c : ascii) : bool :=
  let n := nat_of_ascii c in
  ((9 <=? n) && (n <=? 13) || (n =? 32) || (n =? 160))%nat.

Fixpoint trimStart (s : string) : string :=
  match s with
  | EmptyString => EmptyString
  | String c s' => if isWhiteSpace c then trimStart s' else s
  end.

Fixpoint trimEnd (s : string) : string :=
  match s with
  | EmptyString => EmptyString
  | String c s' =>
      match trimEnd s' with
      | EmptyString => if isWhiteSpace c then EmptyString else String c EmptyString
      | t => String c t
      end
  end.

Definition trim (s : string) : string := trimEnd (trimStart s).

(** [toLowerCase] on one Latin-1 code unit: A-Z and the accented capitals
    192..222 (without the multiplication sign 215) move up by 32. *)
Definition lowerChar (c : ascii) : ascii :=
  let n := nat_of_ascii c in
  if ((65 <=? n) && (n <=? 90) || (192 <=? n) && (n <=? 222) && negb (n =? 215))%nat
  then ascii_of_nat (n + 32) else c.

Fixpoint toLowerCase (s : string) : string :=
  match s with
  | EmptyString => EmptyString
  | String c s' => String (lowerChar c) (toLowerCase s')
  end.

(** The character class [[a-z0-9_-]]. *)
Definition allowedChar (c : ascii) : bool :=
  let n := nat_of_ascii c in
  ((97 <=? n) && (n <=? 122) || (48 <=? n) && (n <=? 57) || (n =? 95) || (n =? 45))%nat.

(** [value.replace(/[^a-z0-9_-]/g, "-")]. *)
Fixpoint replaceDisallowed (s : string) : string :=
  match s with
  | EmptyString => EmptyString
  | String c s' =>
      String (if allowedChar c then c else "-"%char) (replaceDisallowed s')
  end.

Definition normalize (value : string) : string :=
  replaceDisallowed (toLowerCase (trim value)).

(** Truthiness of a string: only the empty string is falsy. *)
Definition truthy (s : string) : bool :=
  match s with EmptyString => false | _ => true end.

Definition buildSessionKey (parts : SessionKeyParts) : string :=
  let base := normalize (channel parts) ++ ":" ++ normalize (chatId parts) in
  match threadId parts with
  | Some t => if truthy t then base ++ ":thread:" ++ normalize t else base
  | None => base
  end.

Fixpoint startsWith (needle s : string) : bool :=
  match needle, s with
  | EmptyString, _ => true
  | String _ _, EmptyString => false
  | String a n', String b s' => Ascii.eqb a b && startsWith n' s'
  end.

(** [s.indexOf(needle)]: the first position where [needle] occurs, or -1. *)
Fixpoint indexOf (needle s : string) : Z :=
  if startsWith needle s then 0
  else match s with
       | EmptyString => -1
       | String _ s' =>
           let r := indexOf needle s' in
           if r <? 0 then -1 else r + 1
       end.

(** Relative index resolution of [String.prototype.slice]. *)
Definition clampIndex (len i : Z) : Z :=
  if i <? 0 then Z.max (len + i) 0 else Z.min i len.

Definition slice (s : string) (first last : Z) : string :=
  let len := Z.of_nat (String.length s) in
  let from := clampIndex len first in
  let to := clampIndex len last in
  substring (Z.to_nat from) (Z.to_nat (Z.max (to - from) 0)) s.

(** [s.slice(first)]. *)
Definition sliceFrom (s : string) (first : Z) : string :=
  slice s first (Z.of_nat (String.length s)).

Definition parseBaseKey (key : string) : option (string * string) :=
  let idx := indexOf ":" key in
  if idx <=? 0 then None
  else
    let channel := slice key 0 idx in
    let chatId := sliceFrom key (idx + 1) in
    if negb (truthy channel) || negb (truthy chatId) then None
    else Some (channel, chatId).

Definition parseSessionKey (sessionKey : string) : option SessionKeyParts :=
  let trimmed := toLowerCase (trim sessionKey) in
  if negb (truthy trimmed) then None
  else
    let threadIdx := indexOf ":thread:" trimmed in
    if 0 <? threadIdx then
      let base := slice trimmed 0 threadIdx in
      let threadId := sliceFrom trimmed (threadIdx + 8) in
      match parseBaseKey base with
      | None => None
      | Some (channel, chatId) => Some (mkParts channel chatId (Some threadId))
      end
    else
      match parseBaseKey trimmed with
      | None => None
      | Some (channel, chatId) => Some (mkParts channel chatId None)
      end.

Definition getParentSessionKey (sessionKey : string) : option string :=
  let idx := indexOf ":thread:" sessionKey in
  if idx <=? 0 then None else Some (slice sessionKey 0 idx).

(** [everyChar P s]: every code unit of [s] satisfies [P]. *)
Fixpoint everyChar (P : ascii -> bool) (s : string) : bool :=
  match s with
  | EmptyString => true
  | String c s' => P c && everyChar P s'
  end.

(** Code units of a built key: the allowed class and the separator. *)
Definition keyChar (c : ascii) : bool := allowedChar c || Ascii.eqb ":" c.

(** The componentwise normalization of key parts, as [buildSessionKey]
    applies it: a falsy [threadId] is left out. *)
Definition normalizeParts (p : SessionKeyParts) : SessionKeyParts :=
  mkParts (normalize (channel p)) (normalize (chatId p))
    (match threadId p with
     | Some t => if truthy t then Some (normalize t) else None
     | None => None
     end).

End SessionKey.

(** * Message bus ([src/bus.ts])

    Callbacks are identified by numbers. A call of a resolver or of a
    subscriber is recorded in the order it happens: [settled] pairs the
    promise returned by a [consumeInbound] call with the message it resolved
    to, [notified] pairs a subscriber with the outbound message it was called
    with. [published] is the history of [publishOutbound] calls. *)
Module MessageBus.

Record InboundMessage := mkInbound {
  inChannel : string;
  inChatId : string;
  inContent : string;
  threadId : option string
}.

Record OutboundMessage := mkOutbound {
  channel : string;
  chatId : string;
  content : string
}.

Record State := mkState {
  queue : list InboundMessage;
  resolvers : list nat;
  subscribers : gmap string (list nat);
  nextPromise : nat;
  settled : list (nat * InboundMessage);
  notified : list (nat * OutboundMessage);
  published : list OutboundMessage
}.

Definition empty : State := mkState [] [] ∅ 0 [] [] [].

Definition publishInbound (msg : InboundMessage) (s : State) : State :=
  match resolvers s with
  | resolve :: rest =>
      mkState (queue s) rest (subscribers s) (nextPromise s)
              (settled s ++ [(resolve, msg)])%list (notified s) (published s)
  | [] =>
      mkState (queue s ++ [msg])%list (resolvers s) (subscribers s) (nextPromise s)
              (settled s) (notified s) (published s)
  end.

(** [consumeInbound()] returns a promise, numbered [nextPromise s]: it is
    resolved at once with the head of the queue, or its resolver joins the
    waiters. *)
Definition consumeInbound (s : State) : nat * State :=
  let p := nextPromise s in
  match queue s with
  | msg :: rest =>
      (p, mkState rest (resolvers s) (subscribers s) (S p)
                  (settled s ++ [(p, msg)])%list (notified s) (published s))
  | [] =>
      (p, mkState (queue s) (resolvers s ++ [p])%list (subscribers s) (S p)
                  (settled s) (notified s) (published s))
  end.

Definition publishOutbound (msg : OutboundMessage) (s : State) : State :=
  let callbacks := default [] (subscribers s !! channel msg) in
  mkState (queue s) (resolvers s) (subscribers s) (nextPromise s) (settled s)
          (notified s ++ map (fun cb => (cb, msg)) callbacks)%list
          (published s ++ [msg])%list.

Definition subscribe (chan : string) (callback : nat) (s : State) : State :=
  let existing := default [] (subscribers s !! chan) in
  mkState (queue s) (resolvers s)
          (<[chan := (existing ++ [callback])%list]> (subscribers s))
          (nextPromise s) (settled s) (notified s) (published s).

(** A use of the inbound side: a sequence of calls. *)
Inductive Call := Publish (msg : InboundMessage) | Consume.

Definition call (s : State) (c : Call) : State :=
  match c with
  | Publish msg => publishInbound msg s
  | Consume => snd (consumeInbound s)
  end.

Definition calls (cs : list Call) (s : State) : State := fold_left call cs s.

(** The promises that the [consumeInbound] calls of [cs] return, in call
    order, when the calls are made from the state [s]. *)
Fixpoint returnedBy (cs : list Call) (s : State) : list nat :=
  match cs with
  | [] => []
  | Publish msg :: rest => returnedBy rest (publishInbound msg s)
  | Consume :: rest =>
      fst (consumeInbound s) :: returnedBy rest (snd (consumeInbound s))
  end.

(** The message a promise has been resolved with, if it has been
    resolved: what the consumer that holds the promise receives. *)
Definition promiseValue (p : nat) (s : State) : option InboundMessage :=
  snd <$> List.find (fun pm => Nat.eqb (fst pm) p) (settled s).

Definition publishedBy (cs : list Call) : list InboundMessage :=
  omap (fun c => match c with Publish m => Some m | Consume => None end) cs.

Definition consumesIn (cs : list Call) : nat :=
  length (omap (fun c => match c with Consume => Some tt | Publish _ => None end) cs).

(** What holds after any sequence [cs] of inbound calls on a fresh bus. *)
Definition inboundInv (cs : list Call) (s : State) : Prop :=
  ((settled s).*2 ++ queue s)%list = publishedBy cs
  /\ ((settled s).*1 ++ resolvers s)%list = seq 0 (consumesIn cs)
  /\ nextPromise s = consumesIn cs
  /\ (queue s = [] \/ resolvers s = []).

(** A use of the whole bus: inbound calls, outbound publications and
    subscriptions, in the order they happen. *)
Inductive Use :=
| Inbound (c : Call)
| PublishOutbound (msg : OutboundMessage)
| Subscribe (chan : string) (callback : nat).

Definition use (s : State) (u : Use) : State :=
  match u with
  | Inbound c => call s c
  | PublishOutbound msg => publishOutbound msg s
  | Subscribe chan callback => subscribe chan callback s
  end.

Definition uses (us : list Use) (s : State) : State := fold_left use us s.

(** The callbacks subscribed to [chan] in [us], in the order of their
    subscription. *)
Definition subscribedTo (chan : string) (us : list Use) : list nat :=
  omap (fun u => match u with
                 | Subscribe c callback =>
                     if String.eqb c chan then Some callback else None
                 | _ => None
                 end) us.

(** The subscriber calls owed to the uses [us] that come after the uses
    [before]: each outbound message goes to the callbacks subscribed to
    its channel earlier, in subscription order. *)
Fixpoint deliveries (before us : list Use) : list (nat * OutboundMessage) :=
  match us with
  | [] => []
  | u :: rest =>
      (match u with
       | PublishOutbound msg =>
           map (fun cb => (cb, msg)) (subscribedTo (channel msg) before)
       | _ => []
       end ++ deliveries (before ++ [u]) rest)%list
  end.

Definition inboundOf (us : list Use) : list Call :=
  omap (fun u => match u with Inbound c => Some c | _ => None end) us.

(** What the subscriber table holds after the uses [before]. *)
Definition subscribersInv (before : list Use) (s : State) : Prop :=
  forall chan, default [] (subscribers s !! chan) = subscribedTo chan before.

(** The inbound side of a state. *)
Definition inboundSide (s : State)
  : list InboundMessage * list nat * nat * list (nat * InboundMessage) :=
  (queue s, resolvers s, nextPromise s, settled s).

End MessageBus.

(** * File memory provider ([src/memory/file-provider.ts], [types.ts])

    Scores are floating-point sums of an exponential, the stored importance
    and a keyword ratio; the model keeps the scoring function abstract
    ([scoreOf], with rational values) and follows the rest of [search]:
    the two filters, the threshold, the stable descending sort and the cut
    at [maxResults]. *)
Module FileMemoryProvider.

Record MemoryEntry := mkEntry {
  id : string;
  createdAt : Z;
  content : string;
  importance : Q;
  tags : option (list string);
  sessionId : option string;
  source : option string
}.

Record Weights := mkWeights {
  recency : option Q;
  importanceWeight : option Q;
  relevance : option Q
}.

Record MemorySearchOptions := mkOptions {
  query : option string;
  searchTags : option (list string);
  searchSessionId : option string;
  maxResults : option Z;
  minScore : option Q;
  weights : option Weights
}.

Record MemorySearchResult := mkResult {
  entry : MemoryEntry;
  score : Q
}.

(** Truthiness of an optional string: absent and empty are falsy. *)
Definition truthyOpt (o : option string) : bool :=
  match o with Some s => SessionKey.truthy s | None => false end.

Definition sameSession (e : option string) (sid : string) : bool :=
  match e with Some s => String.eqb s sid | None => false end.

(** [!e.sessionId || e.sessionId === opts.sessionId], applied when
    [opts.sessionId] is truthy. *)
Definition sessionFilter (opts : MemorySearchOptions)
           (entries : list MemoryEntry) : list MemoryEntry :=
  match searchSessionId opts with
  | Some sid =>
      if SessionKey.truthy sid
      then List.filter
             (fun e => negb (truthyOpt (sessionId e)) || sameSession (sessionId e) sid)
             entries
      else entries
  | None => entries
  end.

Definition hasTag (tagSet : list string) (e : MemoryEntry) : bool :=
  match tags e with
  | Some ts =>
      existsb (fun t => existsb (String.eqb (SessionKey.toLowerCase t)) tagSet) ts
  | None => false
  end.

Definition tagFilter (opts : MemorySearchOptions)
           (entries : list MemoryEntry) : list MemoryEntry :=
  match searchTags opts with
  | Some (t :: ts) =>
      List.filter (hasTag (List.map SessionKey.toLowerCase (t :: ts))) entries
  | _ => entries
  end.

(** Stable sort by descending score (comparator [b.score - a.score]), as
    insertion from the right: [r] stood before every element of [l], so it
    goes in front of the first element whose score is not greater. *)
Fixpoint insertByScore (r : MemorySearchResult)
         (l : list MemorySearchResult) : list MemorySearchResult :=
  match l with
  | [] => [r]
  | x :: l' =>
      if Qle_bool (score x) (score r) then r :: x :: l'
      else x :: insertByScore r l'
  end.

Fixpoint sortByScore (l : list MemorySearchResult) : list MemorySearchResult :=
  match l with
  | [] => []
  | r :: l' => insertByScore r (sortByScore l')
  end.

(** [l.slice(0, k)] for an integer [k]. *)
Definition sliceTo {A} (k : Z) (l : list A) : list A :=
  let len := Z.of_nat (length l) in
  firstn (Z.to_nat (if k <? 0 then Z.max (len + k) 0 else Z.min k len)) l.

Section Search.
(** The weighted score of an entry under the options at time [now]. *)
Variable scoreOf : MemorySearchOptions -> Z -> MemoryEntry -> Q.

(** The candidates with their scores, after the threshold. *)
Definition scored (opts : MemorySearchOptions) (now : Z)
           (entries : list MemoryEntry) : list MemorySearchResult :=
  List.filter
    (fun r => Qle_bool (default 0%Q (minScore opts)) (score r))
    (List.map (fun e => mkResult e (scoreOf opts now e))
              (tagFilter opts (sessionFilter opts entries))).

Definition search (opts : MemorySearchOptions) (now : Z)
           (entries : list MemoryEntry) : list MemorySearchResult :=
  sliceTo (default 10 (maxResults opts))
          (sortByScore (scored opts now entries)).
End Search.

(** The tag filter shared by [list] and [count]: applied when [tags] is
    given and not empty. *)
Definition filterTags (tags : option (list string))
           (entries : list MemoryEntry) : list MemoryEntry :=
  match tags with
  | Some (t :: ts) =>
      List.filter (hasTag (List.map SessionKey.toLowerCase (t :: ts))) entries
  | _ => entries
  end.

(** Stable sort by descending creation time (comparator
    [b.createdAt - a.createdAt]). *)
Fixpoint insertByCreatedAt (e : MemoryEntry) (l : list MemoryEntry)
  : list MemoryEntry :=
  match l with
  | [] => [e]
  | x :: l' =>
      if createdAt x <=? createdAt e then e :: x :: l'
      else x :: insertByCreatedAt e l'
  end.

Fixpoint sortByCreatedAt (l : list MemoryEntry) : list MemoryEntry :=
  match l with
  | [] => []
  | e :: l' => insertByCreatedAt e (sortByCreatedAt l')
  end.

(** [l.slice(first, last)] for integer bounds. *)
Definition sliceList {A} (l : list A) (first last : Z) : list A :=
  let len := Z.of_nat (length l) in
  let from := SessionKey.clampIndex len first in
  let to := SessionKey.clampIndex len last in
  firstn (Z.to_nat (Z.max (to - from) 0)) (skipn (Z.to_nat from) l).

Record ListOptions := mkListOptions {
  limit : option Z;
  offset : option Z;
  listTags : option (list string)
}.

Definition count (tags : option (list string)) (cache : list MemoryEntry)
  : nat :=
  length (filterTags tags cache).

(** [s.split(/\s+/)]: the pieces between the runs of white space; a run
    at either end leaves an empty piece there. [afterSpace] tells that
    the code unit before [s] was white space. *)
Fixpoint splitSpaces (afterSpace : bool) (s : string) : list string :=
  match s with
  | EmptyString => [EmptyString]
  | String c s' =>
      if SessionKey.isWhiteSpace c
      then (if afterSpace then splitSpaces true s'
            else EmptyString :: splitSpaces true s')
      else match splitSpaces false s' with
           | piece :: rest => String c piece :: rest
           | [] => [String c EmptyString]
           end
  end.

(** [content.includes(term)]. *)
Definition includes (content term : string) : bool :=
  0 <=? SessionKey.indexOf term content.

Definition queryTerms (query : string) : list string :=
  List.filter (fun t => (2 <? String.length t)%nat)
              (splitSpaces false (SessionKey.toLowerCase query)).

(** [computeRelevance]: the ratio is kept exact, as a rational. *)
Definition computeRelevance (content query : string) : Q :=
  let contentLower := SessionKey.toLowerCase content in
  let terms := queryTerms query in
  match terms with
  | [] => 1 # 2
  | _ =>
      let matches := List.filter (includes contentLower) terms in
      inject_Z (Z.of_nat (length matches)) / inject_Z (Z.of_nat (length terms))
  end.

(** [list(opts)] on the loaded entries [cache]. The result comes with the
    cache as the call leaves it: [sort] works in place, on the cache
    array itself when no tag filter made a new array. *)
Definition list (opts : option ListOptions) (cache : list MemoryEntry)
  : Datatypes.list MemoryEntry * Datatypes.list MemoryEntry :=
  let tags := opts ≫= listTags in
  let entries := sortByCreatedAt (filterTags tags cache) in
  let cache' := match tags with
                | Some (_ :: _) => cache
                | _ => entries
                end in
  let offset := default 0 (opts ≫= offset) in
  let limit := default 100 (opts ≫= limit) in
  (sliceList entries offset (offset + limit), cache').

End FileMemoryProvider.

(** * Session manager ([src/session-manager.ts])

    An asynchronous method runs without interruption from one [await] to the
    next. The model has one event per such stretch of [getOrCreateByKey] and
    [closeSession]; a run of the manager is a sequence of events. Promises
    and session objects are numbered: the creation promise numbered [c]
    resolves to the session object numbered [c]. *)
Module SessionManager.

Record ManagedSession := mkManaged {
  session : nat;
  createdAt : Z;
  lastAccessedAt : Z
}.

(** [order] keeps the keys of [sessions] in insertion order, the order in
    which a [Map] is walked. [closing] lists the keys of the
    [closeSession] calls that wait at an [await] (for the operation chain,
    then for the session's [close]). *)
Record State := mkState {
  sessions : gmap string ManagedSession;
  order : list string;
  pendingCreations : gmap string nat;
  closing : list string;
  nextPromise : nat;
  maxSessions : nat
}.

Definition init (maxSessions : nat) : State :=
  mkState ∅ [] ∅ [] 0 maxSessions.

(** [this.sessions.entries()]. *)
Definition entries (s : State) : list (string * ManagedSession) :=
  omap (fun k => pair k <$> sessions s !! k) (order s).

(** [this.sessions.set(key, managed)]: a new key goes to the end. *)
Definition setSession (key : string) (managed : ManagedSession) (s : State)
  : State :=
  mkState (<[key := managed]> (sessions s))
          (match sessions s !! key with
           | Some _ => order s
           | None => order s ++ [key]
           end)
          (pendingCreations s) (closing s) (nextPromise s) (maxSessions s).

(** [this.sessions.delete(key)]. *)
Definition deleteSession (key : string) (s : State) : State :=
  mkState (delete key (sessions s))
          (List.filter (fun k => negb (String.eqb k key)) (order s))
          (pendingCreations s) (closing s) (nextPromise s) (maxSessions s).

(** How a call of [getOrCreateByKey] leaves its first stretch. *)
Inductive CallResult :=
| Returns (session : nat)
| AwaitsPending (promise : nat)
| AwaitsCreation (promise : nat).

(** The loop of [evictOldest]: the first entry with the least
    [lastAccessedAt] ([None] stands for the initial [Infinity]). *)
Definition oldestKey (es : list (string * ManagedSession)) : option string :=
  fst <$>
    fold_left
      (fun acc kv =>
         match acc with
         | Some (_, t) =>
             if lastAccessedAt (snd kv) <? t
             then Some (fst kv, lastAccessedAt (snd kv)) else acc
         | None => Some (fst kv, lastAccessedAt (snd kv))
         end)
      es None.

(** First stretch of [closeSession(key)]: without a session it returns;
    otherwise it waits for the operation chain. *)
Definition closeSessionBegin (key : string) (s : State) : State :=
  match sessions s !! key with
  | None => s
  | Some _ =>
      mkState (sessions s) (order s) (pendingCreations s) (closing s ++ [key])
              (nextPromise s) (maxSessions s)
  end.

Fixpoint removeFirst (key : string) (l : list string) : option (list string) :=
  match l with
  | [] => None
  | k :: l' =>
      if String.eqb k key then Some l'
      else cons k <$> removeFirst key l'
  end.

(** Last stretch of a waiting [closeSession(key)]:
    [this.sessions.delete(sessionKey)]. *)
Definition closeSessionEnd (key : string) (s : State) : State :=
  match removeFirst key (closing s) with
  | None => s
  | Some rest =>
      let s1 := deleteSession key s in
      mkState (sessions s1) (order s1) (pendingCreations s1) rest
              (nextPromise s1) (maxSessions s1)
  end.

Definition evictOldest (s : State) : State :=
  match oldestKey (entries s) with
  | Some key => if SessionKey.truthy key then closeSessionBegin key s else s
  | None => s
  end.

(** First stretch of [getOrCreateByKey(sessionKey)], up to its return or
    its first [await]. The existing record is an object of the map: its
    [lastAccessedAt] is updated in place. *)
Definition getOrCreateByKey (sessionKey : string) (now : Z) (s : State)
  : CallResult * State :=
  match sessions s !! sessionKey with
  | Some existing =>
      (Returns (session existing),
       mkState (<[sessionKey := mkManaged (session existing)
                                          (createdAt existing) now]>
                  (sessions s))
               (order s) (pendingCreations s) (closing s) (nextPromise s)
               (maxSessions s))
  | None =>
      match pendingCreations s !! sessionKey with
      | Some pending => (AwaitsPending pending, s)
      | None =>
          let s1 := if (maxSessions s <=? size (sessions s))%nat
                    then evictOldest s else s in
          let creationPromise := nextPromise s1 in
          (AwaitsCreation creationPromise,
           mkState (sessions s1) (order s1)
                   (<[sessionKey := creationPromise]> (pendingCreations s1))
                   (closing s1) (S creationPromise) (maxSessions s1))
      end
  end.

(** The creation recorded for [sessionKey] settles and its creator goes on:
    on success it installs the session, and in both cases it drops the
    entry of the pending map. *)
Definition creationSettled (sessionKey : string) (ok : bool) (now : Z)
           (s : State) : State :=
  match pendingCreations s !! sessionKey with
  | None => s
  | Some promise =>
      let s1 := if ok then setSession sessionKey (mkManaged promise now now) s
                else s in
      mkState (sessions s1) (order s1)
              (delete sessionKey (pendingCreations s1))
              (closing s1) (nextPromise s1) (maxSessions s1)
  end.

(** [getOrCreate(parts)]. *)
Definition getOrCreate (parts : SessionKey.SessionKeyParts) (now : Z)
           (s : State) : CallResult * State :=
  getOrCreateByKey (SessionKey.buildSessionKey parts) now s.

Inductive Event :=
| Call (sessionKey : string) (now : Z)
| CreationSettled (sessionKey : string) (ok : bool) (now : Z)
| CloseBegin (sessionKey : string)
| CloseEnd (sessionKey : string).

Definition step (s : State) (e : Event) : State :=
  match e with
  | Call key now => snd (getOrCreateByKey key now s)
  | CreationSettled key ok now => creationSettled key ok now s
  | CloseBegin key => closeSessionBegin key s
  | CloseEnd key => closeSessionEnd key s
  end.

Definition run (events : list Event) (s : State) : State :=
  fold_left step events s.

(** The session objects the manager holds for a key: the installed one and
    the one under construction. *)
Definition heldFor (key : string) (s : State) : list nat :=
  match sessions s !! key, pendingCreations s !! key with
  | Some m, Some c => [session m; c]
  | Some m, None => [session m]
  | None, Some c => [c]
  | None, None => []
  end.

(** A key with a creation in flight has no installed session, and every
    promise and session object held is older than the next promise. *)
Definition singleFlightInv (s : State) : Prop :=
  (forall k, is_Some (pendingCreations s !! k) -> sessions s !! k = None)
  /\ (forall k c, pendingCreations s !! k = Some c -> (c < nextPromise s)%nat)
  /\ (forall k m, sessions s !! k = Some m -> (session m < nextPromise s)%nat).

(** [listSessions()]. *)
Definition listSessions (s : State) : list string := fst <$> entries s.

(** The callback of the cleanup timer at clock reading [now], for the
    session lifetime [sessionTtlMs]: every session last accessed before
    the cutoff gets a [closeSession] call, which runs up to its first
    [await]. *)
Definition cleanupTick (now sessionTtlMs : Z) (s : State) : State :=
  let cutoff := now - sessionTtlMs in
  fold_left
    (fun st kv =>
       if lastAccessedAt (snd kv) <? cutoff
       then closeSessionBegin (fst kv) st else st)
    (entries s) s.

End SessionManager.

(** * Subagent manager ([src/subagent.ts]) *)
Module SubagentManager.

Inductive SubagentStatus := Running | Completed | Failed.

Record Stats := mkStats {
  runtimeMs : Z;
  tokensIn : option Z;
  tokensOut : option Z
}.

(** [abortController] holds the [aborted] flag of the controller's signal
    when a controller was created. *)
Record Subagent := mkSubagent {
  id : string;
  task : string;
  label : option string;
  status : SubagentStatus;
  createdAt : Z;
  completedAt : option Z;
  result : option string;
  error : option string;
  sessionKey : string;
  requesterChannel : string;
  requesterChatId : string;
  stats : option Stats;
  abortController : option bool
}.

Record State := mkState {
  subagents : gmap string Subagent;
  currentChannel : string;
  currentChatId : string;
  bus : MessageBus.State
}.

Definition isRunning (s : Subagent) : bool :=
  match status s with Running => true | _ => false end.

Definition newline : string := String (ascii_of_nat 10) EmptyString.
Definition dquote : string := String (ascii_of_nat 34) EmptyString.

(** Number to string conversion of an integer. *)
Definition numberToString (z : Z) : string :=
  NilZero.string_of_int (Z.to_int z).

(** [Math.round(n / d)] for an integer [n] and a positive integer [d]:
    halves round up. *)
Definition roundDiv (n d : Z) : Z := (2 * n + d) / (2 * d).

(** An optional string inside a template literal. *)
Definition orUndefined (o : option string) : string :=
  match o with Some s => s | None => "undefined" end.

Definition announcement (subagent : Subagent) (outcome : string)
  : MessageBus.OutboundMessage :=
  let label := match label subagent with
               | Some l =>
                   if SessionKey.truthy l then " " ++ dquote ++ l ++ dquote
                   else ""
               | None => ""
               end in
  let runtimeMs := match stats subagent with
                   | Some st => runtimeMs st
                   | None => 0
                   end in
  let runtimeStr :=
    if 60000 <? runtimeMs
    then numberToString (roundDiv runtimeMs 60000) ++ "m"
         ++ numberToString (roundDiv (Z.rem runtimeMs 60000) 1000) ++ "s"
    else numberToString (roundDiv runtimeMs 1000) ++ "s" in
  let statsLine :=
    "runtime " ++ runtimeStr ++ " | session " ++ sessionKey subagent in
  let header :=
    "[Subagent " ++ id subagent ++ label ++ " " ++ outcome ++ "]" in
  let content :=
    match status subagent with
    | Completed =>
        header ++ newline ++ newline ++ "Findings:" ++ newline
        ++ orUndefined (result subagent) ++ newline ++ newline
        ++ "Stats: " ++ statsLine
    | Failed =>
        header ++ newline ++ newline ++ "Error: "
        ++ orUndefined (error subagent) ++ newline ++ newline
        ++ "Stats: " ++ statsLine
    | Running =>
        header ++ newline ++ newline ++ "Stats: " ++ statsLine
    end in
  MessageBus.mkOutbound (requesterChannel subagent)
                        (requesterChatId subagent) content.

(** [announceResult] runs up to its call of [publishOutbound] before
    [stop] goes on: the bus has the message when [stop] returns. *)
Definition announceResult (subagent : Subagent) (outcome : string)
           (s : State) : State :=
  mkState (subagents s) (currentChannel s) (currentChatId s)
          (MessageBus.publishOutbound (announcement subagent outcome) (bus s)).

Definition get (subagentId : string) (s : State) : option Subagent :=
  subagents s !! subagentId.

(** The record of a subagent after [stop] has marked it. *)
Definition stopped (now : Z) (subagent : Subagent) : Subagent :=
  mkSubagent (id subagent) (task subagent) (label subagent) Completed
             (createdAt subagent) (Some now) (Some "Stopped by request")
             (error subagent) (sessionKey subagent)
             (requesterChannel subagent) (requesterChatId subagent)
             (Some (mkStats (now - createdAt subagent) None None))
             (match abortController subagent with
              | Some _ => Some true
              | None => None
              end).

(** [stop(id)]; [now] is the reading of the clock it takes. The record is
    an object held by the map: marking it updates the entry in place. *)
Definition stop (subagentId : string) (now : Z) (s : State) : bool * State :=
  match subagents s !! subagentId with
  | None => (false, s)
  | Some subagent =>
      if negb (isRunning subagent) then (false, s)
      else
        let subagent' := stopped now subagent in
        let s' := mkState (<[subagentId := subagent']> (subagents s))
                          (currentChannel s) (currentChatId s) (bus s) in
        (true, announceResult subagent' "stopped" s')
  end.

Record SpawnParams := mkSpawnParams {
  spawnTask : string;
  spawnLabel : option string;
  spawnChannel : option string;
  spawnChatId : option string;
  timeoutSeconds : option Z
}.

(** [value || fallback] for an optional string. *)
Definition orElse (value : option string) (fallback : string) : string :=
  match value with
  | Some v => if SessionKey.truthy v then v else fallback
  | None => fallback
  end.

Definition setCurrentContext (channel chatId : string) (s : State) : State :=
  mkState (subagents s) channel chatId (bus s).

Definition getCurrentContext (s : State) : string * string :=
  (currentChannel s, currentChatId s).

(** [spawn(params)]. [uuidPrefix] is the value of
    [crypto.randomUUID().slice(0, 8)], [now] the reading of the clock and
    [parentSessionKey] the field of the dependencies. The abort
    controller, and with it the timer, exists for a positive
    [timeoutSeconds]. The background run ([runSubagent]) starts and
    waits; it comes back as one of the worker events below. *)
Definition spawn (params : SpawnParams) (uuidPrefix : string) (now : Z)
           (parentSessionKey : option string) (s : State) : string * State :=
  let channel := orElse (spawnChannel params) (currentChannel s) in
  let chatId := orElse (spawnChatId params) (currentChatId s) in
  let parentKey := orElse parentSessionKey "main" in
  let sessionKey := "subagent:" ++ parentKey ++ ":" ++ uuidPrefix in
  let subagent :=
    mkSubagent uuidPrefix (spawnTask params) (spawnLabel params) Running now
               None None None sessionKey channel chatId None
               (match timeoutSeconds params with
                | Some t => if 0 <? t then Some false else None
                | None => None
                end) in
  (uuidPrefix,
   mkState (<[uuidPrefix := subagent]> (subagents s))
           (currentChannel s) (currentChatId s) (bus s)).

(** The record of a subagent after [handleTimeout], the controller
    aborted. *)
Definition timedOut (now : Z) (subagent : Subagent) : Subagent :=
  mkSubagent (id subagent) (task subagent) (label subagent) Failed
             (createdAt subagent) (Some now) (result subagent)
             (Some "Timeout exceeded") (sessionKey subagent)
             (requesterChannel subagent) (requesterChatId subagent)
             (Some (mkStats (now - createdAt subagent) None None))
             (match abortController subagent with
              | Some _ => Some true
              | None => None
              end).

(** The callbacks of [spawn] and the background run hold the subagent
    object. The model finds it under its id: the ids drawn by [spawn] are
    taken to be distinct, so the record under an id is the object of the
    callback for as long as [cleanup] has not removed it. *)

(** The timer set by [spawn] fires. Only a subagent with an abort
    controller has a timer. *)
Definition timeoutFired (subagentId : string) (now : Z) (s : State) : State :=
  match subagents s !! subagentId with
  | Some subagent =>
      match abortController subagent with
      | Some _ =>
          if isRunning subagent then
            let subagent' := timedOut now subagent in
            announceResult subagent' "timed out"
              (mkState (<[subagentId := subagent']> (subagents s))
                       (currentChannel s) (currentChatId s) (bus s))
          else s
      | None => s
      end
  | None => s
  end.

(** The record after the success path of [runSubagent]; [lastText] is
    what [session.getLastAssistantText()] returns. *)
Definition finished (now : Z) (lastText : option string)
           (subagent : Subagent) : Subagent :=
  mkSubagent (id subagent) (task subagent) (label subagent) Completed
             (createdAt subagent) (Some now) (Some (orElse lastText "Done"))
             (error subagent) (sessionKey subagent)
             (requesterChannel subagent) (requesterChatId subagent)
             (Some (mkStats (now - createdAt subagent) None None))
             (abortController subagent).

(** The record after the [catch] block of [runSubagent]. *)
Definition failedWith (now : Z) (message : string) (subagent : Subagent)
  : Subagent :=
  mkSubagent (id subagent) (task subagent) (label subagent) Failed
             (createdAt subagent) (Some now) (result subagent)
             (Some message) (sessionKey subagent)
             (requesterChannel subagent) (requesterChatId subagent)
             (Some (mkStats (now - createdAt subagent) None None))
             (abortController subagent).

(** The background run goes on after [await session.prompt(...)]
    resolved. [None]: the record is gone from the map, which this model
    does not follow. *)
Definition promptResolved (subagentId : string) (lastText : option string)
           (now : Z) (s : State) : option State :=
  match subagents s !! subagentId with
  | Some subagent =>
      let subagent' := finished now lastText subagent in
      Some (announceResult subagent' "completed successfully"
              (mkState (<[subagentId := subagent']> (subagents s))
                       (currentChannel s) (currentChatId s) (bus s)))
  | None => None
  end.

(** The background run enters its [catch] block with an error of the
    given message. *)
Definition runFailed (subagentId : string) (message : string) (now : Z)
           (s : State) : option State :=
  match subagents s !! subagentId with
  | Some subagent =>
      match abortController subagent with
      | Some true => Some s
      | _ =>
          let subagent' := failedWith now message subagent in
          Some (announceResult subagent' ("failed: " ++ message)
                  (mkState (<[subagentId := subagent']> (subagents s))
                           (currentChannel s) (currentChatId s) (bus s)))
      end
  | None => None
  end.

(** The test of [cleanup] on one record. *)
Definition expired (cutoff : Z) (subagent : Subagent) : bool :=
  negb (isRunning subagent) && (default 0 (completedAt subagent) <? cutoff).

(** [cleanup(maxAgeMs)]: the records that pass the test are deleted and
    counted. *)
Definition cleanup (maxAgeMs : option Z) (now : Z) (s : State) : nat * State :=
  let cutoff := now - default (30 * 60 * 1000) maxAgeMs in
  (size (filter (fun kv => expired cutoff (snd kv) = true) (subagents s)),
   mkState (filter (fun kv => expired cutoff (snd kv) = false) (subagents s))
           (currentChannel s) (currentChatId s) (bus s)).

End SubagentManager.

(** * Numbers ([number], IEEE 754 binary64)

    A finite double is given by the rational it stands for; the sign of a
    zero is not kept (the program divides only in [computeNextRun], where a
    zero divisor leads to [NaN] whatever its sign, and its comparisons and
    [Math.max] do not tell the two zeros apart). Every arithmetic
    operation computes the exact result and rounds it to the nearest
    double, ties to the even mantissa: 53 bits of mantissa, the exponent of
    the last place between -1074 and 971, and an infinity from 2^1024
    on. *)
Module JsNumber.

Inductive number := Num (q : Q) | PosInf | NegInf | NaN.

(** [floor (log2 (|n| / d))] for [n <> 0] and [d > 0]. *)
Definition ilog2 (n d : Z) : Z :=
  let k := Z.log2 (Z.abs n) - Z.log2 d in
  if (if 0 <=? k then d * 2 ^ k <=? Z.abs n else d <=? Z.abs n * 2 ^ (- k))
  then k else k - 1.

(** The integer nearest to [n / d] for [d > 0], the even one of two that
    are equally near. *)
Definition roundEven (n d : Z) : Z :=
  let f := n / d in
  match 2 * (n mod d) ?= d with
  | Lt => f
  | Gt => f + 1
  | Eq => if Z.even f then f else f + 1
  end.

(** [m * 2 ^ e], in lowest terms. *)
Definition scaled (m e : Z) : Q :=
  if 0 <=? e then inject_Z (m * 2 ^ e)
  else Qred (m # Z.to_pos (2 ^ (- e))).

(** The double nearest to [q]. *)
Definition round (q : Q) : number :=
  let n := Qnum q in
  let d := Z.pos (Qden q) in
  if n =? 0 then Num 0
  else
    let e := Z.max (-1074) (ilog2 n d - 52) in
    let m := if 0 <=? e then roundEven n (d * 2 ^ e)
             else roundEven (n * 2 ^ (- e)) d in
    if (971 <? e) || ((e =? 971) && (2 ^ 53 <=? Z.abs m))
    then (if 0 <? n then PosInf else NegInf)
    else Num (scaled m e).

(** An integer as a number. *)
Definition ofZ (z : Z) : number := round (inject_Z z).

Definition isZero (q : Q) : bool := Qnum q =? 0.
Definition isPositive (q : Q) : bool := 0 <? Qnum q.

Definition add (a b : number) : number :=
  match a, b with
  | NaN, _ | _, NaN => NaN
  | Num x, Num y => round (x + y)
  | PosInf, NegInf | NegInf, PosInf => NaN
  | PosInf, _ | _, PosInf => PosInf
  | NegInf, _ | _, NegInf => NegInf
  end.

Definition sub (a b : number) : number :=
  match a, b with
  | NaN, _ | _, NaN => NaN
  | Num x, Num y => round (x - y)
  | PosInf, PosInf | NegInf, NegInf => NaN
  | PosInf, _ | _, NegInf => PosInf
  | NegInf, _ | _, PosInf => NegInf
  end.

(** The infinity of the sign of [q], and [NaN] for zero. *)
Definition infinityOfSign (q : Q) : number :=
  if isZero q then NaN else if isPositive q then PosInf else NegInf.

Definition opposite (a : number) : number :=
  match a with
  | Num q => Num (- q)
  | PosInf => NegInf
  | NegInf => PosInf
  | NaN => NaN
  end.

Definition mul (a b : number) : number :=
  match a, b with
  | NaN, _ | _, NaN => NaN
  | Num x, Num y => round (x * y)
  | PosInf, Num y | Num y, PosInf => infinityOfSign y
  | NegInf, Num y | Num y, NegInf => opposite (infinityOfSign y)
  | PosInf, PosInf | NegInf, NegInf => PosInf
  | PosInf, NegInf | NegInf, PosInf => NegInf
  end.

Definition div (a b : number) : number :=
  match a, b with
  | NaN, _ | _, NaN => NaN
  | Num x, Num y => if isZero y then infinityOfSign x else round (x / y)
  | Num _, (PosInf | NegInf) => Num 0
  | (PosInf | NegInf), (PosInf | NegInf) => NaN
  | PosInf, Num y => if isZero y || isPositive y then PosInf else NegInf
  | NegInf, Num y => if isZero y || isPositive y then NegInf else PosInf
  end.

(** [Math.floor]. *)
Definition floor (a : number) : number :=
  match a with
  | Num q => Num (inject_Z (Qfloor q))
  | _ => a
  end.

(** [a > b]; a comparison with [NaN] is false. *)
Definition gt (a b : number) : bool :=
  match a, b with
  | NaN, _ | _, NaN => false
  | Num x, Num y => negb (Qle_bool x y)
  | PosInf, PosInf | NegInf, _ | _, PosInf => false
  | PosInf, _ | _, NegInf => true
  end.

(** [Math.max(a, b)]. *)
Definition max (a b : number) : number :=
  match a, b with
  | NaN, _ | _, NaN => NaN
  | Num x, Num y => if Qle_bool x y then b else a
  | PosInf, _ | _, PosInf => PosInf
  | NegInf, c | c, NegInf => c
  end.

(** Truthiness: zero and [NaN] are falsy. *)
Definition truthy (a : number) : bool :=
  match a with
  | Num q => negb (isZero q)
  | PosInf | NegInf => true
  | NaN => false
  end.

(** Whether [JSON.stringify] writes the number (it writes [null] for
    [NaN] and the infinities). *)
Definition isFinite (a : number) : bool :=
  match a with Num _ => true | _ => false end.

(** An integer of magnitude at most 2^51: the sum of three such
    integers is below 2^53 in magnitude, where every integer is a
    double. (A clock reading stays moderate until the year 73000.) *)
Definition moderate (z : Z) : Prop := Z.abs z <= 2 ^ 51.

End JsNumber.

(** * The doubles of the machine

    The binary64 numbers of the kernel, read as numbers of [JsNumber]:
    the arithmetic of [JsNumber] is compared with the machine's on
    samples. *)
Module Binary64.

(** The double of an integer of magnitude below 2^53. *)
Definition ofZ (z : Z) : PrimFloat.float :=
  match z with
  | Z0 => PrimFloat.zero
  | Zpos p => FloatOps.SF2Prim (SpecFloat.S754_finite false p 0)
  | Zneg p => FloatOps.SF2Prim (SpecFloat.S754_finite true p 0)
  end.

Definition toNumber (f : PrimFloat.float) : JsNumber.number :=
  match FloatOps.Prim2SF f with
  | SpecFloat.S754_zero _ => JsNumber.Num 0
  | SpecFloat.S754_finite s m e =>
      JsNumber.Num (JsNumber.scaled (if s then Z.neg m else Z.pos m) e)
  | SpecFloat.S754_infinity s =>
      if s then JsNumber.NegInf else JsNumber.PosInf
  | SpecFloat.S754_nan => JsNumber.NaN
  end.

(** The two quotients [a / b] and [c / d] of a sample, their sum,
    difference, product and quotient: computed by [JsNumber] and by the
    machine. *)
Definition computed (sample : Z * Z * Z * Z) : list JsNumber.number :=
  let '(a, b, c, d) := sample in
  let x := JsNumber.div (JsNumber.ofZ a) (JsNumber.ofZ b) in
  let y := JsNumber.div (JsNumber.ofZ c) (JsNumber.ofZ d) in
  [x; y; JsNumber.add x y; JsNumber.sub x y; JsNumber.mul x y;
   JsNumber.div x y].

Definition measured (sample : Z * Z * Z * Z) : list JsNumber.number :=
  let '(a, b, c, d) := sample in
  let x := PrimFloat.div (ofZ a) (ofZ b) in
  let y := PrimFloat.div (ofZ c) (ofZ d) in
  toNumber <$> [x; y; PrimFloat.add x y; PrimFloat.sub x y;
                PrimFloat.mul x y; PrimFloat.div x y].

End Binary64.

(** * Cron service ([src/cron/service.ts], [src/cron/types.ts])

    The values the service computes with are numbers ([JsNumber.number]).
    The readings of the clock ([Date.now()]) and the timestamps copied
    from them are time values, integers, and are kept as such: [createdAtMs],
    [updatedAtMs], [runningAtMs] and [lastRunAtMs]. *)
Module CronService.

Abbreviation jsnum := JsNumber.number.
Abbreviation Num := JsNumber.Num.
Abbreviation NaN := JsNumber.NaN.

(** The numbers of a schedule are finite ones, given by the rationals
    they stand for: a schedule reaches the service as JSON (the
    arguments of a tool call, the store file), which has no [NaN] and no
    infinity. (The type admits rationals that are no doubles; what is
    proved for every rational holds for the doubles among them.) *)
Inductive CronSchedule :=
| At (atMs : Q)
| Every (everyMs : Q) (anchorMs : option Q)
| Cron (expr : string) (tz : option string).

Inductive CronPayload :=
| SystemEvent (text : string)
| AgentTurn (message : string) (deliver : option bool)
            (channel chatId : option string).

Inductive RunStatus := StatusOk | StatusError | StatusSkipped.

Record CronJobState := mkJobState {
  nextRunAtMs : option jsnum;
  runningAtMs : option Z;
  lastRunAtMs : option Z;
  lastStatus : option RunStatus;
  lastError : option string;
  lastDurationMs : option jsnum
}.

Record CronJob := mkJob {
  id : string;
  name : string;
  description : option string;
  enabled : bool;
  deleteAfterRun : option bool;
  createdAtMs : Z;
  updatedAtMs : Z;
  schedule : CronSchedule;
  payload : CronPayload;
  state : CronJobState
}.

Definition withState (j : CronJob) (s : CronJobState) : CronJob :=
  mkJob (id j) (name j) (description j) (enabled j) (deleteAfterRun j)
        (createdAtMs j) (updatedAtMs j) (schedule j) (payload j) s.

Inductive EventType := EvRun | EvError | EvSkip.

Record CronEvent := mkEvent {
  evType : EventType;
  evJob : CronJob;
  evResult : option string;
  evError : option string
}.

(** What the [executeJob] callback of the dependencies does when awaited. *)
Inductive Outcome :=
| Resolves (result : option string)
| Rejects (message : string).

(** What the dependencies and the file system do during one execution of
    a job: the callback resolves or rejects; the call of [onEvent] in the
    [try] block and the one in the [catch] block return ([None]) or throw
    an error of the given message; the [save] of the [try] block and the
    one of the [catch] block resolve ([None]) or reject with the given
    message, the store being left as it was. *)
Record Behaviour := mkBehaviour {
  callback : Outcome;
  onRunEvent : option string;
  saveAfterRun : option string;
  onErrorEvent : option string;
  saveAfterError : option string
}.

(** The callback resolves, [onEvent] returns and the store is written. *)
Definition succeeds (result : option string) : Behaviour :=
  mkBehaviour (Resolves result) None None None None.

(** The callback rejects, [onEvent] returns and the store is written. *)
Definition fails (message : string) : Behaviour :=
  mkBehaviour (Rejects message) None None None None.


Inductive Mode := Due | Force.

(** The service object. [timers] maps a job id to the delay its pending
    timeout was armed with; [store] is the job array last written to
    [storePath]; [events] collects the [onEvent] calls; [reads] counts the
    clock readings taken so far. *)
Record State := mkState {
  jobs : list CronJob;
  timers : gmap string jsnum;
  running : bool;
  store : option (list CronJob);
  events : list CronEvent;
  reads : nat
}.

Inductive Result (A : Type) := Ok (a : A) | Throw (message : string).
Arguments Ok {A} a.
Arguments Throw {A} message.

(** State and exceptions, threaded through the methods of the service. *)
Definition M (A : Type) : Type := State -> Result A * State.

Definition ret {A} (a : A) : M A := fun s => (Ok a, s).
Definition throw {A} (message : string) : M A := fun s => (Throw message, s).
Definition bind {A B} (m : M A) (f : A -> M B) : M B :=
  fun s => match m s with
           | (Ok a, s') => f a s'
           | (Throw e, s') => (Throw e, s')
           end.
Definition catch {A} (m : M A) (h : string -> M A) : M A :=
  fun s => match m s with
           | (Ok a, s') => (Ok a, s')
           | (Throw e, s') => h e s'
           end.
Definition gets {A} (f : State -> A) : M A := fun s => (Ok (f s), s).
Definition modify (f : State -> State) : M unit := fun s => (Ok tt, f s).

Declare Scope cron_scope.
Delimit Scope cron_scope with cron.
Notation "x <- m ;; k" := (bind m (fun x => k))
  (at level 100, m at next level, right associativity) : cron_scope.
Notation "m ;;; k" := (bind m (fun _ => k))
  (at level 100, right associativity) : cron_scope.
Local Open Scope cron_scope.

Definition setJobs (l : list CronJob) (s : State) : State :=
  mkState l (timers s) (running s) (store s) (events s) (reads s).
Definition setTimers (t : gmap string jsnum) (s : State) : State :=
  mkState (jobs s) t (running s) (store s) (events s) (reads s).
Definition setStore (l : list CronJob) (s : State) : State :=
  mkState (jobs s) (timers s) (running s) (Some l) (events s) (reads s).
Definition addEvent (e : CronEvent) (s : State) : State :=
  mkState (jobs s) (timers s) (running s) (store s) (events s ++ [e]) (reads s).

(** [findIndex]: the first position whose element satisfies [p]. *)
Fixpoint findIndex {A} (p : A -> bool) (l : list A) : option nat :=
  match l with
  | [] => None
  | x :: l' => if p x then Some 0%nat else S <$> findIndex p l'
  end.

Definition hasId (i : string) (j : CronJob) : bool := String.eqb (id j) i.

(** Truthiness of [deleteAfterRun?: boolean]. *)
Definition isTrue (b : option bool) : bool :=
  match b with Some true => true | _ => false end.

(** Truthiness of a number: zero and [NaN] are falsy. *)
Definition truthyNum (n : jsnum) : bool := JsNumber.truthy n.

(** [n > now], for a clock reading [now]. *)
Definition gtNum (n : jsnum) (now : Z) : bool :=
  JsNumber.gt n (JsNumber.ofZ now).

(** [Math.max(0, nextRun - now)], for a clock reading [now]. *)
Definition delayUntil (nextRun : jsnum) (now : Z) : jsnum :=
  JsNumber.max (JsNumber.ofZ 0) (JsNumber.sub nextRun (JsNumber.ofZ now)).

Definition setReads (n : nat) (s : State) : State :=
  mkState (jobs s) (timers s) (running s) (store s) (events s) n.

(** The next-run rules in the words of the specification, over the
    rationals: [anchor + (floor((now - anchor) / everyMs) + 1) * everyMs]
    with [anchor = anchorMs ?? now], and [atMs] if [atMs > now], else
    [now + 1s]. *)
Definition specEvery (now everyMs : Q) (anchorMs : option Q) : Q :=
  let anchor := default now anchorMs in
  anchor + (inject_Z (Qfloor ((now - anchor) / everyMs)) + 1) * everyMs.

Definition specAt (now atMs : Q) : Q :=
  if Qlt_le_dec now atMs then atMs else now + 1000.

Section Service.
(** The wall clock: [clock n] is what the n-th reading ([Date.now()],
    [new Date()]) returns. *)
Variable clock : nat -> Z.
(** The cron-parser library: the next occurrence of [expr] after the
    given date, or [None] when parsing (or iterating) throws. *)
Variable cronNext : string -> option string -> Z -> option Z.

Definition dateNow : M Z :=
  fun s => (Ok (clock (reads s)), setReads (S (reads s)) s).

(** [interval.next().getTime()] is a time value; the fallback adds to
    a reading of its own. *)
Definition parseNextCron (expr : string) (tz : option string) : M jsnum :=
  currentDate <- dateNow ;;
  let tz' := match tz with Some EmptyString => None | _ => tz end in
  match cronNext expr tz' currentDate with
  | Some next => ret (JsNumber.ofZ next)
  | None =>
      now <- dateNow ;;
      ret (JsNumber.add (JsNumber.ofZ now) (JsNumber.ofZ 60000))
  end.

Definition computeNextRun (schedule : CronSchedule) : M jsnum :=
  now <- dateNow ;;
  match schedule with
  | At atMs =>
      ret (if JsNumber.gt (Num atMs) (JsNumber.ofZ now) then Num atMs
           else JsNumber.add (JsNumber.ofZ now) (JsNumber.ofZ 1000))
  | Every everyMs anchorMs =>
      let anchor := match anchorMs with
                    | Some a => Num a
                    | None => JsNumber.ofZ now
                    end in
      let elapsed := JsNumber.sub (JsNumber.ofZ now) anchor in
      let periods := JsNumber.floor (JsNumber.div elapsed (Num everyMs)) in
      ret (JsNumber.add anchor
             (JsNumber.mul (JsNumber.add periods (JsNumber.ofZ 1))
                           (Num everyMs)))
  | Cron expr tz => parseNextCron expr tz
  end.

Definition cancelJobTimer (jobId : string) : M unit :=
  modify (fun s => setTimers (delete jobId (timers s)) s).

Definition scheduleJob (job : CronJob) : M unit :=
  cancelJobTimer (id job) ;;;
  nextRun <- match nextRunAtMs (state job) with
             | Some n => ret n
             | None => computeNextRun (schedule job)
             end ;;
  now <- dateNow ;;
  let delay := delayUntil nextRun now in
  modify (fun s => setTimers (<[id job := delay]> (timers s)) s).

Definition save : M unit :=
  modify (fun s => setStore (jobs s) s).

(** Assignment through the reference [job]: the object sits at position
    [i] of [this.jobs]. *)
Definition writeJob (i : nat) (job : CronJob) : M unit :=
  modify (fun s => setJobs (<[i := job]> (jobs s)) s).

Definition spliceJob (idx : nat) : M unit :=
  modify (fun s => setJobs (delete idx (jobs s)) s).

(** A [save] of an execution: it may reject. *)
Definition saveOr (rejects : option string) : M unit :=
  match rejects with
  | None => save
  | Some message => throw message
  end.

(** A call of [onEvent]: the call is made, and it may throw. *)
Definition emit (e : CronEvent) (throws : option string) : M unit :=
  modify (addEvent e) ;;;
  match throws with
  | None => ret tt
  | Some message => throw message
  end.

(** An assignment through the reference [job], where [place] is the
    position of the object in [this.jobs], or [None] once it has been
    spliced out. *)
Definition writeAt (place : option nat) (job : CronJob) : M unit :=
  match place with
  | Some i => writeJob i job
  | None => ret tt
  end.

(** The [catch] block of [executeJob], entered with an error of the
    given message. It assigns all six fields of the state, so that
    what the [try] block had assigned to them is gone. *)
Definition failed (place : option nat) (job : CronJob) (startMs : Z)
           (message : string) (b : Behaviour) : M (option string) :=
  endMs <- dateNow ;;
  next <- computeNextRun (schedule job) ;;
  let job1 := withState job
    (mkJobState (Some next) None (Some startMs) (Some StatusError)
                (Some message)
                (Some (JsNumber.sub (JsNumber.ofZ endMs)
                                    (JsNumber.ofZ startMs)))) in
  writeAt place job1 ;;;
  emit (mkEvent EvError job1 None (Some message)) (onErrorEvent b) ;;;
  isRunning <- gets running ;;
  (if isRunning && enabled job then scheduleJob job1 else ret tt) ;;;
  saveOr (saveAfterError b) ;;;
  throw message.

(** Where the object that sat at position [i] sits after
    [this.jobs.splice(k, 1)]. *)
Definition afterSplice (k i : nat) : option nat :=
  if Nat.eqb k i then None
  else if Nat.ltb k i then Some (i - 1)%nat else Some i.

(** The handling of a one-shot job in the [try] block; it gives the
    place where the job object is left. *)
Definition removeOneShot (i : nat) (job : CronJob) : M (option nat) :=
  idx <- gets (fun s => findIndex (hasId (id job)) (jobs s)) ;;
  place <- match idx with
           | Some k => spliceJob k ;;; ret (afterSplice k i)
           | None => ret (Some i)
           end ;;
  cancelJobTimer (id job) ;;;
  ret place.

(** [executeJob(job)], for the job object at position [i] of
    [this.jobs]. *)
Definition executeJob (i : nat) (job : CronJob) (b : Behaviour)
  : M (option string) :=
  startMs <- dateNow ;;
  let st0 := state job in
  let job0 := withState job
    (mkJobState (nextRunAtMs st0) (Some startMs) (lastRunAtMs st0)
                (lastStatus st0) (lastError st0) (lastDurationMs st0)) in
  writeJob i job0 ;;;
  match callback b with
  | Resolves result =>
      endMs <- dateNow ;;
      next <- computeNextRun (schedule job) ;;
      let job1 := withState job
        (mkJobState (Some next) None (Some startMs) (Some StatusOk) None
                    (Some (JsNumber.sub (JsNumber.ofZ endMs)
                                        (JsNumber.ofZ startMs)))) in
      writeJob i job1 ;;;
      modify (addEvent (mkEvent EvRun job1 result None)) ;;;
      match onRunEvent b with
      | Some message => failed (Some i) job startMs message b
      | None =>
          place <- (if isTrue (deleteAfterRun job)
                    then removeOneShot i job
                    else
                      isRunning <- gets running ;;
                      (if isRunning && enabled job
                       then scheduleJob job1 else ret tt) ;;;
                      ret (Some i)) ;;
          match saveAfterRun b with
          | Some message => failed place job startMs message b
          | None => save ;;; ret result
          end
      end
  | Rejects message => failed (Some i) job startMs message b
  end.

(** [run(id, mode)], as one link of the operation chain: no other
    operation runs between its steps. [b] is what the dependencies do
    if the job gets executed. *)
Definition run (jobId : string) (mode : Mode) (b : Behaviour)
  : M (option string) :=
  found <- gets (fun s => findIndex (hasId jobId) (jobs s)) ;;
  match found with
  | None => throw ("Job not found: " ++ jobId)
  | Some i =>
      ojob <- gets (fun s => jobs s !! i) ;;
      match ojob with
      | None => throw ("Job not found: " ++ jobId)
      | Some job =>
          notDue <- match mode, nextRunAtMs (state job) with
                    | Due, Some n =>
                        if truthyNum n
                        then now <- dateNow ;; ret (gtNum n now)
                        else ret false
                    | _, _ => ret false
                    end ;;
          if (notDue : bool) then ret None else executeJob i job b
      end
  end.

(** The timeout callback armed by [scheduleJob]. *)
Definition timerFire (jobId : string) (b : Behaviour) : M unit :=
  modify (fun s => setTimers (delete jobId (timers s)) s) ;;;
  catch (run jobId Force b ;;; ret tt) (fun _ => ret tt).

(** The input of [add]: a job without id, timestamps and state, and
    optionally some fields of the state. *)
Record CronJobCreate := mkCreate {
  createName : string;
  createDescription : option string;
  createEnabled : bool;
  createDeleteAfterRun : option bool;
  createSchedule : CronSchedule;
  createPayload : CronPayload;
  createState : option CronJobState
}.

(** A patch: each field is absent ([None]) or holds the new value of the
    field. For a field that a job may lack, the new value may itself be
    [undefined] ([Some None]). *)
Record CronJobStatePatch := mkStatePatch {
  patchNextRunAtMs : option (option jsnum);
  patchRunningAtMs : option (option Z);
  patchLastRunAtMs : option (option Z);
  patchLastStatus : option (option RunStatus);
  patchLastError : option (option string);
  patchLastDurationMs : option (option jsnum)
}.

Record CronJobPatch := mkPatch {
  patchName : option string;
  patchDescription : option (option string);
  patchEnabled : option bool;
  patchDeleteAfterRun : option (option bool);
  patchUpdatedAtMs : option Z;
  patchSchedule : option CronSchedule;
  patchPayload : option CronPayload;
  patchState : option CronJobStatePatch
}.

Definition setRunning (b : bool) (s : State) : State :=
  mkState (jobs s) (timers s) b (store s) (events s) (reads s).

(** [add(input)], as one link of the operation chain; [uuid] is the
    value of [randomUUID()]. *)
Definition add (input : CronJobCreate) (uuid : string) : M CronJob :=
  now <- dateNow ;;
  next <- computeNextRun (createSchedule input) ;;
  let given := default (mkJobState None None None None None None)
                       (createState input) in
  let job := mkJob uuid (createName input) (createDescription input)
                   (createEnabled input) (createDeleteAfterRun input)
                   now now (createSchedule input) (createPayload input)
                   (mkJobState (Some next) (runningAtMs given)
                               (lastRunAtMs given) (lastStatus given)
                               (lastError given) (lastDurationMs given)) in
  modify (fun s => setJobs (jobs s ++ [job]) s) ;;;
  save ;;;
  isRunning <- gets running ;;
  (if isRunning && enabled job then scheduleJob job else ret tt) ;;;
  ret job.

(** [{ ...existing.state, ...patch.state }]. *)
Definition patchedState (existing : CronJobState)
           (patch : option CronJobStatePatch) : CronJobState :=
  match patch with
  | None => existing
  | Some p =>
      mkJobState (default (nextRunAtMs existing) (patchNextRunAtMs p))
                 (default (runningAtMs existing) (patchRunningAtMs p))
                 (default (lastRunAtMs existing) (patchLastRunAtMs p))
                 (default (lastStatus existing) (patchLastStatus p))
                 (default (lastError existing) (patchLastError p))
                 (default (lastDurationMs existing) (patchLastDurationMs p))
  end.

(** The object literal of [update]: the patch over the existing job,
    with [id] and [createdAtMs] put back and [updatedAtMs] set to
    [now]. *)
Definition patched (existing : CronJob) (patch : CronJobPatch) (now : Z)
  : CronJob :=
  mkJob (id existing)
        (default (name existing) (patchName patch))
        (default (description existing) (patchDescription patch))
        (default (enabled existing) (patchEnabled patch))
        (default (deleteAfterRun existing) (patchDeleteAfterRun patch))
        (createdAtMs existing)
        now
        (default (schedule existing) (patchSchedule patch))
        (default (payload existing) (patchPayload patch))
        (patchedState (state existing) (patchState patch)).

(** [update(id, patch)], as one link of the operation chain. *)
Definition update (jobId : string) (patch : CronJobPatch)
  : M (option CronJob) :=
  found <- gets (fun s => findIndex (hasId jobId) (jobs s)) ;;
  match found with
  | None => ret None
  | Some idx =>
      oexisting <- gets (fun s => jobs s !! idx) ;;
      match oexisting with
      | None => ret None
      | Some existing =>
          now <- dateNow ;;
          let updated0 := patched existing patch now in
          updated <- match patchSchedule patch with
                     | Some newSchedule =>
                         next <- computeNextRun newSchedule ;;
                         let st := state updated0 in
                         ret (withState updated0
                                (mkJobState (Some next) (runningAtMs st)
                                            (lastRunAtMs st) (lastStatus st)
                                            (lastError st)
                                            (lastDurationMs st)))
                     | None => ret updated0
                     end ;;
          writeJob idx updated ;;;
          save ;;;
          isRunning <- gets running ;;
          (if (isRunning : bool) then
             cancelJobTimer jobId ;;;
             if enabled updated then scheduleJob updated else ret tt
           else ret tt) ;;;
          ret (Some updated)
      end
  end.

(** [remove(id)], as one link of the operation chain. *)
Definition remove (jobId : string) : M bool :=
  found <- gets (fun s => findIndex (hasId jobId) (jobs s)) ;;
  match found with
  | None => ret false
  | Some idx =>
      spliceJob idx ;;;
      save ;;;
      cancelJobTimer jobId ;;;
      ret true
  end.

(** A job as [JSON.parse] gives it back from what [JSON.stringify]
    wrote: a [NaN] or an infinity is written as [null], which the
    service takes for an absent value (it reads [nextRunAtMs] only with
    [??] and [&&], and never reads [lastDurationMs]). *)
Definition written (n : option jsnum) : option jsnum :=
  match n with
  | Some x => if JsNumber.isFinite x then n else None
  | None => None
  end.

Definition revived (job : CronJob) : CronJob :=
  let st := state job in
  withState job
    (mkJobState (written (nextRunAtMs st))
                (runningAtMs st) (lastRunAtMs st) (lastStatus st)
                (lastError st) (written (lastDurationMs st))).

(** [load()]: the job array read back from the store, or the empty
    array when there is no store file. A store file that does not
    parse makes [load] throw, which is not followed here: the store
    holds what [save] wrote. *)
Definition load : M unit :=
  modify (fun s => setJobs (revived <$> default [] (store s)) s).

Fixpoint scheduleEach (l : list CronJob) : M unit :=
  match l with
  | [] => ret tt
  | job :: rest =>
      (if enabled job then scheduleJob job else ret tt) ;;;
      scheduleEach rest
  end.

Definition scheduleAllJobs : M unit :=
  l <- gets jobs ;; scheduleEach l.

Definition start : M unit :=
  isRunning <- gets running ;;
  if (isRunning : bool) then ret tt
  else modify (setRunning true) ;;; load ;;; scheduleAllJobs.

Definition stop : M unit :=
  modify (fun s => setTimers ∅ (setRunning false s)).

(** One use of the service. The timer of a job fires only while it is
    pending; what an operation returns or throws is dropped here. *)
Inductive Op :=
| OpStart
| OpStop
| OpAdd (input : CronJobCreate) (uuid : string)
| OpUpdate (jobId : string) (patch : CronJobPatch)
| OpRemove (jobId : string)
| OpRun (jobId : string) (mode : Mode) (b : Behaviour)
| OpTimer (jobId : string) (b : Behaviour).

Definition apply (s : State) (op : Op) : State :=
  match op with
  | OpStart => snd (start s)
  | OpStop => snd (stop s)
  | OpAdd input uuid => snd (add input uuid s)
  | OpUpdate jobId patch => snd (update jobId patch s)
  | OpRemove jobId => snd (remove jobId s)
  | OpRun jobId mode b => snd (run jobId mode b s)
  | OpTimer jobId b =>
      match timers s !! jobId with
      | Some _ => snd (timerFire jobId b s)
      | None => s
      end
  end.

Definition exec (ops : list Op) (s : State) : State :=
  fold_left apply ops s.



Definition list (includeDisabled : bool) : M (list CronJob) :=
  gets (fun s => if includeDisabled then jobs s else filter (fun j => enabled j = true) (jobs s)).

End Service.

(** The job is gone from the service: the job list lost exactly position
    [i], no timer is pending for the id, [list({includeDisabled: true})]
    shows the shortened list, and so does the store. *)
Definition removedAt (i : nat) (jobId : string) (s s' : State) : Prop :=
  jobs s' = delete i (jobs s)
  /\ timers s' !! jobId = None
  /\ fst (list true s') = Ok (delete i (jobs s))
  /\ store s' = Some (delete i (jobs s)).

(** The job is still in the service after a failed execution: position
    [i] holds it, with its id and still marked as a one-shot if it was,
    with the status "error" and the message of the error;
    [list({includeDisabled: true})] shows it, the store holds it, and on
    a running service a timer is pending for it if it is enabled. *)
Definition keptFailed (i : nat) (job : CronJob) (message : string)
           (s s' : State) : Prop :=
  exists job1,
    jobs s' = <[i := job1]> (jobs s)
    /\ id job1 = id job
    /\ deleteAfterRun job1 = deleteAfterRun job
    /\ lastStatus (state job1) = Some StatusError
    /\ lastError (state job1) = Some message
    /\ fst (list true s') = Ok (jobs s')
    /\ store s' = Some (jobs s')
    /\ (running s && enabled job = true -> is_Some (timers s' !! id job)).

(** What [executeJob] returns or throws when the [onEvent] of its [catch]
    block returns and none of its saves rejects. *)
Definition settles (b : Behaviour) : Result (option string) :=
  match callback b, onRunEvent b with
  | Resolves result, None => Ok result
  | Resolves _, Some message => Throw message
  | Rejects message, _ => Throw message
  end.

(** The ids of the enabled jobs. *)
Definition enabledIds (l : Datatypes.list CronJob) : Datatypes.list string :=
  id <$> List.filter enabled l.




End CronService.

(** * Per-agent server: [POST /chat] ([src/sdk/agent-server.ts])

    One event per uninterrupted stretch of the handler: the arrival of a
    request (up to the first pending [await]), the settling of the session
    creation it waits for, and the settling of its [prompt] call. Requests
    and session objects are numbered. *)
Module AgentServer.

Inductive Reply :=
| Ok200 (response : string) (session_id : string)
| BadRequest400 (error : string)
| Error500 (error : string).

(** [creating]: requests inside [getOrCreateSession], waiting for the
    directory and the new session. [prompting]: [session.prompt] calls that
    have been made and have not settled, with the session object they were
    made on. *)
Record State := mkState {
  sessions : gmap string nat;
  creating : list (nat * string);
  prompting : list (nat * string * nat);
  replies : list (nat * Reply);
  nextSession : nat
}.

Definition init : State := mkState ∅ [] [] [] 0.

Definition isHex (c : ascii) : bool :=
  let n := nat_of_ascii c in
  ((48 <=? n) && (n <=? 57) || (97 <=? n) && (n <=? 102))%nat.

Definition isLineTerminator (c : ascii) : bool :=
  let n := nat_of_ascii c in ((n =? 10) || (n =? 13))%nat.

(** The test [/^.+-[a-f0-9]{16}$/]: a non-empty part without line
    terminators, a dash, and sixteen lower-case hex digits up to the end. *)
Definition hasCryptoSuffix (s : string) : bool :=
  let n := String.length s in
  if (n <? 18)%nat then false
  else
    let front := substring 0 (n - 17) s in
    let dash := substring (n - 17) 1 s in
    let tail := substring (n - 16) 16 s in
    SessionKey.everyChar (fun c => negb (isLineTerminator c)) front
    && String.eqb dash "-"
    && SessionKey.everyChar isHex tail.

(** [cryptoSuffix] is the value of
    [crypto.randomBytes(8).toString("hex")] in this request. *)
Definition computeSessionId (provided : option string) (cryptoSuffix : string)
  : string :=
  match provided with
  | Some p =>
      if negb (SessionKey.truthy p) then "session-" ++ cryptoSuffix
      else if hasCryptoSuffix p then p
      else p ++ "-" ++ cryptoSuffix
  | None => "session-" ++ cryptoSuffix
  end.

Definition addReply (r : nat) (reply : Reply) (s : State) : State :=
  mkState (sessions s) (creating s) (prompting s) (replies s ++ [(r, reply)])
          (nextSession s).

(** The call [session.prompt(req.body.message)] of request [r]. *)
Definition startPrompt (r : nat) (sessionId : string) (session : nat)
           (s : State) : State :=
  mkState (sessions s) (creating s) (prompting s ++ [(r, sessionId, session)])
          (replies s) (nextSession s).

(** Arrival of request [r]. A cached session is returned by
    [getOrCreateSession] without a pending [await], and the handler goes on
    to call [prompt]; otherwise the request waits for the creation. *)
Definition chat (r : nat) (message : option string) (provided : option string)
           (cryptoSuffix : string) (s : State) : State :=
  match message with
  | Some (String _ _) =>
      let sessionId := computeSessionId provided cryptoSuffix in
      match sessions s !! sessionId with
      | Some session => startPrompt r sessionId session s
      | None =>
          mkState (sessions s) (creating s ++ [(r, sessionId)]) (prompting s)
                  (replies s) (nextSession s)
      end
  | _ => addReply r (BadRequest400 "message is required") s
  end.

Definition dropRequest {A} (r : nat) (l : list (nat * A)) : list (nat * A) :=
  List.filter (fun x => negb (fst x =? r)%nat) l.

Definition lookupRequest {A} (r : nat) (l : list (nat * A)) : option A :=
  snd <$> List.find (fun x => (fst x =? r)%nat) l.

(** [createAgentSession] settles for request [r]: on success
    [sessions.set(sessionId, newSession)] and the handler calls [prompt] on
    the new session; on failure the handler answers 500. *)
Definition sessionCreated (r : nat) (outcome : option string) (s : State)
  : State :=
  match lookupRequest r (creating s) with
  | None => s
  | Some sessionId =>
      let s1 := mkState (sessions s) (dropRequest r (creating s))
                        (prompting s) (replies s) (nextSession s) in
      match outcome with
      | Some errorMessage => addReply r (Error500 errorMessage) s1
      | None =>
          let newSession := nextSession s1 in
          startPrompt r sessionId newSession
            (mkState (<[sessionId := newSession]> (sessions s1)) (creating s1)
                     (prompting s1) (replies s1) (S newSession))
      end
  end.

(** The [prompt] call of request [r] settles: [inl text] is the last
    assistant text afterwards (absent text is answered as the empty
    string), [inr message] the error it rejected with. *)
Definition promptSettled (r : nat) (outcome : option string + string)
           (s : State) : State :=
  match List.find (fun x => (fst (fst x) =? r)%nat) (prompting s) with
  | None => s
  | Some (_, sessionId, _) =>
      let s1 := mkState (sessions s) (creating s)
                  (List.filter (fun x => negb (fst (fst x) =? r)%nat) (prompting s))
                  (replies s) (nextSession s) in
      match outcome with
      | inl text => addReply r (Ok200 (default "" text) sessionId) s1
      | inr errorMessage => addReply r (Error500 errorMessage) s1
      end
  end.

Inductive Event :=
| Chat (r : nat) (message provided : option string) (cryptoSuffix : string)
| SessionCreated (r : nat) (outcome : option string)
| PromptSettled (r : nat) (outcome : option string + string).

Definition step (s : State) (e : Event) : State :=
  match e with
  | Chat r message provided cryptoSuffix => chat r message provided cryptoSuffix s
  | SessionCreated r outcome => sessionCreated r outcome s
  | PromptSettled r outcome => promptSettled r outcome s
  end.

Definition run (events : list Event) (s : State) : State :=
  fold_left step events s.

(** The table [PROVIDER_ENV_VARS]. *)
Definition PROVIDER_ENV_VARS : list (string * string) :=
  [("openai", "OPENAI_API_KEY");
   ("anthropic", "ANTHROPIC_API_KEY");
   ("google", "GEMINI_API_KEY");
   ("groq", "GROQ_API_KEY");
   ("cerebras", "CEREBRAS_API_KEY");
   ("xai", "XAI_API_KEY");
   ("openrouter", "OPENROUTER_API_KEY");
   ("mistral", "MISTRAL_API_KEY")].

(** [PROVIDER_ENV_VARS[provider]], for a provider that is not the name of
    a member of [Object.prototype]. *)
Definition envVarOf (provider : string) : option string :=
  snd <$> List.find (fun kv => String.eqb (fst kv) provider) PROVIDER_ENV_VARS.

(** [readAndClearEnvApiKey(provider)] on the environment [env] of the
    process: the key it returns and the environment it leaves. *)
Definition readAndClearEnvApiKey (provider : string)
           (env : gmap string string) : option string * gmap string string :=
  match envVarOf provider with
  | None => (None, env)
  | Some envVar =>
      let apiKey := env !! envVar in
      match apiKey with
      | Some key =>
          if SessionKey.truthy key then (apiKey, delete envVar env)
          else (apiKey, env)
      | None => (apiKey, env)
      end
  end.

End AgentServer.

(** * Local backend: reconciliation with the data directory
      ([src/sdk/local-backend.ts], [loadExistingAgents]) *)
Module LocalBackend.

Inductive AgentStatus := running | stopped.

Record AgentInfo := mkInfo {
  id : string;
  status : AgentStatus;
  workspace : string;
  sessionDir : string;
  memoryDir : string;
  createdAt : option Z;
  port : option Z;
  pid : option Z
}.

(** What the properties [createdAt] and [port] of a parsed [meta.json]
    read as; a property that the value lacks is [None]. Both are taken
    to be integers where present, as the backend writes them
    ([createdAt: Date.now()], and the port found by
    [findAvailablePort]). *)
Record Meta := mkMeta {
  metaCreatedAt : option Z;
  metaPort : option Z
}.

(** What [JSON.parse] makes of a [meta.json]: [null], on which reading a
    property throws, or another value, on which it does not. *)
Inductive MetaJson :=
| MetaNull
| MetaValue (meta : Meta).

Record Dirent := mkDirent {
  name : string;
  isDirectory : bool
}.

(** What reconciliation observes and cannot change: the [meta.json] files
    that read and parse (by agent id), which pids answer signal 0, and which
    ports answer [GET /health] with an ok response. *)
Record World := mkWorld {
  metaFiles : gmap string MetaJson;
  alive : Z -> bool;
  healthy : Z -> bool
}.

(** The backend object together with the [server.pid] files on disk (by
    agent id, with their contents). *)
Record State := mkState {
  agents : gmap string AgentInfo;
  nextPort : Z;
  pidFiles : gmap string string
}.

Definition digitValue (c : ascii) : option Z :=
  let n := nat_of_ascii c in
  if ((48 <=? n) && (n <=? 57))%nat then Some (Z.of_nat (n - 48)) else None.

Fixpoint parseDigits (acc : option Z) (s : string) : option Z :=
  match s with
  | EmptyString => acc
  | String c s' =>
      match digitValue c with
      | Some d => parseDigits (Some (10 * default 0 acc + d)) s'
      | None => acc
      end
  end.

(** [parseInt(s, 10)]; [None] stands for [NaN]. *)
Definition parseInt (s : string) : option Z :=
  match SessionKey.trimStart s with
  | String "-" r => Z.opp <$> parseDigits None r
  | String "+" r => parseDigits None r
  | t => parseDigits None t
  end.

(** [process.kill(pid, 0)] returns (it throws for [NaN] and for a pid that
    does not answer). *)
Definition signalZero (w : World) (pid : option Z) : bool :=
  match pid with Some p => alive w p | None => false end.

(** The health request gets an ok response (it throws without a port). *)
Definition respondsOk (w : World) (port : option Z) : bool :=
  match port with Some p => healthy w p | None => false end.

Definition join (dir file : string) : string := dir ++ "/" ++ file.

(** The body of the loop of [loadExistingAgents] for one directory.
    When [meta.json] holds [null], the inner [try] throws either at the
    read of [server.pid] or, the file being there, at [meta.port], before
    any process is signalled: its [catch] unlinks the file; then
    [meta.createdAt] throws and the outer [catch] skips the agent. *)
Definition loadAgent (w : World) (agentsDir agentId : string) (s : State)
  : State :=
  match metaFiles w !! agentId with
  | None => s
  | Some MetaNull =>
      mkState (agents s) (nextPort s) (delete agentId (pidFiles s))
  | Some (MetaValue meta) =>
      let agentDir := join agentsDir agentId in
      let '(isRunning, pid, port, files) :=
        match pidFiles s !! agentId with
        | None => (false, None, None, delete agentId (pidFiles s))
        | Some pidStr =>
            let pid := parseInt pidStr in
            let port := metaPort meta in
            if signalZero w pid
            then (respondsOk w port, pid, port, pidFiles s)
            else (false, pid, port, delete agentId (pidFiles s))
        end in
      let info := mkInfo agentId
                         (if isRunning then running else stopped)
                         (join agentDir "workspace")
                         (join agentDir "sessions")
                         (join agentDir "memory")
                         (metaCreatedAt meta)
                         (if isRunning then port else None)
                         (if isRunning then pid else None) in
      let tracked :=
        match port with
        | Some p =>
            if isRunning && negb (p =? 0)
            then Z.max (nextPort s) (p + 1) else nextPort s
        | None => nextPort s
        end in
      mkState (<[agentId := info]> (agents s)) tracked files
  end.

Definition loadExistingAgents (w : World) (agentsDir : string)
           (entries : list Dirent) (s : State) : State :=
  fold_left
    (fun st entry =>
       if isDirectory entry then loadAgent w agentsDir (name entry) st else st)
    entries s.

(** [isPortInUse(port)]: the health request to the port gets an ok
    response. *)
Definition isPortInUse (w : World) (port : Z) : bool := healthy w port.

(** The loop of [findAvailablePort] from [this.nextPort = next]: the port
    found, or [None] for the rejection, and the value [this.nextPort] is
    left with. Each round raises [next] by one and the loop ends once it
    is above 65535, so that [Z.to_nat (65535 - next)] further rounds are
    enough ([fuel] counts them). *)
Fixpoint scanPorts (w : World) (fuel : nat) (next : Z) : option Z * Z :=
  let port := next in
  let next' := next + 1 in
  if negb (isPortInUse w port) then (Some port, next')
  else if 65535 <? next' then (None, next')
  else match fuel with
       | O => (None, next')
       | S fuel' => scanPorts w fuel' next'
       end.

(** [findAvailablePort()], as one link of the port lock. *)
Definition findAvailablePort (w : World) (s : State) : option Z * State :=
  let '(found, next) :=
    scanPorts w (Z.to_nat (65535 - nextPort s)) (nextPort s) in
  (found, mkState (agents s) next (pidFiles s)).

(** The ports of the agents known as running lie below [nextPort]. *)
Definition portsBelow (s : State) : Prop :=
  forall agentId info p,
    agents s !! agentId = Some info -> status info = running ->
    port info = Some p -> p < nextPort s.

(** The arguments [startAgentServer] gives to the server script. *)
Definition serverArgs (agentId : string) (port : Z)
           (dataDir provider model : string) : list string :=
  ["--id"; agentId; "--port"; SubagentManager.numberToString port;
   "--data-dir"; dataDir; "--provider"; provider; "--model"; model].

(** The body of the loop of [list()] for one record: a record marked
    running with a port (a number other than 0) is checked with a health
    request, and marked stopped, its port and pid cleared, when the
    request fails or the response is not ok. *)
Definition refreshed (w : World) (info : AgentInfo) : AgentInfo :=
  match status info, port info with
  | running, Some p =>
      if negb (p =? 0) && negb (healthy w p)
      then mkInfo (id info) stopped (workspace info) (sessionDir info)
                  (memoryDir info) (createdAt info) None None
      else info
  | _, _ => info
  end.

(** Agents whose record says running have a port that answers. *)
Definition answering (w : World) (s : State) : Prop :=
  forall agentId info,
    agents s !! agentId = Some info -> status info = running ->
    respondsOk w (port info) = true.

(** [list()]: every record is refreshed and stored back. The array
    returned holds the refreshed records in the order of the map; it is
    given here by agent id. *)
Definition list (w : World) (s : State) : gmap string AgentInfo * State :=
  let infos := refreshed w <$> agents s in
  (infos, mkState infos (nextPort s) (pidFiles s)).

End LocalBackend.

(** * Per-agent server: the command line ([src/sdk/agent-server.ts],
      [parseArgs]) *)
Module AgentServerArgs.

Record ServerConfig := mkConfig {
  id : string;
  port : Z;
  dataDir : string;
  provider : string;
  model : string
}.

(** The [Partial<ServerConfig>] filled by the loop. A field is absent
    until an argument sets it; [parseInt] gives the port [None] for
    [NaN]. *)
Record Config := mkPartial {
  configId : option string;
  configPort : option Z;
  configDataDir : option string;
  configProvider : option string;
  configModel : option string
}.

(** [s.replace(pattern, "")] for a string pattern: the first occurrence
    is taken out. *)
Definition replaceFirst (pattern s : string) : string :=
  let i := SessionKey.indexOf pattern s in
  if i <? 0 then s
  else SessionKey.slice s 0 i
       ++ SessionKey.sliceFrom s (i + Z.of_nat (String.length pattern)).

(** One round of the loop: the [switch] on the key, with the value that
    follows it ([None] when the arguments end with the key). *)
Definition setOption (arg : string) (value : option string) (config : Config)
  : Config :=
  let key := replaceFirst "--" arg in
  if String.eqb key "id" then
    mkPartial value (configPort config) (configDataDir config)
              (configProvider config) (configModel config)
  else if String.eqb key "port" then
    mkPartial (configId config) (value ≫= LocalBackend.parseInt)
              (configDataDir config) (configProvider config)
              (configModel config)
  else if String.eqb key "data-dir" then
    mkPartial (configId config) (configPort config) value
              (configProvider config) (configModel config)
  else if String.eqb key "provider" then
    mkPartial (configId config) (configPort config) (configDataDir config)
              value (configModel config)
  else if String.eqb key "model" then
    mkPartial (configId config) (configPort config) (configDataDir config)
              (configProvider config) value
  else config.

Fixpoint readPairs (args : list string) (config : Config) : Config :=
  match args with
  | [] => config
  | [arg] => setOption arg None config
  | arg :: value :: rest => readPairs rest (setOption arg (Some value) config)
  end.

(** [parseArgs()] on [process.argv.slice(2)]; [None] stands for
    [process.exit(1)]. *)
Definition parseArgs (args : list string) : option ServerConfig :=
  let config := readPairs args (mkPartial None None None None None) in
  match configId config, configPort config, configDataDir config with
  | Some i, Some p, Some d =>
      if negb (SessionKey.truthy i) || (p =? 0) || negb (SessionKey.truthy d)
      then None
      else Some (mkConfig i p d
                          (SubagentManager.orElse (configProvider config) "openai")
                          (SubagentManager.orElse (configModel config) "gpt-4o"))
  | _, _, _ => None
  end.

End AgentServerArgs.

(** * HTTP channel ([src/channels/http.ts])

    Requests to [POST /chat] are numbered; the resolver of the promise a
    request waits on is identified by the number of the request.
    [responses] records the resolver calls in the order they happen, each
    with the content it was called with; [refused] records the requests
    answered with status 400. *)
Module HttpChannel.

Record State := mkState {
  pending : gmap string nat;
  responses : list (nat * string);
  refused : list nat;
  bus : MessageBus.State
}.

Section Channel.
(** The number of the callback that [startHttp] subscribes. *)
Variable callback : nat.

Definition startHttp (b : MessageBus.State) : State :=
  mkState ∅ [] [] (MessageBus.subscribe "http" callback b).

(** The subscriber callback. *)
Definition onOutbound (msg : MessageBus.OutboundMessage) (s : State) : State :=
  mkState (delete (MessageBus.chatId msg) (pending s))
          match pending s !! MessageBus.chatId msg with
          | Some resolve => (responses s ++ [(resolve, MessageBus.content msg)])%list
          | None => responses s
          end
          (refused s) (bus s).

(** [bus.publishOutbound(msg)] on the bus of the channel: the bus calls
    the subscribers of the channel of [msg] in order, and each call of
    the channel's own callback runs [onOutbound]. *)
Definition busPublishOutbound (msg : MessageBus.OutboundMessage) (s : State) : State :=
  let callbacks :=
    default [] (MessageBus.subscribers (bus s) !! MessageBus.channel msg) in
  fold_left (fun st cb => if Nat.eqb cb callback then onOutbound msg st else st)
            callbacks
            (mkState (pending s) (responses s) (refused s)
                     (MessageBus.publishOutbound msg (bus s))).

(** The [/chat] handler up to its second [await]: request [r] with the
    body fields [message] and [session_id]; [uuid8] is
    [crypto.randomUUID().slice(0, 8)]. *)
Definition chat (r : nat) (message session_id : option string) (uuid8 : string)
           (s : State) : State :=
  match message with
  | Some m =>
      if SessionKey.truthy m then
        let chatId := SubagentManager.orElse session_id uuid8 in
        mkState (<[chatId := r]> (pending s)) (responses s) (refused s)
                (MessageBus.publishInbound
                   (MessageBus.mkInbound "http" chatId m None) (bus s))
      else mkState (pending s) (responses s) (refused s ++ [r])%list (bus s)
  | None => mkState (pending s) (responses s) (refused s ++ [r])%list (bus s)
  end.

(** What happens around the channel: a request arrives, an outbound
    message is published on the bus, the agent loop takes an inbound
    message. *)
Inductive Event :=
| Chat (r : nat) (message session_id : option string) (uuid8 : string)
| Outbound (msg : MessageBus.OutboundMessage)
| Consumed.

Definition step (s : State) (e : Event) : State :=
  match e with
  | Chat r message session_id uuid8 => chat r message session_id uuid8 s
  | Outbound msg => busPublishOutbound msg s
  | Consumed =>
      mkState (pending s) (responses s) (refused s)
              (snd (MessageBus.consumeInbound (bus s)))
  end.

Definition run (evs : list Event) (s : State) : State := fold_left step evs s.

(** The number of the request an event brings, if it brings one. *)
Definition requestOf (e : Event) : option nat :=
  match e with Chat r _ _ _ => Some r | _ => None end.

(** Whether an event concerns the chat [c]: a request accepted under
    that chat id, or an outbound message addressed to it on the http
    channel. *)
Definition concerns (c : string) (e : Event) : bool :=
  match e with
  | Chat _ (Some m) session_id uuid8 =>
      SessionKey.truthy m && String.eqb (SubagentManager.orElse session_id uuid8) c
  | Chat _ None _ _ => false
  | Outbound msg =>
      String.eqb (MessageBus.channel msg) "http" && String.eqb (MessageBus.chatId msg) c
  | Consumed => false
  end.

(** The callback is subscribed once, to the channel "http". *)
Definition listening (s : State) : Prop :=
  forall chan,
    filter (fun cb => Nat.eqb cb callback)
           (default [] (MessageBus.subscribers (bus s) !! chan))
    = if String.eqb chan "http" then [callback] else [].

(** A request is new to a state that holds no resolver of it and has
    recorded no response to it. *)
Definition newRequest (r : nat) (s : State) : Prop :=
  (forall k, pending s !! k <> Some r)
  /\ (forall content, ~ In (r, content) (responses s)).
End Channel.

End HttpChannel.

(** * Part II: scenarios *)

Definition inbound (text : string) : MessageBus.InboundMessage :=
  MessageBus.mkInbound "cli" "main" text None.

(** A bus that still queues one message and has no waiter. *)
Definition busWithBacklog : MessageBus.State :=
  MessageBus.publishInbound (inbound "old") MessageBus.empty.

(** Samples for the comparison of [JsNumber] with the machine: the numbers
    of the counterexamples below, zeros and infinities, the ends of the
    range of exact integers, and others taken at random. *)
Definition roundingSamples : list (Z * Z * Z * Z) :=
  [(600003, 1, 600003, 10);
   (11, 1, 600003, 10);
   (1790000000000, 1, 1, 16384);
   (1, 3, 1, 10);
   (9007199254740991, 1, 1, 2);
   (9007199254740991, 3, 4503599627370497, 7);
   (0, 1, 0, 1);
   (1, 0, -1, 0);
   (0, 0, 1, 1);
   (-7, 2, 0, 5);
   (1, 4503599627370496, 1, 4503599627370496);
   (9007199254740991, 1, 9007199254740991, 1);
   (1, 9007199254740991, 9007199254740991, 1);
   (2, 635, 492573193098035, 750501187553);
   (2, 333, 321, 1530493724433555);
   (249, 1, 251181196361, 42201);
   (-856, 1083548626827, 369834110483, 2080902475992277);
   (-6, 544654738809, -7534644117855213, 971785764332913);
   (6, 1028001125905, 670, 7);
   (955, 3, -248584284656, 2551186188043221);
   (1533051260, 434957, -150593149, 3850685299191063);
   (-6, 907529519699, -3, 565214);
   (-613401983379, 1012491, 546753, 3);
   (557865, 937, -2858688024357110, 965100309);
   (8779736890876, 489465018205, 5535316755818198, 491189515);
   (6, 884, -2138191611, 1887477626);
   (600052353846, 355728433, -4642177027655082, 7425332665644457);
   (259100127, 415, 889319615984, 7628615688973512);
   (-2, 312310, -1065404436793, 1);
   (-620459573349, 521214993883876, -1292089037516992, 590819);
   (1, 1797806733, 2009099880078365, 770164600311);
   (1647768083548794, 4326550988044628, 390661726667, 4)].

Definition lateClock (n : nat) : Z := if (n <? 3)%nat then 1000 else 1005.

Definition tickJob : CronService.CronJob :=
  CronService.mkJob "j" "tick" None true None 0 0
    (CronService.Every 1000 (Some 1%Q)) (CronService.SystemEvent "tick")
    (CronService.mkJobState None None None None None None).

Definition tickService : CronService.State :=
  CronService.mkState [tickJob] ∅ true None [] 0.

Definition reminderJob : CronService.CronJob :=
  CronService.mkJob "b" "reminder" None true (Some true) 0 0
    (CronService.At 500) (CronService.SystemEvent "once")
    (CronService.mkJobState (Some (CronService.Num 500)) None None None None None).

Definition reminderService : CronService.State :=
  CronService.mkState [reminderJob] {["b" := CronService.Num 0]} true None [] 0.

Definition researchSubagent : SubagentManager.Subagent :=
  SubagentManager.mkSubagent "ab12cd34" "survey the logs" (Some "logs")
    SubagentManager.Running 1000 None None None "subagent:main:ab12cd34"
    "cli" "main" None (Some false).

Definition finishedSubagent : SubagentManager.Subagent :=
  SubagentManager.mkSubagent "ef56ab78" "count files" None
    SubagentManager.Completed 1000 (Some 2000) (Some "12 files") None
    "subagent:main:ef56ab78" "cli" "main"
    (Some (SubagentManager.mkStats 1000 None None)) None.

Definition twoSubagents : SubagentManager.State :=
  SubagentManager.mkState
    (<["ab12cd34" := researchSubagent]> (<["ef56ab78" := finishedSubagent]> ∅))
    "cli" "main" MessageBus.empty.

Definition note (i : string) (sid : option string) : FileMemoryProvider.MemoryEntry :=
  FileMemoryProvider.mkEntry i 1000 ("note " ++ i) (1 # 2) None sid None.

Definition forSession (sid : string) : FileMemoryProvider.MemorySearchOptions :=
  FileMemoryProvider.mkOptions None None (Some sid) None None None.

Definition elevenNotes : list FileMemoryProvider.MemoryEntry :=
  List.map (fun i => note i None)
           ["m0"; "m1"; "m2"; "m3"; "m4"; "m5"; "m6"; "m7"; "m8"; "m9"; "m10"].

(** An agent whose process is alive but whose server does not answer. *)
Definition hungWorld : LocalBackend.World :=
  LocalBackend.mkWorld {["worker" := LocalBackend.MetaValue (LocalBackend.mkMeta (Some 1) (Some 9000))]}
                       (fun p => p =? 4242) (fun _ => false).

(** An agent whose recorded process is gone. *)
Definition deadWorld : LocalBackend.World :=
  LocalBackend.mkWorld {["worker" := LocalBackend.MetaValue (LocalBackend.mkMeta (Some 1) (Some 9000))]}
                       (fun _ => false) (fun _ => false).

Definition workerOnDisk : LocalBackend.State :=
  LocalBackend.mkState ∅ 9000 {["worker" := "4242"]}.

Definition workerListing : list LocalBackend.Dirent :=
  [LocalBackend.mkDirent "worker" true].

(** An agent whose server runs and answers, and whose [meta.json] holds
    [null]. *)
Definition nullMetaWorld : LocalBackend.World :=
  LocalBackend.mkWorld {["worker" := LocalBackend.MetaNull]}
                       (fun p => p =? 4242) (fun _ => true).

Definition hardenedId : string := "abc-1111111111111111".
Definition someSuffix : string := "0123456789abcdef".

(** One finished turn on [hardenedId], then two requests for it that arrive
    while no prompt has settled. *)
Definition twoTurnsAtOnce : list AgentServer.Event :=
  [AgentServer.Chat 0 (Some "My favorite number is 777.") (Some hardenedId) someSuffix;
   AgentServer.SessionCreated 0 None;
   AgentServer.PromptSettled 0 (inl (Some "Noted."));
   AgentServer.Chat 1 (Some "What is my favorite number?") (Some hardenedId) someSuffix;
   AgentServer.Chat 2 (Some "And twice that?") (Some hardenedId) someSuffix].

(** Two first requests for a new id, both arriving before a session exists. *)
Definition twoFirstTurns : list AgentServer.Event :=
  [AgentServer.Chat 1 (Some "one") (Some hardenedId) someSuffix;
   AgentServer.Chat 2 (Some "two") (Some hardenedId) someSuffix;
   AgentServer.SessionCreated 1 None;
   AgentServer.SessionCreated 2 None].

(** A manager for one session, with the session "a" installed. *)
Definition fullManager : SessionManager.State :=
  SessionManager.run
    [SessionManager.Call "a" 0; SessionManager.CreationSettled "a" true 1]
    (SessionManager.init 1).





(** An agent whose server runs and answers on port 9000. *)
Definition liveWorld : LocalBackend.World :=
  LocalBackend.mkWorld {["worker" := LocalBackend.MetaValue (LocalBackend.mkMeta (Some 1) (Some 9000))]}
                       (fun p => p =? 4242) (fun p => p =? 9000).

(** The HTTP channel started on a fresh bus, with callback number 7. *)
Definition freshChannel : HttpChannel.State :=
  HttpChannel.startHttp 7 MessageBus.empty.

(** An answer to the chat "alice", then one to the chat "bob". *)
Definition twoAnswers : list HttpChannel.Event :=
  [HttpChannel.Outbound (MessageBus.mkOutbound "http" "alice" "hello");
   HttpChannel.Consumed;
   HttpChannel.Chat 3 (Some "hey") (Some "bob") "0c1d2e3f";
   HttpChannel.Outbound (MessageBus.mkOutbound "http" "bob" "welcome")].

(** * Part III: properties *)

(** * Session keys: round trip *)
Section SessionKeyFacts.
Import SessionKey.

Lemma allowed_not_colon c : allowedChar c = true -> Ascii.eqb ":" c = false.
Proof. destruct c as [[] [] [] [] [] [] [] []]; vm_compute; congruence. Qed.

Lemma allowed_not_space c : allowedChar c = true -> isWhiteSpace c = false.
Proof. destruct c as [[] [] [] [] [] [] [] []]; vm_compute; congruence. Qed.

Lemma allowed_lower c : allowedChar c = true -> lowerChar c = c.
Proof. destruct c as [[] [] [] [] [] [] [] []]; vm_compute; congruence. Qed.

Lemma str_app_cons c (a b : string) : String c a ++ b = String c (a ++ b).
Proof. reflexivity. Qed.

Lemma str_app_nil (b : string) : "" ++ b = b.
Proof. reflexivity. Qed.

Lemma everyChar_app P a b :
  everyChar P (a ++ b) = everyChar P a && everyChar P b.
Proof.
  induction a as [|c a IH]; simpl; [reflexivity|].
  now rewrite IH, andb_assoc.
Qed.

Lemma everyChar_weaken (P Q : ascii -> bool) s :
  (forall c, P c = true -> Q c = true) ->
  everyChar P s = true -> everyChar Q s = true.
Proof.
  intros HPQ. induction s as [|c s IH]; simpl; [reflexivity|].
  intros [Hc Hs]%andb_prop. rewrite (HPQ _ Hc). simpl. auto.
Qed.

Lemma replaceDisallowed_allowed s :
  everyChar allowedChar (replaceDisallowed s) = true.
Proof.
  induction s as [|c s IH]; simpl; [reflexivity|].
  rewrite IH, andb_true_r.
  destruct (allowedChar c) eqn:E; [exact E | reflexivity].
Qed.

Lemma normalize_allowed v : everyChar allowedChar (normalize v) = true.
Proof. apply replaceDisallowed_allowed. Qed.

Lemma keyChar_not_space c : keyChar c = true -> isWhiteSpace c = false.
Proof. destruct c as [[] [] [] [] [] [] [] []]; vm_compute; congruence. Qed.

Lemma keyChar_lower c : keyChar c = true -> lowerChar c = c.
Proof. destruct c as [[] [] [] [] [] [] [] []]; vm_compute; congruence. Qed.

Lemma trimEnd_id s :
  everyChar (fun c => negb (isWhiteSpace c)) s = true -> trimEnd s = s.
Proof.
  induction s as [|c s IH]; simpl; [reflexivity|].
  intros [Hc Hs]%andb_prop. rewrite (IH Hs).
  apply negb_true_iff in Hc. rewrite Hc. now destruct s.
Qed.

Lemma trimStart_id s :
  everyChar (fun c => negb (isWhiteSpace c)) s = true -> trimStart s = s.
Proof.
  destruct s as [|c s]; simpl; [reflexivity|].
  intros [Hc _]%andb_prop. apply negb_true_iff in Hc. now rewrite Hc.
Qed.

Lemma trim_keyChars s : everyChar keyChar s = true -> trim s = s.
Proof.
  intros H. unfold trim.
  assert (Hw : everyChar (fun c => negb (isWhiteSpace c)) s = true).
  { revert H. apply everyChar_weaken. intros c Hc.
    now rewrite (keyChar_not_space c Hc). }
  now rewrite (trimStart_id s Hw), (trimEnd_id s Hw).
Qed.

Lemma toLowerCase_keyChars s : everyChar keyChar s = true -> toLowerCase s = s.
Proof.
  induction s as [|c s IH]; simpl; [reflexivity|].
  intros [Hc Hs]%andb_prop. now rewrite (keyChar_lower c Hc), (IH Hs).
Qed.

Lemma allowed_keyChars s :
  everyChar allowedChar s = true -> everyChar keyChar s = true.
Proof.
  apply everyChar_weaken. intros c Hc. unfold keyChar. now rewrite Hc.
Qed.

(** ** [indexOf] on strings without a separator *)

Lemma startsWith_colon_allowed n c s :
  allowedChar c = true -> startsWith (String ":" n) (String c s) = false.
Proof. intros Hc. cbn [startsWith]. now rewrite (allowed_not_colon c Hc). Qed.

Lemma indexOf_allowed n s :
  everyChar allowedChar s = true -> indexOf (String ":" n) s = -1.
Proof.
  induction s as [|c s IH]; [reflexivity|].
  intros [Hc Hs]%andb_prop.
  cbn [indexOf]. rewrite (startsWith_colon_allowed n c s Hc), (IH Hs).
  reflexivity.
Qed.

Lemma indexOf_ge m s : -1 <= indexOf m s.
Proof.
  induction s as [|b s IHs]; cbn [indexOf].
  - destruct (startsWith m ""); lia.
  - destruct (startsWith m (String b s)); [lia|].
    destruct (indexOf m s <? 0) eqn:E; [lia|].
    apply Z.ltb_ge in E. lia.
Qed.

Lemma indexOf_skip n a rest :
  everyChar allowedChar a = true ->
  indexOf (String ":" n) (a ++ rest) =
    (let r := indexOf (String ":" n) rest in
     if r <? 0 then -1 else Z.of_nat (String.length a) + r).
Proof.
  induction a as [|c a IH]; intros Ha.
  - change ("" ++ rest) with rest. cbv zeta.
    pose proof (indexOf_ge (String ":" n) rest) as Hge.
    destruct (indexOf (String ":" n) rest <? 0) eqn:E.
    + apply Z.ltb_lt in E. lia.
    + simpl. lia.
  - apply andb_prop in Ha as [Hc Ha].
    change (String c a ++ rest) with (String c (a ++ rest)).
    cbn [indexOf]. rewrite (startsWith_colon_allowed n c _ Hc), (IH Ha).
    cbv zeta. destruct (indexOf (String ":" n) rest <? 0) eqn:E.
    + reflexivity.
    + apply Z.ltb_ge in E.
      destruct (Z.of_nat (String.length a) + indexOf (String ":" n) rest <? 0) eqn:E'.
      * apply Z.ltb_lt in E'. lia.
      * simpl String.length. lia.
Qed.

Lemma indexOf_here n s :
  startsWith n s = true -> indexOf n s = 0.
Proof. intros H. destruct s; cbn [indexOf]; now rewrite H. Qed.

Lemma startsWith_self_app n s : startsWith n (n ++ s) = true.
Proof.
  induction n as [|c n IH]; [now destruct s|].
  rewrite ?str_app_cons, ?str_app_nil; cbn [startsWith]. now rewrite Ascii.eqb_refl.
Qed.

(** A prefix test against [u ++ ":"] on [h ++ ":" ++ w], where neither [u]
    nor [h] holds a separator, succeeds only when [u = h]. *)
Lemma startsWith_upto_colon u h w :
  everyChar allowedChar u = true ->
  everyChar allowedChar h = true ->
  startsWith (u ++ ":") (h ++ ":" ++ w) = true -> u = h.
Proof.
  revert h. induction u as [|a u IH]; intros [|b h] Hu Hh;
    rewrite ?str_app_cons, ?str_app_nil; cbn [startsWith].
  - reflexivity.
  - apply andb_prop in Hh as [Hb _].
    rewrite (allowed_not_colon b Hb). discriminate.
  - apply andb_prop in Hu as [Ha _].
    rewrite Ascii.eqb_sym, (allowed_not_colon a Ha). discriminate.
  - apply andb_prop in Hu as [_ Hu]. apply andb_prop in Hh as [_ Hh].
    intros [Hab Hrest]%andb_prop.
    apply Ascii.eqb_eq in Hab. subst b. f_equal. now apply IH.
Qed.

Lemma startsWith_upto_colon_end u h :
  everyChar allowedChar h = true ->
  startsWith (u ++ ":") h = false.
Proof.
  revert h. induction u as [|a u IH]; intros [|b h] Hh;
    rewrite ?str_app_cons, ?str_app_nil; cbn [startsWith]; try reflexivity.
  - apply andb_prop in Hh as [Hb _]. now rewrite (allowed_not_colon b Hb).
  - apply andb_prop in Hh as [_ Hh]. rewrite (IH h Hh). apply andb_false_r.
Qed.

(** ** [slice] on concatenations *)

Lemma substring_app_l a b :
  substring 0 (String.length a) (a ++ b) = a.
Proof. induction a as [|c a IH]; simpl; [now destruct b | now rewrite IH]. Qed.

Lemma substring_all s : substring 0 (String.length s) s = s.
Proof. induction s as [|c s IH]; simpl; [reflexivity | now rewrite IH]. Qed.

Lemma substring_app_r a b :
  substring (String.length a) (String.length b) (a ++ b) = b.
Proof. induction a as [|c a IH]; simpl; [apply substring_all | exact IH]. Qed.

Lemma strlen_app a b :
  String.length (a ++ b) = (String.length a + String.length b)%nat.
Proof. induction a as [|c a IH]; simpl; [reflexivity | now rewrite IH]. Qed.

Lemma slice_app_l a b :
  slice (a ++ b) 0 (Z.of_nat (String.length a)) = a.
Proof.
  unfold slice, clampIndex. rewrite strlen_app.
  replace (0 <? 0) with false by reflexivity.
  destruct (Z.of_nat (String.length a) <? 0) eqn:E; [apply Z.ltb_lt in E; lia|].
  rewrite Z.min_l by lia. rewrite Z.min_l by lia.
  replace (Z.to_nat 0) with 0%nat by reflexivity.
  replace (Z.to_nat (Z.max (Z.of_nat (String.length a) - 0) 0))
    with (String.length a) by lia.
  apply substring_app_l.
Qed.

Lemma sliceFrom_app_r a b :
  sliceFrom (a ++ b) (Z.of_nat (String.length a)) = b.
Proof.
  unfold sliceFrom, slice, clampIndex. rewrite strlen_app.
  destruct (Z.of_nat (String.length a) <? 0) eqn:E; [apply Z.ltb_lt in E; lia|].
  destruct (Z.of_nat (String.length a + String.length b) <? 0) eqn:E';
    [apply Z.ltb_lt in E'; lia|].
  rewrite Z.min_l by lia. rewrite Z.min_l by lia.
  replace (Z.to_nat (Z.of_nat (String.length a))) with (String.length a) by lia.
  replace (Z.to_nat (Z.max _ 0)) with (String.length b) by lia.
  apply substring_app_r.
Qed.

Lemma truthy_nonempty s : s <> "" -> truthy s = true.
Proof. now destruct s. Qed.

Lemma app_assoc_str (a b c : string) : (a ++ b) ++ c = a ++ (b ++ c).
Proof.
  induction a as [|x a IH]; [reflexivity|].
  now rewrite !str_app_cons, IH.
Qed.

Lemma sliceFrom_after_colon c h :
  sliceFrom (c ++ ":" ++ h) (Z.of_nat (String.length c) + 1) = h.
Proof.
  rewrite <- app_assoc_str.
  replace (Z.of_nat (String.length c) + 1)
    with (Z.of_nat (String.length (c ++ ":"))).
  - apply sliceFrom_app_r.
  - rewrite strlen_app. simpl String.length. lia.
Qed.

(** [parseBaseKey] splits [c ++ ":" ++ h] at the first separator. *)
Lemma parseBaseKey_build c h :
  everyChar allowedChar c = true ->
  c <> "" -> h <> "" ->
  parseBaseKey (c ++ ":" ++ h) = Some (c, h).
Proof.
  intros Hc Hcne Hhne. unfold parseBaseKey.
  rewrite (indexOf_skip "" c (":" ++ h) Hc).
  rewrite (indexOf_here ":" (":" ++ h)) by reflexivity.
  cbv zeta. replace (0 <? 0) with false by reflexivity.
  rewrite Z.add_0_r.
  destruct (Z.of_nat (String.length c) <=? 0) eqn:E.
  { apply Z.leb_le in E. destruct c; [congruence | simpl in E; lia]. }
  rewrite slice_app_l.
  rewrite sliceFrom_after_colon.
  now rewrite (truthy_nonempty c Hcne), (truthy_nonempty h Hhne).
Qed.

Lemma parseBaseKey_empty_channel h : parseBaseKey (":" ++ h) = None.
Proof. reflexivity. Qed.

Lemma parseBaseKey_empty_chat c :
  everyChar allowedChar c = true -> parseBaseKey (c ++ ":") = None.
Proof.
  intros Hc. unfold parseBaseKey.
  rewrite (indexOf_skip "" c ":" Hc).
  rewrite (indexOf_here ":" ":") by reflexivity.
  cbv zeta. replace (0 <? 0) with false by reflexivity. rewrite Z.add_0_r.
  destruct (Z.of_nat (String.length c) <=? 0); [reflexivity|].
  change (c ++ ":") with (c ++ ":" ++ "").
  rewrite (sliceFrom_after_colon c "").
  simpl. now rewrite orb_true_r.
Qed.

End SessionKeyFacts.

Section SessionKeyRoundTrip.
Import SessionKey.

Lemma built_key_plain c h :
  everyChar allowedChar c = true -> everyChar allowedChar h = true ->
  everyChar keyChar (c ++ ":" ++ h) = true.
Proof.
  intros Hc Hh. rewrite !everyChar_app.
  now rewrite (allowed_keyChars c Hc), (allowed_keyChars h Hh).
Qed.

Lemma startsWith_thread_end h :
  everyChar allowedChar h = true -> startsWith "thread:" h = false.
Proof. exact (startsWith_upto_colon_end "thread" h). Qed.

Lemma startsWith_thread_only h w :
  everyChar allowedChar h = true ->
  startsWith "thread:" (h ++ ":" ++ w) = true -> "thread" = h.
Proof. exact (startsWith_upto_colon "thread" h w eq_refl). Qed.

Lemma indexOf_at_colon n s :
  indexOf (String ":" n) (String ":" s)
  = if startsWith n s then 0
    else let r := indexOf (String ":" n) s in if r <? 0 then -1 else r + 1.
Proof.
  cbn [indexOf startsWith]. now rewrite Ascii.eqb_refl.
Qed.

Lemma indexOf_thread_plain c h :
  everyChar allowedChar c = true -> everyChar allowedChar h = true ->
  indexOf ":thread:" (c ++ ":" ++ h) = -1.
Proof.
  intros Hc Hh. rewrite (indexOf_skip "thread:" c (":" ++ h) Hc).
  change (":" ++ h) with (String ":" h).
  rewrite (indexOf_at_colon "thread:" h).
  rewrite (startsWith_thread_end h Hh).
  now rewrite (indexOf_allowed "thread:" h Hh).
Qed.

Lemma indexOf_thread_marked c h t :
  everyChar allowedChar c = true -> everyChar allowedChar h = true ->
  h <> "thread" ->
  indexOf ":thread:" (c ++ ":" ++ h ++ ":thread:" ++ t)
  = Z.of_nat (String.length (c ++ ":" ++ h)).
Proof.
  intros Hc Hh Hne.
  rewrite (indexOf_skip "thread:" c (":" ++ h ++ ":thread:" ++ t) Hc).
  change (":" ++ h ++ ":thread:" ++ t) with (String ":" (h ++ ":thread:" ++ t)).
  rewrite (indexOf_at_colon "thread:" (h ++ ":thread:" ++ t)).
  destruct (startsWith "thread:" (h ++ ":thread:" ++ t)) eqn:E.
  { exfalso. apply Hne. symmetry.
    apply (startsWith_thread_only h ("thread:" ++ t)); auto. }
  rewrite (indexOf_skip "thread:" h (":thread:" ++ t) Hh).
  rewrite (indexOf_here ":thread:" (":thread:" ++ t))
    by apply startsWith_self_app.
  cbv zeta. change (0 <? 0) with false. cbv iota.
  rewrite Z.add_0_r.
  destruct (Z.of_nat (String.length h) <? 0) eqn:E1;
    [apply Z.ltb_lt in E1; lia|].
  destruct (Z.of_nat (String.length h) + 1 <? 0) eqn:E2;
    [apply Z.ltb_lt in E2; lia|].
  rewrite !strlen_app. simpl String.length. lia.
Qed.

(** C3 (as amended). When the normalized channel and chat id are not empty,
    and the normalized chat id is not the word "thread" whenever a thread id
    is given, parsing a built key returns the componentwise normalization
    of the parts. *)
Theorem parse_build_roundtrip (p : SessionKeyParts) :
  normalize (channel p) <> "" ->
  normalize (chatId p) <> "" ->
  (forall t, threadId p = Some t -> truthy t = true ->
             normalize (chatId p) <> "thread") ->
  parseSessionKey (buildSessionKey p) = Some (normalizeParts p).
Proof.
  intros Hcne Hhne Hthread.
  destruct p as [ch ci th]. cbn [channel chatId threadId] in *.
  pose proof (normalize_allowed ch) as Hc.
  pose proof (normalize_allowed ci) as Hh.
  set (c := normalize ch) in *. set (h := normalize ci) in *.
  assert (Hplain : parseSessionKey (c ++ ":" ++ h)
                   = Some (mkParts c h None)).
  { unfold parseSessionKey.
    rewrite (trim_keyChars _ (built_key_plain c h Hc Hh)).
    rewrite (toLowerCase_keyChars _ (built_key_plain c h Hc Hh)).
    assert (Ht : truthy (c ++ ":" ++ h) = true) by (now destruct c).
    rewrite Ht. cbn [negb].
    rewrite (indexOf_thread_plain c h Hc Hh).
    change (0 <? -1) with false. cbv iota.
    now rewrite (parseBaseKey_build c h Hc Hcne Hhne). }
  unfold buildSessionKey, normalizeParts. cbn [channel chatId threadId].
  fold c. fold h.
  destruct th as [t|]; [|exact Hplain].
  destruct (truthy t) eqn:Et; [|exact Hplain].
  specialize (Hthread t eq_refl Et).
  pose proof (normalize_allowed t) as HT. set (T := normalize t) in *.
  assert (Hkey : (c ++ ":" ++ h) ++ ":thread:" ++ T
                 = c ++ ":" ++ h ++ ":thread:" ++ T).
  { now rewrite !app_assoc_str. }
  assert (Hall : everyChar keyChar ((c ++ ":" ++ h) ++ ":thread:" ++ T) = true).
  { rewrite everyChar_app, (built_key_plain c h Hc Hh).
    rewrite (everyChar_app _ ":thread:" T), (allowed_keyChars T HT).
    reflexivity. }
  unfold parseSessionKey.
  rewrite (trim_keyChars _ Hall), (toLowerCase_keyChars _ Hall).
  cbv zeta.
  assert (Ht : truthy ((c ++ ":" ++ h) ++ ":thread:" ++ T) = true)
    by (now destruct c).
  rewrite Ht. cbn [negb].
  assert (Hidx : indexOf ":thread:" ((c ++ ":" ++ h) ++ ":thread:" ++ T)
                 = Z.of_nat (String.length (c ++ ":" ++ h))).
  { rewrite Hkey. apply (indexOf_thread_marked c h T Hc Hh Hthread). }
  rewrite !Hidx.
  assert (Hpos : (0 <? Z.of_nat (String.length (c ++ ":" ++ h))) = true).
  { apply Z.ltb_lt. destruct c; [congruence|]. simpl String.length. lia. }
  rewrite Hpos. rewrite slice_app_l.
  rewrite (parseBaseKey_build c h Hc Hcne Hhne).
  assert (Hth : sliceFrom ((c ++ ":" ++ h) ++ ":thread:" ++ T)
                  (Z.of_nat (String.length (c ++ ":" ++ h)) + 8) = T).
  { rewrite <- (app_assoc_str (c ++ ":" ++ h) ":thread:" T).
    replace (Z.of_nat (String.length (c ++ ":" ++ h)) + 8)
      with (Z.of_nat (String.length ((c ++ ":" ++ h) ++ ":thread:"))).
    - apply sliceFrom_app_r.
    - rewrite (strlen_app (c ++ ":" ++ h) ":thread:").
      change (String.length ":thread:") with 8%nat. lia. }
  now rewrite Hth.
Qed.

Lemma parse_build_roundtrip_witness :
  parseSessionKey
    (buildSessionKey (mkParts " My Channel" "User@123" (Some "T 1")))
  = Some (mkParts "my-channel" "user-123" (Some "t-1")).
Proof.
  apply (parse_build_roundtrip (mkParts " My Channel" "User@123" (Some "T 1")));
    vm_compute; congruence.
Defined.

(** C3 as stated fails: a channel of one space is not empty but normalizes
    to the empty string, and a chat id "thread" together with a thread id
    makes the first ":thread:" marker start at the channel separator. *)
Lemma parse_build_roundtrip_fails :
  parseSessionKey (buildSessionKey (mkParts " " "b" None)) = None
  /\ normalizeParts (mkParts " " "b" None) = mkParts "" "b" None
  /\ parseSessionKey (buildSessionKey (mkParts "a" "thread" (Some "x"))) = None
  /\ normalizeParts (mkParts "a" "thread" (Some "x"))
     = mkParts "a" "thread" (Some "x").
Proof. repeat split; reflexivity. Qed.

End SessionKeyRoundTrip.

(** * Message bus: inbound FIFO and single delivery *)
Section BusFacts.
Import MessageBus.
Local Open Scope list_scope.

Lemma publishedBy_snoc cs c :
  publishedBy (cs ++ [c])
  = publishedBy cs ++ match c with Publish m => [m] | Consume => [] end.
Proof. unfold publishedBy. rewrite omap_app. now destruct c. Qed.

Lemma consumesIn_snoc cs c :
  consumesIn (cs ++ [c])
  = (consumesIn cs + match c with Publish _ => 0 | Consume => 1 end)%nat.
Proof.
  unfold consumesIn. rewrite omap_app, length_app. now destruct c.
Qed.

Lemma inboundInv_step cs s c :
  inboundInv cs s -> inboundInv (cs ++ [c]) (call s c).
Proof.
  intros (Hmsgs & Hcons & Hnext & Hone).
  unfold inboundInv. rewrite publishedBy_snoc, consumesIn_snoc.
  destruct c as [msg|]; cbn [call].
  - rewrite Nat.add_0_r, <- Hmsgs, <- Hcons.
    unfold publishInbound. destruct (resolvers s) as [|w ws] eqn:Er;
      cbn [settled queue resolvers nextPromise].
    + rewrite app_assoc. repeat split; auto.
    + destruct Hone as [Hq|?]; [|discriminate].
      rewrite Hq, !fmap_app, !app_nil_r. cbn.
      rewrite <- app_assoc. repeat split; auto.
  - rewrite seq_app, <- Hmsgs, <- Hcons, Nat.add_1_r.
    unfold consumeInbound. destruct (queue s) as [|m q] eqn:Eq;
      cbn [snd settled queue resolvers nextPromise].
    + rewrite Hnext, app_assoc, !app_nil_r. repeat split; auto.
    + destruct Hone as [?|Hr]; [discriminate|].
      rewrite Hr, !fmap_app, !app_nil_r, Hnext. cbn.
      rewrite <- app_assoc. repeat split; auto.
Qed.

Lemma inboundInv_calls cs : inboundInv cs (calls cs empty).
Proof.
  induction cs as [|c cs IH] using rev_ind.
  - repeat split. now left.
  - unfold calls. rewrite fold_left_app. cbn [fold_left].
    now apply inboundInv_step.
Qed.

Lemma calls_publish_all msgs s :
  resolvers s = [] ->
  calls (Publish <$> msgs) s
  = mkState (queue s ++ msgs) [] (subscribers s) (nextPromise s)
            (settled s) (notified s) (published s).
Proof.
  revert s. induction msgs as [|m msgs IH]; intros s Hr.
  - cbn. rewrite app_nil_r. destruct s; cbn in *; now subst.
  - cbn [fmap list_fmap calls fold_left call].
    change (fold_left call (Publish <$> msgs) (publishInbound m s))
      with (calls (Publish <$> msgs) (publishInbound m s)).
    unfold publishInbound at 1. rewrite Hr.
    rewrite IH by reflexivity. cbn. now rewrite <- app_assoc.
Qed.

Lemma calls_consume_all q s :
  queue s = q ->
  calls (replicate (length q) Consume) s
  = mkState [] (resolvers s) (subscribers s) (nextPromise s + length q)
            (settled s ++ zip (seq (nextPromise s) (length q)) q)
            (notified s) (published s).
Proof.
  revert s. induction q as [|m q IH]; intros s Hq.
  - cbn. rewrite app_nil_r, Nat.add_0_r. destruct s; cbn in *; now subst.
  - cbn [length replicate calls fold_left call].
    change (fold_left call (replicate (length q) Consume) (snd (consumeInbound s)))
      with (calls (replicate (length q) Consume) (snd (consumeInbound s))).
    unfold consumeInbound at 1. rewrite Hq. cbn [snd].
    rewrite IH by reflexivity. cbn. rewrite <- app_assoc.
    f_equal. lia.
Qed.

Lemma calls_consume_some n s :
  resolvers s = [] -> (n <= length (queue s))%nat ->
  calls (replicate n Consume) s
  = mkState (drop n (queue s)) [] (subscribers s) (nextPromise s + n)
            (settled s ++ zip (seq (nextPromise s) n) (take n (queue s)))
            (notified s) (published s).
Proof.
  revert s. induction n as [|n IH]; intros s Hr Hn.
  - cbn. rewrite app_nil_r, Nat.add_0_r. destruct s; cbn in *; now subst.
  - destruct (queue s) as [|m q] eqn:Eq; [cbn in Hn; lia|].
    cbn [replicate calls fold_left call].
    change (fold_left call (replicate n Consume) (snd (consumeInbound s)))
      with (calls (replicate n Consume) (snd (consumeInbound s))).
    unfold consumeInbound at 1. rewrite Eq. cbn [snd].
    rewrite IH; cbn [queue resolvers nextPromise settled subscribers
                     notified published]; [|exact Hr|cbn in Hn; lia].
    cbn. rewrite <- app_assoc. f_equal. lia.
Qed.

Lemma returnedBy_seq cs : forall s,
  returnedBy cs s = seq (nextPromise s) (consumesIn cs).
Proof.
  induction cs as [|[msg|] cs IH]; intros s; cbn [returnedBy].
  - reflexivity.
  - rewrite IH. unfold publishInbound. now destruct (resolvers s).
  - rewrite IH.
    change (consumesIn (Consume :: cs)) with (S (consumesIn cs)).
    unfold consumeInbound. now destruct (queue s).
Qed.

Lemma consumesIn_app cs cs' :
  consumesIn (cs ++ cs') = (consumesIn cs + consumesIn cs')%nat.
Proof. unfold consumesIn. now rewrite omap_app, length_app. Qed.

Lemma consumesIn_publish msgs : consumesIn (Publish <$> msgs) = 0%nat.
Proof. induction msgs as [|m msgs IH]; [reflexivity | exact IH]. Qed.

Lemma consumesIn_consume n : consumesIn (replicate n Consume) = n.
Proof.
  induction n as [|n IH]; [reflexivity|].
  change (consumesIn (replicate (S n) Consume))
    with (S (consumesIn (replicate n Consume))). now rewrite IH.
Qed.

(** In the pairing of the promises [a, a+1, ...] with the messages, the
    promise [a + i] finds the i-th message. *)
Lemma find_zip_seq (msgs : list InboundMessage) : forall a i m,
  msgs !! i = Some m ->
  List.find (fun pm => Nat.eqb (fst pm) (a + i)) (zip (seq a (length msgs)) msgs)
  = Some ((a + i)%nat, m).
Proof.
  induction msgs as [|m0 msgs IH]; intros a i m Hi; [discriminate|].
  cbn [length seq zip zip_with List.find fst].
  destruct i as [|i].
  - rewrite Nat.add_0_r, Nat.eqb_refl. cbn in Hi. congruence.
  - destruct (Nat.eqb a (a + S i)) eqn:E; [apply Nat.eqb_eq in E; lia|].
    cbn in Hi. rewrite <- Nat.add_succ_comm. now apply IH.
Qed.

(** C8. [publishInbound] hands the message to the head waiter when there is
    one and appends it to the queue otherwise. After any sequence of
    inbound calls on a fresh bus, the [consumeInbound] calls have returned
    the promises 0, 1, ... in call order, no promise twice; the messages
    received so far followed by the queued ones are the published
    messages in publication order, and the promises resolved so far
    followed by the waiting ones are the promises returned, in call
    order: every message went to exactly one consumer, the waiters stand
    in registration order, and the queue and the waiters are never both
    non-empty. Publishing [N] messages and then consuming [N] times makes
    the i-th call return a promise of its own that is resolved with the
    i-th message; on a bus that already queues messages and has no
    waiter, the [N] calls return [N] different promises, resolved with
    the [N] oldest messages in the order they were enqueued. *)
Theorem inbound_fifo_single_delivery :
  (forall s msg,
      match resolvers s with
      | w :: ws =>
          settled (publishInbound msg s) = settled s ++ [(w, msg)]
          /\ resolvers (publishInbound msg s) = ws
          /\ queue (publishInbound msg s) = queue s
      | [] =>
          queue (publishInbound msg s) = queue s ++ [msg]
          /\ settled (publishInbound msg s) = settled s
          /\ resolvers (publishInbound msg s) = []
      end)
  /\ (forall cs,
      let s := calls cs empty in
      returnedBy cs empty = seq 0 (consumesIn cs)
      /\ (settled s).*2 ++ queue s = publishedBy cs
      /\ (settled s).*1 ++ resolvers s = returnedBy cs empty
      /\ NoDup (returnedBy cs empty)
      /\ (queue s = [] \/ resolvers s = []))
  /\ (forall msgs,
      let cs := (Publish <$> msgs) ++ replicate (length msgs) Consume in
      let s := calls cs empty in
      settled s = zip (seq 0 (length msgs)) msgs
      /\ queue s = [] /\ resolvers s = []
      /\ length (returnedBy cs empty) = length msgs
      /\ NoDup (returnedBy cs empty)
      /\ (forall i m, msgs !! i = Some m ->
            exists p, returnedBy cs empty !! i = Some p
                      /\ promiseValue p s = Some m))
  /\ (forall s0 msgs,
      resolvers s0 = [] ->
      let cs := (Publish <$> msgs) ++ replicate (length msgs) Consume in
      let s := calls cs s0 in
      returnedBy cs s0 = seq (nextPromise s0) (length msgs)
      /\ settled s
         = settled s0 ++ zip (returnedBy cs s0)
                             (take (length msgs) (queue s0 ++ msgs))
      /\ queue s = drop (length msgs) (queue s0 ++ msgs)
      /\ resolvers s = []).
Proof.
  assert (Hret : forall msgs s0,
             returnedBy ((Publish <$> msgs) ++ replicate (length msgs) Consume) s0
             = seq (nextPromise s0) (length msgs)).
  { intros msgs s0.
    now rewrite returnedBy_seq, consumesIn_app, consumesIn_publish,
      consumesIn_consume. }
  split; [|split; [|split]].
  - intros s msg. unfold publishInbound.
    destruct (resolvers s) as [|w ws] eqn:Er; cbn; rewrite ?Er; auto.
  - intros cs. cbv zeta.
    destruct (inboundInv_calls cs) as (Hmsgs & Hcons & _ & Hone).
    rewrite returnedBy_seq. cbn [nextPromise empty].
    repeat split; try assumption. apply NoDup_seq.
  - intros msgs. cbv zeta. rewrite Hret. cbn [nextPromise empty].
    unfold calls. rewrite fold_left_app.
    change (fold_left call (Publish <$> msgs) empty)
      with (calls (Publish <$> msgs) empty).
    rewrite (calls_publish_all msgs empty eq_refl). cbn [queue empty app].
    match goal with
    | |- context [fold_left call ?cs ?s0] =>
        change (fold_left call cs s0) with (calls cs s0)
    end.
    rewrite (calls_consume_all msgs) by reflexivity.
    cbn [settled queue resolvers nextPromise app].
    split; [reflexivity|]. split; [reflexivity|]. split; [reflexivity|].
    split; [apply length_seq|]. split; [apply NoDup_seq|].
    intros i m Hi. exists i. split.
    + apply lookup_seq. split; [reflexivity|]. now apply lookup_lt_Some in Hi.
    + unfold promiseValue. cbn [settled].
      pose proof (find_zip_seq msgs 0 i m Hi) as Hf. cbn [Nat.add] in Hf.
      change (snd <$> List.find (fun pm => Nat.eqb (fst pm) i)
                                (zip (seq 0 (length msgs)) msgs) = Some m).
      now rewrite Hf.
  - intros s0 msgs Hr. cbv zeta. rewrite Hret.
    unfold calls. rewrite fold_left_app.
    change (fold_left call (Publish <$> msgs) s0)
      with (calls (Publish <$> msgs) s0).
    rewrite (calls_publish_all msgs s0 Hr).
    match goal with
    | |- context [fold_left call ?cs ?s1] =>
        change (fold_left call cs s1) with (calls cs s1)
    end.
    rewrite calls_consume_some; cbn [queue resolvers nextPromise settled];
      [auto | reflexivity | rewrite length_app; lia].
Qed.

End BusFacts.

Lemma inbound_fifo_single_delivery_witness :
  MessageBus.settled
    (MessageBus.calls
       [MessageBus.Publish (inbound "a"); MessageBus.Publish (inbound "b");
        MessageBus.Consume; MessageBus.Consume] busWithBacklog)
  = [(0%nat, inbound "old"); (1%nat, inbound "a")].
Proof.
  destruct inbound_fifo_single_delivery as (_ & _ & _ & Hbacklog).
  destruct (Hbacklog busWithBacklog [inbound "a"; inbound "b"] eq_refl)
    as (_ & Hsettled & _).
  exact Hsettled.
Defined.

(** * Memory search: session scope *)
Section MemorySearch.
Import FileMemoryProvider.
Local Open Scope list_scope.
Variable scoreOf : MemorySearchOptions -> Z -> MemoryEntry -> Q.

Lemma insertByScore_perm r l : Permutation (insertByScore r l) (r :: l).
Proof.
  induction l as [|x l IH]; cbn [insertByScore]; [reflexivity|].
  destruct (Qle_bool (score x) (score r)); [reflexivity|].
  rewrite IH. apply perm_swap.
Qed.

Lemma sortByScore_perm l : Permutation (sortByScore l) l.
Proof.
  induction l as [|r l IH]; cbn [sortByScore]; [reflexivity|].
  rewrite insertByScore_perm. now apply perm_skip.
Qed.

(** Not ranked below: the score of [b] is at most that of [a]. *)
Let byScore (a b : MemorySearchResult) : Prop := (score b <= score a)%Q.

Lemma insertByScore_sorted r l :
  StronglySorted byScore l -> StronglySorted byScore (insertByScore r l).
Proof.
  induction l as [|x l IH]; cbn [insertByScore]; intros Hs.
  - constructor; [constructor | constructor].
  - apply StronglySorted_inv in Hs as [Hl Hx].
    destruct (Qle_bool (score x) (score r)) eqn:E.
    + apply Qle_bool_iff in E.
      constructor; [constructor; assumption|].
      constructor; [exact E|].
      eapply List.Forall_impl; [|exact Hx].
      intros y Hy. unfold byScore in *. now apply (Qle_trans _ (score x)).
    + assert (Hlt : (score r < score x)%Q).
      { apply Qnot_le_lt. intros H. apply Qle_bool_iff in H. congruence. }
      constructor; [now apply IH|].
      apply List.Forall_forall. intros y Hy.
      apply (Permutation_in _ (insertByScore_perm r l)) in Hy.
      destruct Hy as [<-|Hy].
      * now apply Qlt_le_weak.
      * rewrite List.Forall_forall in Hx. now apply Hx.
Qed.

Lemma sortByScore_sorted l : StronglySorted byScore (sortByScore l).
Proof.
  induction l as [|r l IH]; cbn [sortByScore]; [constructor|].
  now apply insertByScore_sorted.
Qed.

Lemma sorted_app_inv {A} (R : A -> A -> Prop) (l1 l2 : Datatypes.list A) :
  StronglySorted R (l1 ++ l2) ->
  StronglySorted R l1 /\ forall x y, In x l1 -> In y l2 -> R x y.
Proof.
  induction l1 as [|a l1 IH]; cbn [app]; intros Hs.
  - split; [constructor | intros x y []].
  - apply StronglySorted_inv in Hs as [Hl Ha].
    destruct (IH Hl) as [Hs1 Hx]. split.
    + constructor; [exact Hs1|]. rewrite List.Forall_forall in *.
      intros y Hy. apply Ha. apply in_or_app. now left.
    + intros x y [<-|Hx1] Hy.
      * rewrite List.Forall_forall in Ha. apply Ha. apply in_or_app. now right.
      * now apply Hx.
Qed.

Lemma search_sorted opts now entries :
  StronglySorted byScore (search scoreOf opts now entries).
Proof.
  unfold search, sliceTo.
  set (l := sortByScore (scored scoreOf opts now entries)).
  set (k := Z.to_nat _).
  pose proof (sortByScore_sorted (scored scoreOf opts now entries)) as Hs.
  fold l in Hs. rewrite <- (firstn_skipn k l) in Hs.
  exact (proj1 (sorted_app_inv byScore _ _ Hs)).
Qed.

Lemma sliceTo_In {A} (k : Z) (l : Datatypes.list A) x :
  In x (sliceTo k l) -> In x l.
Proof.
  unfold sliceTo. intros H.
  rewrite <- (firstn_skipn (Z.to_nat (if k <? 0 then Z.max (Z.of_nat (length l) + k) 0
                                      else Z.min k (Z.of_nat (length l)))) l).
  apply in_or_app. now left.
Qed.

Lemma sliceTo_all {A} (k : Z) (l : Datatypes.list A) :
  Z.of_nat (length l) <= k -> sliceTo k l = l.
Proof.
  intros H. unfold sliceTo.
  destruct (k <? 0) eqn:E; [apply Z.ltb_lt in E; lia|].
  rewrite Z.min_r by lia. rewrite Nat2Z.id. apply firstn_all.
Qed.

Lemma sliceTo_length {A} (k : Z) (l : Datatypes.list A) :
  0 <= k -> (length (sliceTo k l) <= Z.to_nat k)%nat.
Proof.
  intros H. unfold sliceTo.
  destruct (k <? 0) eqn:E; [apply Z.ltb_lt in E; lia|].
  rewrite length_firstn. lia.
Qed.

Lemma sessionFilter_In opts entries sid e :
  searchSessionId opts = Some sid -> sid <> "" ->
  In e (sessionFilter opts entries) <->
  In e entries
  /\ (sessionId e = None \/ sessionId e = Some "" \/ sessionId e = Some sid).
Proof.
  intros Hsid Hne. unfold sessionFilter. rewrite Hsid.
  destruct sid as [|c sid]; [congruence|]. cbn [SessionKey.truthy].
  rewrite filter_In. apply and_iff_compat_l.
  destruct (sessionId e) as [s|]; [|cbn; tauto].
  unfold truthyOpt, sameSession.
  destruct s as [|c' s]; [cbn; tauto|]. cbn [SessionKey.truthy negb orb].
  destruct (String.eqb_spec (String c' s) (String c sid)) as [->|Hn].
  - tauto.
  - split; [discriminate|]. intros [?|[?|?]]; congruence.
Qed.

Lemma sessionFilter_unscoped opts entries :
  searchSessionId opts = None \/ searchSessionId opts = Some "" ->
  sessionFilter opts entries = entries.
Proof. unfold sessionFilter. now intros [-> | ->]. Qed.

Lemma search_sound opts now entries r :
  In r (search scoreOf opts now entries) ->
  In (entry r) (tagFilter opts (sessionFilter opts entries))
  /\ score r = scoreOf opts now (entry r)
  /\ Qle_bool (default 0%Q (minScore opts)) (score r) = true.
Proof.
  unfold search. intros H%sliceTo_In.
  apply (Permutation_in _ (sortByScore_perm _)) in H.
  unfold scored in H. apply filter_In in H as [H Hmin].
  apply in_map_iff in H as (e & <- & He). now cbn.
Qed.

Lemma search_complete opts now entries e :
  In e (tagFilter opts (sessionFilter opts entries)) ->
  Qle_bool (default 0%Q (minScore opts)) (scoreOf opts now e) = true ->
  Z.of_nat (length (scored scoreOf opts now entries))
    <= default 10 (maxResults opts) ->
  In (mkResult e (scoreOf opts now e)) (search scoreOf opts now entries).
Proof.
  intros He Hmin Hfit. unfold search. rewrite sliceTo_all.
  - apply (Permutation_in _ (Permutation_sym (sortByScore_perm _))).
    unfold scored. apply filter_In. split; [|exact Hmin].
    apply in_map_iff. now exists e.
  - rewrite (Permutation_length (sortByScore_perm _)). exact Hfit.
Qed.

Lemma search_length opts now entries :
  0 <= default 10 (maxResults opts) ->
  (length (search scoreOf opts now entries)
   <= Z.to_nat (default 10%Z (maxResults opts)))%nat.
Proof. intros H. unfold search. now apply sliceTo_length. Qed.

(** C6 (as amended). With a non-empty [sessionId] in the options, the
    candidate set keeps exactly the entries whose own [sessionId] is
    absent, empty, or equal to the given one; so an entry private to a
    non-empty session [s] is a candidate of a search for [s'] iff
    [s' = s]. With no [sessionId], or an empty one, every entry is a
    candidate. [search] returns only candidates that pass the tag filter
    and reach [minScore], sorted by descending score, at most
    [maxResults] of them; it returns every such candidate when no more
    than [maxResults] qualify. *)
Theorem search_session_scope
    (opts : MemorySearchOptions) (now : Z) (entries : Datatypes.list MemoryEntry) :
  (forall sid, searchSessionId opts = Some sid -> sid <> "" ->
     forall e, In e (sessionFilter opts entries) <->
               In e entries
               /\ (sessionId e = None \/ sessionId e = Some ""
                   \/ sessionId e = Some sid))
  /\ (forall sid s e, searchSessionId opts = Some sid -> sid <> "" ->
        In e entries -> sessionId e = Some s -> s <> "" ->
        (In e (sessionFilter opts entries) <-> sid = s))
  /\ (searchSessionId opts = None \/ searchSessionId opts = Some "" ->
      sessionFilter opts entries = entries)
  /\ (forall r, In r (search scoreOf opts now entries) ->
        In (entry r) (tagFilter opts (sessionFilter opts entries))
        /\ score r = scoreOf opts now (entry r)
        /\ Qle_bool (default 0%Q (minScore opts)) (score r) = true)
  /\ StronglySorted (fun a b => (score b <= score a)%Q)
                    (search scoreOf opts now entries)
  /\ (0 <= default 10 (maxResults opts) ->
      (length (search scoreOf opts now entries)
       <= Z.to_nat (default 10%Z (maxResults opts)))%nat)
  /\ (forall e,
        In e (tagFilter opts (sessionFilter opts entries)) ->
        Qle_bool (default 0%Q (minScore opts)) (scoreOf opts now e) = true ->
        Z.of_nat (length (scored scoreOf opts now entries))
          <= default 10 (maxResults opts) ->
        In (mkResult e (scoreOf opts now e)) (search scoreOf opts now entries)).
Proof.
  split; [|split; [|split; [|split; [|split; [|split]]]]].
  - intros sid Hsid Hne e. now apply sessionFilter_In.
  - intros sid s e Hsid Hne He Hs Hsne.
    rewrite (sessionFilter_In opts entries sid e Hsid Hne), Hs.
    split.
    + intros [_ [?|[?|?]]]; congruence.
    + intros ->. auto.
  - apply sessionFilter_unscoped.
  - intros r. apply search_sound.
  - apply search_sorted.
  - apply search_length.
  - intros e. apply search_complete.
Qed.

End MemorySearch.

Section MemoryScenarios.
Import FileMemoryProvider.
Local Open Scope list_scope.

Lemma fewer_leaves_one_out (l l' : Datatypes.list string) :
  List.NoDup l -> (length l' < length l)%nat -> exists x, In x l /\ ~ In x l'.
Proof.
  intros Hnd Hlen.
  destruct (List.Exists_dec (fun x => ~ In x l') l) as [Hex|Hall].
  - intros x. destruct (in_dec string_dec x l'); [right|left]; tauto.
  - apply List.Exists_exists in Hex. exact Hex.
  - exfalso. assert (Hincl : incl l l').
    { intros x Hx. destruct (in_dec string_dec x l') as [|Hn]; [assumption|].
      exfalso. apply Hall. apply List.Exists_exists. eauto. }
    pose proof (NoDup_incl_length Hnd Hincl). lia.
Qed.

Lemma search_session_scope_witness :
  In (note "g" None)
     (sessionFilter (forSession "s") [note "g" None; note "p" (Some "t")])
  /\ ~ In (note "p" (Some "t"))
       (sessionFilter (forSession "s") [note "g" None; note "p" (Some "t")]).
Proof.
  destruct (search_session_scope (fun _ _ _ => 1%Q) (forSession "s") 0
              [note "g" None; note "p" (Some "t")]) as (Hin & Hiff & _).
  split.
  - apply (Hin "s" eq_refl); [discriminate|]. split; [now left | now left].
  - intros H.
    apply (Hiff "s" "t" (note "p" (Some "t")) eq_refl) in H;
      [discriminate | discriminate | now right; left | reflexivity | discriminate].
Defined.

(** C6 as stated fails in three ways. An entry whose [sessionId] is the
    empty string is present and different from "s", yet a search for "s"
    keeps it. A search that supplies the empty string as [sessionId] keeps
    an entry private to session "s". And with eleven global entries and the
    default [maxResults] of 10, whatever the scores are, some global entry
    that passes the filters is not returned. *)
Lemma search_scope_as_stated_fails :
  sessionFilter (forSession "s") [note "e" (Some "")] = [note "e" (Some "")]
  /\ sessionFilter (forSession "") [note "p" (Some "s")] = [note "p" (Some "s")]
  /\ (forall scoreOf now, exists e,
        In e (tagFilter (forSession "s") (sessionFilter (forSession "s") elevenNotes))
        /\ sessionId e = None
        /\ ~ In e (List.map entry (search scoreOf (forSession "s") now elevenNotes))).
Proof.
  split; [reflexivity|]. split; [reflexivity|].
  intros scoreOf now.
  set (results := search scoreOf (forSession "s") now elevenNotes).
  destruct (fewer_leaves_one_out (List.map id elevenNotes)
              (List.map id (List.map entry results))) as (i & Hi & Hout).
  - vm_compute. repeat constructor; cbn; intuition discriminate.
  - rewrite !length_map.
    assert (Hlen : (length results <= Z.to_nat 10)%nat).
    { apply (search_length scoreOf (forSession "s") now elevenNotes).
      cbn. lia. }
    change (length elevenNotes) with 11%nat. lia.
  - apply in_map_iff in Hi as (e & <- & He). exists e.
    split; [exact He|]. split.
    + revert He. clear. intros He.
      repeat (destruct He as [<-|He]; [reflexivity|]). destruct He.
    + intros Hin. apply Hout. now apply in_map.
Qed.

End MemoryScenarios.

(** * Session manager: single flight *)
Section SingleFlight.
Import SessionManager.
Local Open Scope list_scope.

Lemma closeSessionBegin_frame key s :
  sessions (closeSessionBegin key s) = sessions s
  /\ pendingCreations (closeSessionBegin key s) = pendingCreations s
  /\ nextPromise (closeSessionBegin key s) = nextPromise s
  /\ maxSessions (closeSessionBegin key s) = maxSessions s.
Proof. unfold closeSessionBegin. now destruct (sessions s !! key). Qed.

Lemma evictOldest_frame s :
  sessions (evictOldest s) = sessions s
  /\ pendingCreations (evictOldest s) = pendingCreations s
  /\ nextPromise (evictOldest s) = nextPromise s
  /\ maxSessions (evictOldest s) = maxSessions s.
Proof.
  unfold evictOldest. destruct (oldestKey (entries s)) as [k|]; [|auto].
  destruct (SessionKey.truthy k); [apply closeSessionBegin_frame | auto].
Qed.

Lemma getOrCreateByKey_existing key now s m :
  sessions s !! key = Some m ->
  getOrCreateByKey key now s
  = (Returns (session m),
     mkState (<[key := mkManaged (session m) (createdAt m) now]> (sessions s))
             (order s) (pendingCreations s) (closing s) (nextPromise s)
             (maxSessions s)).
Proof. intros H. unfold getOrCreateByKey. now rewrite H. Qed.

Lemma getOrCreateByKey_pending key now s c :
  sessions s !! key = None -> pendingCreations s !! key = Some c ->
  getOrCreateByKey key now s = (AwaitsPending c, s).
Proof. intros H1 H2. unfold getOrCreateByKey. now rewrite H1, H2. Qed.

Lemma getOrCreateByKey_create key now s :
  sessions s !! key = None -> pendingCreations s !! key = None ->
  exists ord cl,
    getOrCreateByKey key now s
    = (AwaitsCreation (nextPromise s),
       mkState (sessions s) ord (<[key := nextPromise s]> (pendingCreations s))
               cl (S (nextPromise s)) (maxSessions s)).
Proof.
  intros H1 H2. unfold getOrCreateByKey. rewrite H1, H2.
  destruct (maxSessions s <=? size (sessions s))%nat.
  - destruct (evictOldest_frame s) as (-> & -> & -> & ->). eauto.
  - eauto.
Qed.

Lemma singleFlightInv_step s e :
  singleFlightInv s -> singleFlightInv (step s e).
Proof.
  intros (Hone & Hpend & Hsess).
  destruct e as [key now|key ok now|key|key]; cbn [step].
  - destruct (sessions s !! key) as [m|] eqn:Es.
    + rewrite (getOrCreateByKey_existing key now s m Es). cbn [snd].
      (split; [|split]); cbn [sessions pendingCreations nextPromise].
      * intros k Hk. destruct (decide (k = key)) as [->|Hne].
        -- rewrite (Hone key Hk) in Es. discriminate.
        -- rewrite lookup_insert_ne by auto. auto.
      * exact Hpend.
      * intros k m'. destruct (decide (k = key)) as [->|Hne].
        -- rewrite lookup_insert_eq. intros [= <-]. cbn. eauto.
        -- rewrite lookup_insert_ne by auto. eauto.
    + destruct (pendingCreations s !! key) as [c|] eqn:Ep.
      * rewrite (getOrCreateByKey_pending key now s c Es Ep). cbn [snd].
        (split; [|split]); assumption.
      * destruct (getOrCreateByKey_create key now s Es Ep) as (ord & cl & ->).
        cbn [snd]. (split; [|split]); cbn [sessions pendingCreations nextPromise].
        -- intros k. destruct (decide (k = key)) as [->|Hne]; [auto|].
           rewrite lookup_insert_ne by auto. auto.
        -- intros k c. destruct (decide (k = key)) as [->|Hne].
           ++ rewrite lookup_insert_eq. intros [= <-]. lia.
           ++ rewrite lookup_insert_ne by auto. intros H%Hpend. lia.
        -- intros k m H%Hsess. lia.
  - unfold creationSettled.
    destruct (pendingCreations s !! key) as [c|] eqn:Ep;
      [|(split; [|split]); assumption].
    set (s1 := if ok then setSession key (mkManaged c now now) s else s).
    assert (Hp1 : pendingCreations s1 = pendingCreations s)
      by (subst s1; now destruct ok).
    assert (Hn1 : nextPromise s1 = nextPromise s)
      by (subst s1; now destruct ok).
    assert (Hs1 : forall k, k <> key -> sessions s1 !! k = sessions s !! k).
    { intros k Hne. subst s1. destruct ok; [|reflexivity].
      cbn [setSession sessions]. now rewrite lookup_insert_ne. }
    assert (Hs2 : forall m, sessions s1 !! key = Some m ->
                            (session m < nextPromise s)%nat).
    { intros m. subst s1. destruct ok; cbn [setSession sessions]; [|eauto].
      rewrite lookup_insert_eq. intros [= <-]. cbn. eauto. }
    (split; [|split]); cbn [sessions pendingCreations nextPromise];
      rewrite ?Hp1, ?Hn1.
    + intros k. destruct (decide (k = key)) as [->|Hne].
      * rewrite lookup_delete_eq. intros [? ?]. discriminate.
      * rewrite lookup_delete_ne, Hs1 by auto. auto.
    + intros k c'. destruct (decide (k = key)) as [->|Hne].
      * rewrite lookup_delete_eq. discriminate.
      * rewrite lookup_delete_ne by auto. eauto.
    + intros k m. destruct (decide (k = key)) as [->|Hne]; [apply Hs2|].
      rewrite Hs1 by auto. eauto.
  - destruct (closeSessionBegin_frame key s) as (E1 & E2 & E3 & _).
    unfold singleFlightInv. rewrite E1, E2, E3. (split; [|split]); assumption.
  - unfold closeSessionEnd. destruct (removeFirst key (closing s));
      [|(split; [|split]); assumption].
    (split; [|split]);
      cbn [sessions pendingCreations nextPromise deleteSession].
    + intros k Hk. destruct (decide (k = key)) as [->|Hne].
      * apply lookup_delete_eq.
      * rewrite lookup_delete_ne by auto. auto.
    + exact Hpend.
    + intros k m. destruct (decide (k = key)) as [->|Hne].
      * rewrite lookup_delete_eq. discriminate.
      * rewrite lookup_delete_ne by auto. eauto.
Qed.

Lemma singleFlightInv_run events s :
  singleFlightInv s -> singleFlightInv (run events s).
Proof.
  revert s. induction events as [|e events IH]; intros s Hs; [exact Hs|].
  cbn [run fold_left]. apply IH. now apply singleFlightInv_step.
Qed.

Lemma singleFlightInv_init n : singleFlightInv (init n).
Proof.
  (split; [|split]); cbn [init sessions pendingCreations nextPromise].
  - intros k [c Hc]. now rewrite lookup_empty in Hc.
  - intros k c Hc. now rewrite lookup_empty in Hc.
  - intros k m Hm. now rewrite lookup_empty in Hm.
Qed.

(** C5. In every state the manager reaches, it holds at most one session
    object per key, installed or under construction. A call for a key whose
    creation is in flight changes nothing and waits for the promise in the
    pending map; a call for an installed key returns the installed object
    and starts no creation; a creation is started only for a key with
    neither, under a new number; and when the pending creation settles
    successfully its object is installed under a key that had no session. *)
Theorem single_flight_per_key (maxN : nat) (events : Datatypes.list Event) :
  let s := run events (init maxN) in
  (forall key, (length (heldFor key s) <= 1)%nat)
  /\ (forall key now c, pendingCreations s !! key = Some c ->
        getOrCreateByKey key now s = (AwaitsPending c, s))
  /\ (forall key now m, sessions s !! key = Some m ->
        fst (getOrCreateByKey key now s) = Returns (session m)
        /\ pendingCreations (snd (getOrCreateByKey key now s))
           = pendingCreations s
        /\ nextPromise (snd (getOrCreateByKey key now s)) = nextPromise s)
  /\ (forall key now c,
        fst (getOrCreateByKey key now s) = AwaitsCreation c ->
        sessions s !! key = None /\ pendingCreations s !! key = None
        /\ pendingCreations (snd (getOrCreateByKey key now s)) !! key = Some c
        /\ forall k, c ∉ heldFor k s)
  /\ (forall key now c, pendingCreations s !! key = Some c ->
        sessions s !! key = None
        /\ heldFor key (creationSettled key true now s) = [c]
        /\ heldFor key (creationSettled key false now s) = []).
Proof.
  cbv zeta. set (s := run events (init maxN)).
  assert (Hinv : singleFlightInv s)
    by apply singleFlightInv_run, singleFlightInv_init.
  destruct Hinv as (Hone & Hpend & Hsess).
  split; [|split; [|split; [|split]]].
  - intros key. unfold heldFor.
    destruct (pendingCreations s !! key) as [c|] eqn:Ep.
    + rewrite (Hone key) by eauto. cbn. lia.
    + destruct (sessions s !! key); cbn; lia.
  - intros key now c Ep. apply getOrCreateByKey_pending; eauto.
  - intros key now m Es.
    rewrite (getOrCreateByKey_existing key now s m Es). now cbn.
  - intros key now c.
    destruct (sessions s !! key) as [m|] eqn:Es.
    { rewrite (getOrCreateByKey_existing key now s m Es). discriminate. }
    destruct (pendingCreations s !! key) as [c'|] eqn:Ep.
    { rewrite (getOrCreateByKey_pending key now s c' Es Ep). discriminate. }
    destruct (getOrCreateByKey_create key now s Es Ep) as (ord & cl & ->).
    cbn [fst snd pendingCreations]. intros [= <-].
    repeat split; [apply lookup_insert_eq|].
    intros k Hin. unfold heldFor in Hin.
    destruct (sessions s !! k) as [m|] eqn:Esk;
      destruct (pendingCreations s !! k) as [c|] eqn:Epk;
      repeat (apply elem_of_cons in Hin as [Hin|Hin]);
      try (apply elem_of_nil in Hin; contradiction).
    all: try (specialize (Hsess k m Esk); lia).
    all: try (specialize (Hpend k c Epk); lia).
  - intros key now c Ep.
    assert (Es : sessions s !! key = None) by (apply Hone; eauto).
    split; [exact Es|]. unfold heldFor, creationSettled. rewrite Ep.
    cbn [sessions pendingCreations setSession].
    now rewrite lookup_insert_eq, lookup_delete_eq, Es.
Qed.

End SingleFlight.

Lemma single_flight_per_key_witness :
  SessionManager.getOrCreateByKey "http:a" 2
    (SessionManager.run [SessionManager.Call "http:a" 1] (SessionManager.init 100))
  = (SessionManager.AwaitsPending 0,
     SessionManager.run [SessionManager.Call "http:a" 1] (SessionManager.init 100)).
Proof.
  destruct (single_flight_per_key 100 [SessionManager.Call "http:a" 1])
    as (_ & Hjoin & _).
  apply Hjoin. reflexivity.
Defined.

(** * Subagent manager: [stop] *)
Section SubagentStop.
Import SubagentManager.
Local Open Scope list_scope.

Lemma stop_not_running (s : State) subagentId now :
  (forall sub, subagents s !! subagentId = Some sub -> status sub <> Running) ->
  stop subagentId now s = (false, s).
Proof.
  intros H. unfold stop.
  destruct (subagents s !! subagentId) as [sub|] eqn:E; [|reflexivity].
  specialize (H sub eq_refl). unfold isRunning.
  destruct (status sub); [congruence | reflexivity | reflexivity].
Qed.

Lemma stop_running (s : State) subagentId now sub :
  subagents s !! subagentId = Some sub -> status sub = Running ->
  stop subagentId now s
  = (true,
     mkState (<[subagentId := stopped now sub]> (subagents s))
             (currentChannel s) (currentChatId s)
             (MessageBus.publishOutbound
                (announcement (stopped now sub) "stopped") (bus s))).
Proof.
  intros E Hrun. unfold stop, isRunning. rewrite E, Hrun. reflexivity.
Qed.

(** C10. [stop(id)] returns false and changes nothing (no record, no
    outbound publication) when the id is unknown or the subagent is not
    running. When the subagent is running it returns true, marks the
    record completed at [now] with result "Stopped by request" and a stats
    block holding the runtime, leaves every other record as it was, and
    publishes exactly one announcement, addressed to the requester. *)
Theorem stop_atomic_on_failure (s : State) (subagentId : string) (now : Z) :
  (subagents s !! subagentId = None -> stop subagentId now s = (false, s))
  /\ (forall sub, subagents s !! subagentId = Some sub ->
                  status sub <> Running ->
                  stop subagentId now s = (false, s))
  /\ (fst (stop subagentId now s) = true <->
      exists sub, subagents s !! subagentId = Some sub /\ status sub = Running)
  /\ (forall sub, subagents s !! subagentId = Some sub ->
                  status sub = Running ->
      let s' := snd (stop subagentId now s) in
      fst (stop subagentId now s) = true
      /\ (exists sub',
             subagents s' !! subagentId = Some sub'
             /\ status sub' = Completed
             /\ completedAt sub' = Some now
             /\ result sub' = Some "Stopped by request"
             /\ stats sub' = Some (mkStats (now - createdAt sub) None None)
             /\ (id sub', task sub', label sub', createdAt sub', sessionKey sub')
                = (id sub, task sub, label sub, createdAt sub, sessionKey sub)
             /\ MessageBus.published (bus s')
                = MessageBus.published (bus s) ++ [announcement sub' "stopped"]
             /\ MessageBus.channel (announcement sub' "stopped")
                = requesterChannel sub
             /\ MessageBus.chatId (announcement sub' "stopped")
                = requesterChatId sub)
      /\ (forall other, other <> subagentId ->
                        subagents s' !! other = subagents s !! other)).
Proof.
  split; [|split; [|split]].
  - intros E. apply stop_not_running. intros sub. rewrite E. discriminate.
  - intros sub E Hst. apply stop_not_running. intros sub'. rewrite E.
    now intros [= <-].
  - split.
    + unfold stop, isRunning.
      destruct (subagents s !! subagentId) as [sub|]; [|discriminate].
      destruct (status sub) eqn:Es; cbn; try discriminate.
      intros _. now exists sub.
    + intros (sub & E & Hrun). now rewrite (stop_running s _ now sub E Hrun).
  - intros sub E Hrun. cbv zeta. rewrite (stop_running s _ now sub E Hrun).
    cbn [fst snd subagents bus]. split; [reflexivity|]. split.
    + exists (stopped now sub). rewrite lookup_insert_eq.
      repeat split; reflexivity.
    + intros other Hne. now rewrite lookup_insert_ne.
Qed.

End SubagentStop.

Lemma stop_atomic_on_failure_witness :
  SubagentManager.stop "ef56ab78" 5000 twoSubagents = (false, twoSubagents)
  /\ SubagentManager.stop "nobody" 5000 twoSubagents = (false, twoSubagents)
  /\ fst (SubagentManager.stop "ab12cd34" 5000 twoSubagents) = true.
Proof.
  destruct (stop_atomic_on_failure twoSubagents "ef56ab78" 5000) as (_ & Hdone & _).
  destruct (stop_atomic_on_failure twoSubagents "nobody" 5000) as (Hnone & _).
  destruct (stop_atomic_on_failure twoSubagents "ab12cd34" 5000) as (_ & _ & _ & Hrun).
  split; [|split].
  - apply (Hdone finishedSubagent); [reflexivity | discriminate].
  - apply Hnone. reflexivity.
  - apply (Hrun researchSubagent); reflexivity.
Defined.

(** * Numbers: where the double arithmetic is exact *)
Section NumberFacts.
Import JsNumber.

Lemma roundEven_exact k d : 0 < d -> roundEven (k * d) d = k.
Proof.
  intros Hd. unfold roundEven.
  rewrite Z.mod_mul by lia. rewrite Z.div_mul by lia.
  destruct (2 * 0 ?= d) eqn:E; try reflexivity.
  - apply Z.compare_eq in E. lia.
  - apply Z.compare_gt_iff in E. lia.
Qed.

(** What [roundEven] returns lies within the floor and the floor plus
    one, and reaches the latter only from the upper half. *)
Lemma roundEven_near n d :
  0 < d ->
  roundEven n d = n / d
  \/ (roundEven n d = n / d + 1 /\ d <= 2 * (n mod d)).
Proof.
  intros Hd. unfold roundEven.
  destruct (2 * (n mod d) ?= d) eqn:E.
  - apply Z.compare_eq in E.
    destruct (Z.even (n / d)); [now left | right; split; [reflexivity | lia]].
  - now left.
  - apply Z.compare_gt_iff in E. right. split; [reflexivity | lia].
Qed.

Lemma ilog2_lower n d :
  n <> 0 -> 0 < d ->
  (0 <= ilog2 n d -> d * 2 ^ ilog2 n d <= Z.abs n)
  /\ (ilog2 n d < 0 -> d <= Z.abs n * 2 ^ (- ilog2 n d)).
Proof.
  intros Hn Hd. unfold ilog2.
  set (a := Z.abs n). assert (Ha : 0 < a) by (unfold a; lia).
  set (k := Z.log2 a - Z.log2 d).
  destruct (Z.log2_spec a Ha) as [Ha1 Ha2].
  destruct (Z.log2_spec d Hd) as [Hd1 Hd2].
  pose proof (Z.log2_nonneg a) as Hla. pose proof (Z.log2_nonneg d) as Hld.
  destruct (if 0 <=? k then d * 2 ^ k <=? a else d <=? a * 2 ^ (- k)) eqn:E.
  - destruct (0 <=? k) eqn:Ek.
    + apply Z.leb_le in Ek, E. split; [intros _; exact E | lia].
    + apply Z.leb_gt in Ek. apply Z.leb_le in E. split; [lia | intros _; exact E].
  - (* the estimate one lower always holds *)
    assert (Hsucc : Z.succ (Z.log2 d) = Z.log2 d + 1) by lia.
    rewrite Hsucc in Hd2. clear Hsucc.
    destruct (Z_le_gt_dec 0 (k - 1)) as [Hk|Hk].
    + split; [intros _ | lia].
      (* d * 2^(k-1) < 2^(log2 d + 1) * 2^(k-1) = 2^(log2 a) <= a *)
      assert (Hp : 2 ^ (Z.log2 d + 1) * 2 ^ (k - 1) = 2 ^ Z.log2 a).
      { rewrite <- Z.pow_add_r by lia. f_equal. unfold k. lia. }
      assert (0 < 2 ^ (k - 1)) by (apply Z.pow_pos_nonneg; lia).
      nia.
    + split; [lia | intros _].
      (* d < 2^(log2 d + 1), and 2^(log2 d + 1) <= 2^(log2 a) * 2^(-(k-1)) *)
      assert (Hp : 2 ^ Z.log2 a * 2 ^ (- (k - 1)) = 2 ^ (Z.log2 d + 1)).
      { rewrite <- Z.pow_add_r by lia. f_equal. unfold k. lia. }
      assert (0 < 2 ^ (- (k - 1))) by (apply Z.pow_pos_nonneg; lia).
      nia.
Qed.

Lemma ilog2_upper n d :
  n <> 0 -> 0 < d -> ilog2 n d <= Z.log2 (Z.abs n).
Proof.
  intros Hn Hd. unfold ilog2. pose proof (Z.log2_nonneg d).
  destruct (if 0 <=? _ then _ else _); lia.
Qed.

Lemma Qred_inject_Z z : Qred (inject_Z z) = inject_Z z.
Proof.
  unfold Qred, inject_Z.
  pose proof (Z.ggcd_gcd z 1) as Hg.
  pose proof (Z.ggcd_correct_divisors z 1) as Hc.
  destruct (Z.ggcd z 1) as [g [aa bb]]. cbn [fst snd] in *.
  rewrite Z.gcd_1_r in Hg. subst g. destruct Hc as [Ha Hb].
  assert (Haa : aa = z) by lia. assert (Hbb : bb = 1) by lia.
  rewrite Haa, Hbb. reflexivity.
Qed.

Lemma scaled_integer z e :
  e < 0 -> scaled (z * 2 ^ (- e)) e = inject_Z z.
Proof.
  intros He. unfold scaled.
  destruct (0 <=? e) eqn:E; [apply Z.leb_le in E; lia|].
  rewrite <- Qred_inject_Z. apply Qred_complete.
  unfold Qeq, inject_Z. cbn [Qnum Qden].
  assert (0 < 2 ^ (- e)) by (apply Z.pow_pos_nonneg; lia).
  rewrite Z2Pos.id by assumption. lia.
Qed.

(** A rational that is an integer of magnitude at most 2^53 is a double. *)
Lemma round_integer (q : Q) (z : Z) :
  (q == inject_Z z)%Q -> Z.abs z <= 2 ^ 53 -> round q = Num (inject_Z z).
Proof.
  intros Hq Hz. unfold round.
  set (n := Qnum q). set (d := Z.pos (Qden q)).
  assert (Hd : 0 < d) by (unfold d; lia).
  assert (Hn : n = z * d).
  { unfold Qeq, inject_Z in Hq. cbn [Qnum Qden] in Hq. unfold n, d. lia. }
  destruct (n =? 0) eqn:En.
  - apply Z.eqb_eq in En. assert (z = 0) by nia. now subst z.
  - apply Z.eqb_neq in En.
    assert (Hz0 : z <> 0) by (intros ->; lia).
    destruct (ilog2_lower n d En Hd) as [Hlo _].
    set (L := ilog2 n d) in *.
    assert (HL : L <= 53).
    { destruct (Z_le_gt_dec L 53) as [|Hgt]; [assumption|exfalso].
      assert (H54 : 2 ^ 54 <= 2 ^ L) by (apply Z.pow_le_mono_r; lia).
      specialize (Hlo ltac:(lia)).
      assert (Habs : Z.abs n = Z.abs z * d) by (rewrite Hn, Z.abs_mul; lia).
      assert (2 ^ 53 < 2 ^ 54) by (apply Z.pow_lt_mono_r; lia).
      nia. }
    set (e := Z.max (-1074) (L - 52)).
    assert (He : e <= 1) by (unfold e; lia).
    destruct (971 <? e) eqn:E1; [apply Z.ltb_lt in E1; lia|].
    destruct (e =? 971) eqn:E2; [apply Z.eqb_eq in E2; lia|].
    cbn [orb andb]. f_equal.
    destruct (0 <=? e) eqn:Ee.
    + apply Z.leb_le in Ee.
      assert (He01 : e = 0 \/ e = 1) by lia.
      destruct He01 as [He0|He1].
      * rewrite He0. change (2 ^ 0) with 1. rewrite Z.mul_1_r, Hn.
        rewrite roundEven_exact by assumption.
        unfold scaled. cbn [Z.leb Z.compare]. change (2 ^ 0) with 1.
        now rewrite Z.mul_1_r.
      * (* the magnitude is 2^53 itself *)
        assert (HL53 : L = 53) by (unfold e in He1; lia).
        specialize (Hlo ltac:(lia)). rewrite HL53 in Hlo.
        assert (Habs : Z.abs n = Z.abs z * d) by (rewrite Hn, Z.abs_mul; lia).
        assert (Hmag : Z.abs z = 2 ^ 53) by nia.
        rewrite He1. change (2 ^ 1) with 2.
        assert (Hhalf : z = (z / 2) * 2).
        { assert (Hz2 : z = 2 ^ 53 \/ z = - 2 ^ 53) by lia.
          destruct Hz2 as [-> | ->]; reflexivity. }
        replace n with ((z / 2) * (d * 2)) by (rewrite Hn; lia).
        rewrite roundEven_exact by lia.
        unfold scaled. cbn [Z.leb Z.compare]. change (2 ^ 1) with 2.
        now rewrite <- Hhalf.
    + apply Z.leb_gt in Ee.
      replace (n * 2 ^ (- e)) with ((z * 2 ^ (- e)) * d) by (rewrite Hn; lia).
      rewrite roundEven_exact by assumption.
      now apply scaled_integer.
Qed.

Lemma ofZ_exact z : Z.abs z <= 2 ^ 53 -> ofZ z = Num (inject_Z z).
Proof. intros H. unfold ofZ. now apply round_integer. Qed.

Lemma add_integers a b :
  Z.abs (a + b) <= 2 ^ 53 ->
  add (Num (inject_Z a)) (Num (inject_Z b)) = Num (inject_Z (a + b)).
Proof.
  intros H. cbn [add]. apply round_integer; [|exact H].
  now rewrite inject_Z_plus.
Qed.

Lemma sub_integers a b :
  Z.abs (a - b) <= 2 ^ 53 ->
  sub (Num (inject_Z a)) (Num (inject_Z b)) = Num (inject_Z (a - b)).
Proof.
  intros H. cbn [sub]. apply round_integer; [|exact H].
  unfold Z.sub. rewrite inject_Z_plus, inject_Z_opp. reflexivity.
Qed.

Lemma mul_integers a b :
  Z.abs (a * b) <= 2 ^ 53 ->
  mul (Num (inject_Z a)) (Num (inject_Z b)) = Num (inject_Z (a * b)).
Proof.
  intros H. cbn [mul]. apply round_integer; [|exact H].
  now rewrite inject_Z_mult.
Qed.

(** The floor of a rounded quotient of integers is the floor of the
    quotient, as long as the dividend is below 2^53 in magnitude. *)
Lemma round_floor (q : Q) :
  Z.abs (Qnum q) < 2 ^ 53 -> Z.pos (Qden q) <= 2 ^ 53 ->
  exists v, round q = Num v /\ Qfloor v = Qfloor q.
Proof.
  intros Hnb Hdb. unfold round.
  set (n := Qnum q) in *. set (d := Z.pos (Qden q)) in *.
  assert (Hd : 0 < d) by (unfold d; lia).
  assert (Hfl : Qfloor q = n / d) by (destruct q; reflexivity).
  destruct (n =? 0) eqn:En.
  - apply Z.eqb_eq in En. exists 0%Q. split; [reflexivity|].
    rewrite Hfl, En. reflexivity.
  - apply Z.eqb_neq in En.
    destruct (ilog2_lower n d En Hd) as [Hlo Hlo'].
    pose proof (ilog2_upper n d En Hd) as Hup.
    set (L := ilog2 n d) in *.
    assert (Hlog : Z.log2 (Z.abs n) < 53)
      by (apply Z.log2_lt_pow2; lia).
    set (e := Z.max (-1074) (L - 52)).
    assert (He : e <= 0) by (unfold e; lia).
    destruct (971 <? e) eqn:E1; [apply Z.ltb_lt in E1; lia|].
    destruct (e =? 971) eqn:E2; [apply Z.eqb_eq in E2; lia|].
    cbn [orb andb].
    destruct (0 <=? e) eqn:Ee.
    + apply Z.leb_le in Ee. assert (He0 : e = 0) by lia.
      assert (HL : L = 52) by (unfold e in He0; lia).
      specialize (Hlo ltac:(lia)). rewrite HL in Hlo.
      assert (Hd1 : d = 1) by nia.
      assert (Hm : roundEven n (d * 2 ^ e) = n).
      { rewrite He0, Hd1. change (1 * 2 ^ 0) with 1.
        rewrite <- (Z.mul_1_r n) at 1. apply roundEven_exact. lia. }
      rewrite Hm. eexists. split; [reflexivity|].
      rewrite He0. unfold scaled. cbn [Z.leb Z.compare]. change (2 ^ 0) with 1.
      rewrite Z.mul_1_r, Qfloor_Z, Hfl, Hd1. now rewrite Z.div_1_r.
    + apply Z.leb_gt in Ee.
      set (s := 2 ^ (- e)).
      assert (Hs : 0 < s) by (apply Z.pow_pos_nonneg; lia).
      assert (Hds : d < 2 * s).
      { unfold s. destruct (Z.eq_dec e (-1074)) as [->|Hne].
        - assert (2 ^ 53 < 2 * 2 ^ (- -1074)) by (vm_compute; reflexivity). lia.
        - assert (HeL : e = L - 52) by (unfold e in *; lia).
          replace (2 * 2 ^ (- e)) with (2 ^ (53 - L))
            by (rewrite HeL; replace (53 - L) with (1 + - (L - 52)) by lia;
                rewrite Z.pow_add_r by lia; reflexivity).
          destruct (Z_le_gt_dec 0 L) as [HL|HL].
          + specialize (Hlo HL).
            assert (Hp : 2 ^ L * 2 ^ (53 - L) = 2 ^ 53)
              by (rewrite <- Z.pow_add_r by lia; f_equal; lia).
            assert (0 < 2 ^ L) by (apply Z.pow_pos_nonneg; lia).
            nia.
          + specialize (Hlo' ltac:(lia)).
            assert (Hp : 2 ^ 53 * 2 ^ (- L) = 2 ^ (53 - L))
              by (rewrite <- Z.pow_add_r by lia; f_equal; lia).
            assert (0 < 2 ^ (- L)) by (apply Z.pow_pos_nonneg; lia).
            nia. }
      set (m := roundEven (n * s) d).
      eexists. split; [reflexivity|].
      unfold scaled. destruct (0 <=? e) eqn:Ee'; [apply Z.leb_le in Ee'; lia|].
      rewrite Hfl, (Qfloor_comp _ _ (Qred_correct _)).
      fold s. unfold Qfloor. rewrite Z2Pos.id by assumption.
      (* m / s = n / d *)
      set (N := n / d).
      assert (HN : N * d <= n < (N + 1) * d).
      { unfold N. pose proof (Z.mul_div_le n d Hd).
        pose proof (Z.mul_succ_div_gt n d Hd). lia. }
      set (X := n * s). set (f := X / d). set (r := X mod d).
      assert (HX : X = d * f + r) by (apply Z.div_mod; lia).
      assert (Hr : 0 <= r < d) by (apply Z.mod_pos_bound; lia).
      assert (Hflo : N * s <= f).
      { apply Z.div_le_lower_bound; [lia|]. unfold X. nia. }
      assert (Hm : N * s <= m < (N + 1) * s).
      { pose proof (roundEven_near X d Hd) as Hnear.
        change (roundEven X d) with m in Hnear.
        change (X / d) with f in Hnear. change (X mod d) with r in Hnear.
        destruct Hnear as [Hm|[Hm Hhalf]].
        - rewrite Hm. split; [exact Hflo|]. unfold X in HX. nia.
        - rewrite Hm. split; [lia|]. unfold X in HX. nia. }
      symmetry. apply Z.div_unique with (r := m - N * s); lia.
Qed.

Lemma floor_div_integers a b :
  Z.abs a < 2 ^ 53 -> b <> 0 -> Z.abs b <= 2 ^ 53 ->
  floor (div (Num (inject_Z a)) (Num (inject_Z b))) = Num (inject_Z (a / b)).
Proof.
  intros Ha Hb Hbb. cbn [div]. unfold isZero. cbn [inject_Z Qnum].
  destruct (b =? 0) eqn:E; [apply Z.eqb_eq in E; congruence|].
  destruct (round_floor (inject_Z a / inject_Z b)) as (v & Hv & Hf).
  - destruct b as [|p|p]; [congruence| |];
      unfold Qdiv, Qinv, inject_Z, Qmult; cbn [Qnum Qden]; lia.
  - destruct b as [|p|p]; [congruence| |];
      unfold Qdiv, Qinv, inject_Z, Qmult; cbn [Qnum Qden];
      rewrite Pos.mul_1_l; lia.
  - change (inject_Z a) with (a # 1) in *. change (inject_Z b) with (b # 1) in *.
    rewrite Hv. cbn [floor]. rewrite Hf. f_equal. f_equal.
    destruct b as [|p|p]; [congruence| |].
    + unfold Qdiv, Qinv, Qmult, Qfloor. simpl. now rewrite Z.mul_1_r.
    + unfold Qdiv, Qinv, Qmult, Qfloor. simpl.
      replace (a * -1) with (- a) by lia.
      rewrite <- (Z.div_opp_opp a (Z.neg p)) by lia. reflexivity.
Qed.

End NumberFacts.

(** On the samples, [JsNumber] computes what the machine computes. *)
Lemma arithmetic_agrees_with_machine :
  Forall (fun sample => Binary64.measured sample = Binary64.computed sample)
         roundingSamples.
Proof.
  repeat (constructor; [vm_compute; reflexivity|]). constructor.
Qed.

(** * Cron service: next-run computation *)
Section CronNextRun.
Import CronService.
Variable clock : nat -> Z.
Variable cronNext : string -> option string -> Z -> option Z.

Lemma Qfloor_div (a b : Z) :
  b <> 0 -> Qfloor (inject_Z a / inject_Z b) = a / b.
Proof.
  intros Hb. destruct b as [|p|p]; [congruence| |].
  - unfold Qdiv, Qinv, inject_Z, Qmult, Qfloor. simpl.
    now rewrite Z.mul_1_r.
  - unfold Qdiv, Qinv, inject_Z, Qmult, Qfloor. simpl.
    replace (a * -1) with (- a) by lia.
    rewrite <- (Z.div_opp_opp a (Z.neg p)) by lia. reflexivity.
Qed.

(** [computeNextRun] only advances the count of clock readings. *)
Lemma computeNextRun_frame schedule s :
  exists v k, computeNextRun clock cronNext schedule s = (Ok v, setReads k s)
              /\ (reads s < k)%nat.
Proof.
  destruct schedule as [atMs|everyMs anchorMs|expr tz];
    cbv [computeNextRun parseNextCron bind dateNow ret].
  - eexists _, _. split; [reflexivity | simpl; lia].
  - eexists _, _. split; [reflexivity | simpl; lia].
  - cbn [reads setReads].
    destruct (cronNext expr _ _); eexists _, _;
      (split; [reflexivity | simpl; lia]).
Qed.

Lemma moderate_double z : JsNumber.moderate z -> Z.abs z <= 2 ^ 53.
Proof.
  unfold JsNumber.moderate. intros H.
  assert (2 ^ 51 <= 2 ^ 53) by (apply Z.pow_le_mono_r; lia). lia.
Qed.

Lemma ofZ_moderate z : JsNumber.moderate z -> JsNumber.ofZ z = Num (inject_Z z).
Proof. intros H. apply ofZ_exact. now apply moderate_double. Qed.

(** The period rule on moderate integers: every step of the double
    arithmetic is exact. *)
Lemma every_integers (now everyMs anchor : Z) :
  everyMs <> 0 ->
  JsNumber.moderate now -> JsNumber.moderate everyMs ->
  JsNumber.moderate anchor ->
  JsNumber.add (Num (inject_Z anchor))
    (JsNumber.mul
       (JsNumber.add
          (JsNumber.floor
             (JsNumber.div
                (JsNumber.sub (Num (inject_Z now)) (Num (inject_Z anchor)))
                (Num (inject_Z everyMs))))
          (JsNumber.ofZ 1))
       (Num (inject_Z everyMs)))
  = Num (inject_Z (anchor + ((now - anchor) / everyMs + 1) * everyMs)).
Proof.
  unfold JsNumber.moderate. intros Hne Hn He Ha.
  assert (H51 : 2 ^ 51 = 2251799813685248) by reflexivity.
  assert (H53 : 2 ^ 53 = 9007199254740992) by reflexivity.
  set (el := now - anchor).
  assert (Hel : Z.abs el <= 2 * 2 ^ 51) by (unfold el; lia).
  pose proof (Z.div_mod el everyMs Hne) as Hdm.
  assert (Hrem : Z.abs (el mod everyMs) < Z.abs everyMs).
  { destruct (Z_lt_le_dec 0 everyMs).
    - pose proof (Z.mod_pos_bound el everyMs ltac:(lia)). lia.
    - pose proof (Z.mod_neg_bound el everyMs ltac:(lia)). lia. }
  set (p := el / everyMs) in *.
  assert (Hstep : (p + 1) * everyMs = el - el mod everyMs + everyMs) by lia.
  assert (Hp : Z.abs p <= 2 * 2 ^ 51).
  { assert (Z.abs (p * everyMs) <= Z.abs el + Z.abs everyMs) by lia.
    rewrite Z.abs_mul in H. nia. }
  rewrite sub_integers by (fold el; lia). fold el.
  rewrite floor_div_integers by lia. fold p.
  change (JsNumber.ofZ 1) with (Num (inject_Z 1)).
  rewrite add_integers by lia.
  rewrite mul_integers by lia.
  rewrite add_integers by (unfold el in *; lia).
  reflexivity.
Qed.

Lemma specEvery_integers (now everyMs : Z) (anchorMs : option Z) :
  everyMs <> 0 ->
  (inject_Z (default now anchorMs
             + ((now - default now anchorMs) / everyMs + 1) * everyMs)
   == specEvery (inject_Z now) (inject_Z everyMs) (inject_Z <$> anchorMs))%Q.
Proof.
  intros Hne. unfold specEvery.
  assert (Hd : default (inject_Z now) (inject_Z <$> anchorMs)
               = inject_Z (default now anchorMs)) by now destruct anchorMs.
  rewrite Hd. set (a := default now anchorMs).
  assert (Hq : (inject_Z now - inject_Z a == inject_Z (now - a))%Q).
  { unfold Z.sub. rewrite inject_Z_plus, inject_Z_opp. reflexivity. }
  rewrite (Qfloor_comp _ _ (Qdiv_comp _ _ Hq _ _ (Qeq_refl _))).
  rewrite (Qfloor_div _ _ Hne).
  rewrite inject_Z_plus, inject_Z_mult, inject_Z_plus. reflexivity.
Qed.

Lemma computeNextRun_at (s : State) atMs :
  JsNumber.moderate (clock (reads s)) ->
  fst (computeNextRun clock cronNext (At atMs) s)
  = Ok (Num (if Qlt_le_dec (inject_Z (clock (reads s))) atMs
             then atMs else inject_Z (clock (reads s) + 1000))).
Proof.
  intros Hnow. cbv [computeNextRun bind dateNow ret fst].
  rewrite (ofZ_moderate _ Hnow). cbn [JsNumber.gt].
  change (JsNumber.ofZ 1000) with (Num (inject_Z 1000)).
  rewrite add_integers
    by (unfold JsNumber.moderate in Hnow;
        assert (2 ^ 51 = 2251799813685248) by reflexivity;
        assert (2 ^ 53 = 9007199254740992) by reflexivity; lia).
  destruct (Qlt_le_dec (inject_Z (clock (reads s))) atMs) as [H|H].
  - destruct (Qle_bool atMs (inject_Z (clock (reads s)))) eqn:E;
      [|reflexivity].
    apply Qle_bool_iff in E. exfalso. apply (Qlt_not_le _ _ H E).
  - apply Qle_bool_iff in H. now rewrite H.
Qed.

Lemma computeNextRun_fallback (s : State) expr tz :
  cronNext expr (match tz with Some EmptyString => None | _ => tz end)
           (clock (S (reads s))) = None ->
  JsNumber.moderate (clock (S (S (reads s)))) ->
  fst (computeNextRun clock cronNext (Cron expr tz) s)
  = Ok (Num (inject_Z (clock (S (S (reads s))) + 60000))).
Proof.
  intros Hfail Hmod.
  cbv [computeNextRun parseNextCron bind dateNow ret].
  cbn [reads setReads]. rewrite Hfail. cbn [fst reads setReads].
  rewrite (ofZ_moderate _ Hmod).
  change (JsNumber.ofZ 60000) with (Num (inject_Z 60000)).
  rewrite add_integers
    by (unfold JsNumber.moderate in Hmod;
        assert (2 ^ 51 = 2251799813685248) by reflexivity;
        assert (2 ^ 53 = 9007199254740992) by reflexivity; lia).
  reflexivity.
Qed.

(** C7 (as amended). [now] is the reading [computeNextRun] takes first,
    a moderate integer. For [At] the result is [atMs] when [atMs > now]
    and [now + 1000] otherwise. For [Every] with a period and an anchor
    that are moderate integers, the period not zero, the result is the
    value of [anchor + (floor((now - anchor) / everyMs) + 1) * everyMs]
    over the rationals, [anchor] being [anchorMs] when present and [now]
    otherwise; a period of zero gives [NaN] whatever the anchor. For
    [Cron] with an expression the parser rejects, the result is the
    reading taken in the fallback, the third of the call, plus 60000. *)
Theorem computeNextRun_follows_spec (s : State) :
  let now := clock (reads s) in
  (forall atMs,
      JsNumber.moderate now ->
      fst (computeNextRun clock cronNext (At atMs) s)
      = Ok (Num (if Qlt_le_dec (inject_Z now) atMs
                 then atMs else inject_Z (now + 1000))))
  /\ (forall everyMs anchorMs,
      everyMs <> 0 ->
      JsNumber.moderate now -> JsNumber.moderate everyMs ->
      (forall a, anchorMs = Some a -> JsNumber.moderate a) ->
      exists t,
        fst (computeNextRun clock cronNext
               (Every (inject_Z everyMs) (inject_Z <$> anchorMs)) s)
        = Ok (Num (inject_Z t))
        /\ (inject_Z t
            == specEvery (inject_Z now) (inject_Z everyMs)
                         (inject_Z <$> anchorMs))%Q)
  /\ (forall everyMs anchorMs,
      (everyMs == 0)%Q ->
      fst (computeNextRun clock cronNext (Every everyMs anchorMs) s) = Ok NaN)
  /\ (forall expr tz,
      cronNext expr (match tz with Some EmptyString => None | _ => tz end)
               (clock (S (reads s))) = None ->
      JsNumber.moderate (clock (S (S (reads s)))) ->
      fst (computeNextRun clock cronNext (Cron expr tz) s)
      = Ok (Num (inject_Z (clock (S (S (reads s))) + 60000)))).
Proof.
  cbv zeta. split; [|split; [|split]].
  - intros atMs Hnow. now apply computeNextRun_at.
  - intros everyMs anchorMs Hne Hnow Hev Hanch.
    exists (default (clock (reads s)) anchorMs
            + ((clock (reads s) - default (clock (reads s)) anchorMs) / everyMs
               + 1) * everyMs).
    split; [|now apply specEvery_integers].
    cbv [computeNextRun bind dateNow ret fst].
    rewrite (ofZ_moderate _ Hnow).
    destruct anchorMs as [a|]; cbn [fmap option_fmap option_map default].
    + apply f_equal. apply every_integers; auto.
    + apply f_equal. apply every_integers; auto.
  - intros everyMs anchorMs Hz.
    assert (Hzero : JsNumber.isZero everyMs = true).
    { unfold JsNumber.isZero. apply Z.eqb_eq.
      unfold Qeq in Hz. cbn in Hz. lia. }
    cbv [computeNextRun bind dateNow ret fst]. apply f_equal.
    set (anchor := match anchorMs with Some a => Num a | None => _ end).
    set (elapsed := JsNumber.sub _ anchor).
    change (JsNumber.ofZ 1) with (Num 1).
    destruct elapsed as [x| | |]; cbn [JsNumber.div];
      rewrite ?Hzero; cbn [orb];
      unfold JsNumber.infinityOfSign;
      repeat match goal with
             | |- context [if ?c then _ else _] => destruct c
             end;
      cbn [JsNumber.floor JsNumber.add JsNumber.mul JsNumber.opposite];
      unfold JsNumber.infinityOfSign; rewrite ?Hzero;
      cbn [JsNumber.opposite]; now destruct anchor.
  - intros expr tz Hfail Hmod. now apply computeNextRun_fallback.
Qed.

End CronNextRun.

Lemma computeNextRun_follows_spec_witness :
  (exists t,
      fst (CronService.computeNextRun (fun _ => 10000) (fun _ _ _ => None)
             (CronService.Every (inject_Z 3000) (Some (inject_Z 500)))
             (CronService.mkState [] ∅ false None [] 0))
      = CronService.Ok (CronService.Num (inject_Z t))
      /\ (inject_Z t
          == CronService.specEvery (inject_Z 10000) (inject_Z 3000)
                                   (Some (inject_Z 500)))%Q)
  /\ fst (CronService.computeNextRun (fun _ => 10000) (fun _ _ _ => None)
         (CronService.Cron "invalid" None)
         (CronService.mkState [] ∅ false None [] 0))
  = CronService.Ok (CronService.Num (inject_Z (10000 + 60000))).
Proof.
  pose proof (computeNextRun_follows_spec (fun _ => 10000) (fun _ _ _ => None)
                (CronService.mkState [] ∅ false None [] 0)) as (_ & He & _ & Hc).
  assert (Hm : forall z, Z.abs z <= 10000 -> JsNumber.moderate z).
  { intros z Hz. unfold JsNumber.moderate.
    assert (2 ^ 51 = 2251799813685248) by reflexivity. lia. }
  split.
  - apply (He 3000 (Some 500)).
    + lia.
    + apply Hm. cbn. lia.
    + apply Hm. lia.
    + intros a [= <-]. apply Hm. lia.
  - apply (Hc "invalid" None); [reflexivity|]. apply Hm. cbn. lia.
Defined.

(** C7 as stated fails in two ways. With a clock that moves on by 5 ms
    from one reading to the next, the fallback for an expression the
    parser rejects returns 61010: the third reading plus 60000, not [now]
    plus 60000. And with the period 60000.3 (the double next to it) and
    the anchor 0, at the reading 600003 the quotient 9.9999999999999995...
    is rounded to 10 before the floor is taken, and the result is eleven
    periods, 660003.3, where the rule over the rationals gives ten: the
    result lies more than 60000 above the value of the rule. *)
Lemma computeNextRun_differs_from_rule :
  let clock := fun n => 1000 + 5 * Z.of_nat n in
  let s := CronService.mkState [] ∅ false None [] 0 in
  let period := (4123189220003021 # 68719476736)%Q in
  fst (CronService.computeNextRun clock (fun _ _ _ => None)
         (CronService.Cron "invalid" None) s)
  = CronService.Ok (CronService.Num 61010)
  /\ clock (CronService.reads s) + 60000 = 61000
  /\ JsNumber.round (600003 # 10) = CronService.Num period
  /\ JsNumber.round period = CronService.Num period
  /\ fst (CronService.computeNextRun (fun _ => 600003) (fun _ _ _ => None)
            (CronService.Every period (Some 0%Q)) s)
     = CronService.Ok (CronService.Num (2834692588752077 # 4294967296))
  /\ (CronService.specEvery 600003 period (Some 0%Q)
      == 20615946100015105 # 34359738368)%Q
  /\ (CronService.specEvery 600003 period (Some 0%Q) + 60000
      < 2834692588752077 # 4294967296)%Q.
Proof.
  cbv zeta. split; [vm_compute; reflexivity|]. split; [reflexivity|].
  split; [vm_compute; reflexivity|]. split; [vm_compute; reflexivity|].
  split; [vm_compute; reflexivity|]. split; vm_compute; reflexivity.
Qed.

(** * Cron service: strictly later next run, and the delay of a re-armed timer *)
Section CronFuture.
Import CronService.
Variable clock : nat -> Z.
Variable cronNext : string -> option string -> Z -> option Z.

Lemma every_after_now (now everyMs anchor : Z) :
  0 < everyMs -> now < anchor + ((now - anchor) / everyMs + 1) * everyMs.
Proof.
  intros Hpos.
  pose proof (Z.mul_succ_div_gt (now - anchor) everyMs Hpos) as H.
  unfold Z.succ in H. lia.
Qed.

Lemma delayUntil_integers (t now : Z) :
  JsNumber.moderate t -> JsNumber.moderate now ->
  delayUntil (Num (inject_Z t)) now = Num (inject_Z (Z.max 0 (t - now))).
Proof.
  intros Ht Hn. unfold delayUntil. rewrite (ofZ_moderate _ Hn).
  rewrite sub_integers
    by (unfold JsNumber.moderate in *;
        assert (2 ^ 51 = 2251799813685248) by reflexivity;
        assert (2 ^ 53 = 9007199254740992) by reflexivity; lia).
  change (JsNumber.ofZ 0) with (Num (inject_Z 0)). cbn [JsNumber.max].
  destruct (Qle_bool (inject_Z 0) (inject_Z (t - now))) eqn:E.
  - apply Qle_bool_iff in E. rewrite <- Zle_Qle in E.
    now rewrite Z.max_r by lia.
  - assert (Hlt : ~ (inject_Z 0 <= inject_Z (t - now))%Q)
      by (intros H; apply Qle_bool_iff in H; congruence).
    rewrite <- Zle_Qle in Hlt. now rewrite Z.max_l by lia.
Qed.

Lemma scheduleJob_delay (job : CronJob) (n : jsnum) (s : State) :
  nextRunAtMs (state job) = Some n ->
  timers (snd (scheduleJob clock cronNext job s)) !! id job
  = Some (delayUntil n (clock (reads s))).
Proof.
  intros Hnext.
  cbv [scheduleJob bind cancelJobTimer modify dateNow ret]. rewrite Hnext.
  cbv [ret]. cbn [snd timers setTimers setReads reads].
  apply lookup_insert_eq.
Qed.

(** C9 (as amended). On moderate integers (clock readings, period and
    anchor): for [At] with any [atMs], for [Every] with a positive
    period, and for the fallback of [Cron] when the clock has not run
    backwards, [computeNextRun] returns a timestamp strictly greater than
    the reading [now] it took first. A timer armed by [scheduleJob] for
    a moderate integer timestamp [t] gets the delay [max 0 (t - now')],
    where [now'] is the reading [scheduleJob] takes: positive while
    [now' < t], zero once the clock has reached [t]. *)
Theorem computeNextRun_after_now (s : State) :
  let now := clock (reads s) in
  (forall atMs,
      JsNumber.moderate now ->
      exists t,
        fst (computeNextRun clock cronNext (At atMs) s) = Ok (Num t)
        /\ (inject_Z now < t)%Q)
  /\ (forall everyMs anchorMs,
      0 < everyMs ->
      JsNumber.moderate now -> JsNumber.moderate everyMs ->
      (forall a, anchorMs = Some a -> JsNumber.moderate a) ->
      exists t,
        fst (computeNextRun clock cronNext
               (Every (inject_Z everyMs) (inject_Z <$> anchorMs)) s)
        = Ok (Num (inject_Z t))
        /\ now < t)
  /\ (forall expr tz,
      cronNext expr (match tz with Some EmptyString => None | _ => tz end)
               (clock (S (reads s))) = None ->
      JsNumber.moderate (clock (S (S (reads s)))) ->
      now <= clock (S (S (reads s))) ->
      exists t,
        fst (computeNextRun clock cronNext (Cron expr tz) s)
        = Ok (Num (inject_Z t))
        /\ now < t)
  /\ (forall (job : CronJob) (t : Z) (s' : State),
      nextRunAtMs (state job) = Some (Num (inject_Z t)) ->
      JsNumber.moderate t -> JsNumber.moderate (clock (reads s')) ->
      exists d,
        timers (snd (scheduleJob clock cronNext job s')) !! id job
        = Some (Num (inject_Z d))
        /\ d = Z.max 0 (t - clock (reads s'))
        /\ (clock (reads s') < t -> 0 < d)
        /\ (t <= clock (reads s') -> d = 0)).
Proof.
  cbv zeta.
  split; [|split; [|split]].
  - intros atMs Hnow. rewrite (computeNextRun_at clock cronNext s atMs Hnow).
    destruct (Qlt_le_dec (inject_Z (clock (reads s))) atMs) as [H|H];
      eexists; (split; [reflexivity|]); [exact H|].
    rewrite <- Zlt_Qlt. lia.
  - intros everyMs anchorMs Hpos Hnow Hev Hanch.
    cbv [computeNextRun bind dateNow ret fst].
    rewrite (ofZ_moderate _ Hnow).
    exists (default (clock (reads s)) anchorMs
            + ((clock (reads s) - default (clock (reads s)) anchorMs) / everyMs
               + 1) * everyMs).
    split; [|now apply every_after_now].
    destruct anchorMs as [a|]; cbn [fmap option_fmap option_map default];
      apply f_equal; apply every_integers; auto; lia.
  - intros expr tz Hfail Hmod Hmono.
    rewrite (computeNextRun_fallback clock cronNext s expr tz Hfail Hmod).
    eexists; split; [reflexivity|]. lia.
  - intros job t s' Hnext Ht Hnow.
    exists (Z.max 0 (t - clock (reads s'))).
    split; [|split; [reflexivity | split; lia]].
    rewrite (scheduleJob_delay job _ s' Hnext).
    now rewrite delayUntil_integers.
Qed.

End CronFuture.

Lemma computeNextRun_after_now_witness :
  exists t,
    fst (CronService.computeNextRun (fun _ => 10000) (fun _ _ _ => None)
           (CronService.Every (inject_Z 3000) (Some (inject_Z 500)))
           (CronService.mkState [] ∅ false None [] 0))
    = CronService.Ok (CronService.Num (inject_Z t)) /\ 10000 < t.
Proof.
  pose proof (computeNextRun_after_now (fun _ => 10000) (fun _ _ _ => None)
                (CronService.mkState [] ∅ false None [] 0)) as [_ [He _]].
  assert (Hm : forall z, Z.abs z <= 10000 -> JsNumber.moderate z).
  { intros z Hz. unfold JsNumber.moderate.
    assert (2 ^ 51 = 2251799813685248) by reflexivity. lia. }
  apply (He 3000 (Some 500)).
  - lia.
  - apply Hm. cbn. lia.
  - apply Hm. lia.
  - intros a [= <-]. apply Hm. lia.
Defined.

(** C9 as stated fails in its last part: the job below runs at clock reading
    1000 and gets the fresh [nextRunAtMs] 1001; by the time [scheduleJob]
    reads the clock it shows 1005, and the timer is re-armed with delay 0. *)
Lemma rearmed_delay_not_positive :
  let s' := snd (CronService.run lateClock (fun _ _ _ => None) "j"
                   CronService.Force (CronService.succeeds None) tickService) in
  (CronService.nextRunAtMs ∘ CronService.state) <$> CronService.jobs s'
  = [Some (CronService.Num 1001)]
  /\ CronService.timers s' !! "j" = Some (CronService.Num 0).
Proof. cbv zeta. split; [reflexivity|]. vm_compute. reflexivity. Qed.

(** Nor does the first part hold off the integers: a period of 2^-14 ms,
    with no anchor, at the reading 1790000000000 gives that very reading
    back, the sum being rounded to the nearest double. *)
Lemma tiny_period_returns_now :
  JsNumber.round (1 # 16384) = CronService.Num (1 # 16384)
  /\ fst (CronService.computeNextRun (fun _ => 1790000000000)
            (fun _ _ _ => None) (CronService.Every (1 # 16384) None)
            (CronService.mkState [] ∅ false None [] 0))
     = CronService.Ok (CronService.Num 1790000000000).
Proof. split; vm_compute; reflexivity. Qed.

(** * Cron service: one-shot jobs *)
Section CronOneShot.
Import CronService.
Variable clock : nat -> Z.
Variable cronNext : string -> option string -> Z -> option Z.

Lemma findIndex_lookup {A} (p : A -> bool) (l : Datatypes.list A) i :
  findIndex p l = Some i -> exists x, l !! i = Some x /\ p x = true.
Proof.
  revert i. induction l as [|y l IH]; intros i; cbn [findIndex]; [discriminate|].
  destruct (p y) eqn:E.
  - intros [= <-]. now exists y.
  - destruct (findIndex p l) as [k|]; cbn; [|discriminate].
    intros [= <-]. apply (IH k eq_refl).
Qed.

Lemma findIndex_insert {A} (p : A -> bool) (l : Datatypes.list A) i x :
  findIndex p l = Some i -> p x = true ->
  findIndex p (<[i:=x]> l) = Some i.
Proof.
  revert i. induction l as [|y l IH]; intros i; cbn [findIndex]; [discriminate|].
  destruct (p y) eqn:E.
  - intros [= <-] Hx. cbn. now rewrite Hx.
  - destruct (findIndex p l) as [k|] eqn:Ek; cbn; [|discriminate].
    intros [= <-] Hx. change (<[S k:=x]> (y :: l)) with (y :: <[k:=x]> l).
    cbn [findIndex]. rewrite E, (IH k eq_refl Hx). reflexivity.
Qed.

Lemma delete_insert_same {A} (l : Datatypes.list A) i x :
  delete i (<[i:=x]> l) = delete i l.
Proof.
  revert i. induction l as [|y l IH]; intros [|i]; cbn; try reflexivity.
  f_equal. apply IH.
Qed.

Lemma hasId_eq jobId (j : CronJob) : hasId jobId j = true -> id j = jobId.
Proof. unfold hasId. apply String.eqb_eq. Qed.

(** With unique ids, deleting the job at position [i] leaves no job of
    that id behind. *)
Lemma delete_unique_id (l : Datatypes.list CronJob) i (job : CronJob) :
  NoDup (id <$> l) -> l !! i = Some job ->
  forall j, j ∈ delete i l -> id j <> id job.
Proof.
  revert i. induction l as [|y l IH]; intros [|i]; cbn; try discriminate.
  - intros Hnd [= ->] j Hj Heq. apply NoDup_cons in Hnd as [Hnotin _].
    apply Hnotin. rewrite <- Heq. now apply list_elem_of_fmap_2.
  - intros Hnd Hi j Hj. apply NoDup_cons in Hnd as [Hnotin Hnd].
    apply elem_of_cons in Hj as [->|Hj].
    + intros Heq. apply Hnotin. rewrite Heq.
      apply list_elem_of_fmap_2. eapply list_elem_of_lookup_2, Hi.
    + now apply (IH i Hnd Hi).
Qed.

Ltac proj :=
  cbn [jobs timers running store events reads setReads setJobs setTimers
       setStore addEvent setRunning fst snd].

Lemma scheduleJob_effect job s :
  exists d k,
    scheduleJob clock cronNext job s
    = (Ok tt, mkState (jobs s) (<[id job := d]> (timers s)) (running s)
                      (store s) (events s) k).
Proof.
  unfold scheduleJob. cbv [bind cancelJobTimer modify].
  destruct (nextRunAtMs (state job)) as [n|].
  - cbv [ret dateNow]. proj. eexists _, _.
    rewrite insert_delete_eq. reflexivity.
  - match goal with
    | |- context [computeNextRun _ _ _ ?st] =>
        destruct (computeNextRun_frame clock cronNext (schedule job) st)
          as (v & k & Hc & _); rewrite Hc
    end.
    cbv [ret dateNow]. proj. eexists _, _.
    rewrite insert_delete_eq. reflexivity.
Qed.

(** The [catch] block, when its [onEvent] returns and its [save]
    resolves. *)
Lemma failed_effect place job startMs message b s :
  onErrorEvent b = None -> saveAfterError b = None ->
  exists job1 d k ev,
    id job1 = id job /\ enabled job1 = enabled job
    /\ deleteAfterRun job1 = deleteAfterRun job
    /\ lastStatus (state job1) = Some StatusError
    /\ lastError (state job1) = Some message
    /\ failed clock cronNext place job startMs message b s
       = (Throw message,
          let J := match place with
                   | Some i => <[i := job1]> (jobs s)
                   | None => jobs s
                   end in
          mkState J
                  (if running s && enabled job
                   then <[id job := d]> (timers s) else timers s)
                  (running s) (Some J) (events s ++ [ev]) k).
Proof.
  intros Hev Hsave. unfold failed. cbv [bind dateNow].
  match goal with
  | |- context [computeNextRun _ _ _ ?st] =>
      destruct (computeNextRun_frame clock cronNext (schedule job) st)
        as (v & k & Hc & _); rewrite Hc
  end.
  match goal with
  | |- context [mkEvent _ ?j _ _] => set (job1 := j)
  end.
  unfold emit, saveOr. rewrite Hev, Hsave.
  cbv [bind writeAt writeJob modify ret gets]. proj.
  remember (running s) as r eqn:Er.
  assert (Hrun : forall J, running (mkState J (timers s) r (store s)
                                           (events s ++ [mkEvent EvError job1 None (Some message)])
                                           k) = r) by reflexivity.
  destruct place as [i|]; proj; rewrite <- ?Er;
    (destruct (r && enabled job) eqn:Ere;
     [ match goal with
       | |- context [scheduleJob _ _ ?j ?st] =>
           destruct (scheduleJob_effect j st) as (d & k' & Hs); rewrite Hs
       end;
       cbv [save modify throw ret setTimers setStore setJobs setReads addEvent];
       proj; rewrite <- ?Er;
       exists job1, d; eexists _, _;
       repeat (split; [reflexivity|]); reflexivity
     | cbv [save modify throw ret setTimers setStore setJobs setReads addEvent];
       proj; rewrite <- ?Er;
       exists job1, (Num 0); eexists _, _;
       repeat (split; [reflexivity|]); reflexivity ]).
Qed.


(** The first assignments of the [try] block, up to the [onEvent]
    call. *)
Lemma executeJob_resolved i job b s result :
  callback b = Resolves result ->
  exists job1 k,
    id job1 = id job
    /\ executeJob clock cronNext i job b s
       = (let s1 := mkState (<[i := job1]> (jobs s)) (timers s) (running s)
                            (store s)
                            (events s ++ [mkEvent EvRun job1 result None]) k in
          match onRunEvent b with
          | Some message => failed clock cronNext (Some i) job
                                   (clock (reads s)) message b s1
          | None =>
              bind (if isTrue (deleteAfterRun job)
                    then removeOneShot i job
                    else bind (gets running)
                           (fun isRunning =>
                              bind (if isRunning && enabled job
                                    then scheduleJob clock cronNext job1
                                    else ret tt)
                                   (fun _ => ret (Some i))))
                   (fun place =>
                      match saveAfterRun b with
                      | Some message => failed clock cronNext place job
                                               (clock (reads s)) message b
                      | None => bind save (fun _ => ret result)
                      end) s1
          end).
Proof.
  intros Hcb. unfold executeJob. rewrite Hcb.
  cbv [bind dateNow writeJob modify].
  match goal with
  | |- context [computeNextRun _ _ _ ?st] =>
      destruct (computeNextRun_frame clock cronNext (schedule job) st)
        as (v & k & Hc & _); rewrite Hc
  end.
  match goal with
  | |- context [mkEvent _ ?j _ _] => set (job1 := j)
  end.
  cbv [setTimers setStore setJobs setReads addEvent]. proj.
  rewrite list_insert_insert_eq.
  exists job1, k. split; [reflexivity|].
  cbv zeta. destruct (onRunEvent b); reflexivity.
Qed.

Lemma removeOneShot_effect i (job : CronJob) s :
  findIndex (hasId (id job)) (jobs s) = Some i ->
  removeOneShot i job s
  = (Ok None, mkState (delete i (jobs s)) (delete (id job) (timers s))
                      (running s) (store s) (events s) (reads s)).
Proof.
  intros H. unfold removeOneShot. cbv [bind gets]. rewrite H.
  cbv [spliceJob cancelJobTimer modify ret afterSplice]. proj.
  now rewrite Nat.eqb_refl.
Qed.

Lemma executeJob_oneshot_resolves (s : State) i job b result :
  findIndex (hasId (id job)) (jobs s) = Some i ->
  isTrue (deleteAfterRun job) = true ->
  callback b = Resolves result -> onRunEvent b = None ->
  saveAfterRun b = None ->
  exists s', executeJob clock cronNext i job b s = (Ok result, s')
             /\ removedAt i (id job) s s'.
Proof.
  intros Hidx Hdel Hcb Hev Hsave.
  destruct (executeJob_resolved i job b s result Hcb) as (job1 & k & Hid & ->).
  cbv zeta. rewrite Hev, Hdel, Hsave. cbv [bind].
  rewrite removeOneShot_effect
    by (proj; apply findIndex_insert; [exact Hidx|];
        unfold hasId; rewrite Hid; apply String.eqb_refl).
  cbv [save modify ret]. proj.
  eexists. split; [reflexivity|].
  unfold removedAt, list, gets. cbv [setStore]. proj.
  rewrite delete_insert_same. repeat split. apply lookup_delete_eq.
Qed.

(** After the removal of a one-shot job the [save] rejects: the job is
    out of the list, and the [catch] block arms a timer for it again. *)
Lemma executeJob_oneshot_unsaved (s : State) i job b result message :
  findIndex (hasId (id job)) (jobs s) = Some i ->
  isTrue (deleteAfterRun job) = true ->
  callback b = Resolves result -> onRunEvent b = None ->
  saveAfterRun b = Some message ->
  onErrorEvent b = None -> saveAfterError b = None ->
  exists s',
    executeJob clock cronNext i job b s = (Throw message, s')
    /\ jobs s' = delete i (jobs s)
    /\ store s' = Some (delete i (jobs s))
    /\ (if running s && enabled job
        then is_Some (timers s' !! id job)
        else timers s' !! id job = None).
Proof.
  intros Hidx Hdel Hcb Hev Hsave Hev' Hsave'.
  destruct (executeJob_resolved i job b s result Hcb) as (job1 & k & Hid & ->).
  cbv zeta. rewrite Hev, Hdel, Hsave. cbv [bind].
  rewrite removeOneShot_effect
    by (proj; apply findIndex_insert; [exact Hidx|];
        unfold hasId; rewrite Hid; apply String.eqb_refl).
  match goal with
  | |- context [failed _ _ ?pl ?j ?st ?m ?bb ?s0] =>
      destruct (failed_effect pl j st m bb s0 Hev' Hsave')
        as (jobE & d & k' & ev & _ & _ & _ & _ & _ & ->)
  end.
  cbv zeta. proj. rewrite delete_insert_same.
  eexists. split; [reflexivity|]. proj.
  split; [reflexivity|]. split; [reflexivity|].
  destruct (running s && enabled job).
  - rewrite lookup_insert_eq. eauto.
  - apply lookup_delete_eq.
Qed.

Lemma executeJob_throws (s : State) i job b message :
  settles b = Throw message ->
  onErrorEvent b = None -> saveAfterError b = None ->
  exists s', executeJob clock cronNext i job b s = (Throw message, s')
             /\ keptFailed i job message s s'.
Proof.
  intros Hset Hev' Hsave'. unfold settles in Hset.
  assert (Hfin : forall s1 jobA,
             jobs s1 = <[i := jobA]> (jobs s) ->
             timers s1 = timers s -> running s1 = running s ->
             exists s',
               failed clock cronNext (Some i) job (clock (reads s)) message b s1
               = (Throw message, s')
               /\ keptFailed i job message s s').
  { intros s1 jobA Hj Ht Hr.
    destruct (failed_effect (Some i) job (clock (reads s)) message b s1
                            Hev' Hsave')
      as (jobE & d & k' & ev & H1 & H2 & H3 & H4 & H5 & ->).
    cbv zeta. rewrite Hj, Ht, Hr, list_insert_insert_eq.
    eexists. split; [reflexivity|].
    exists jobE. proj. unfold list, gets. proj.
    repeat (split; [assumption || reflexivity|]).
    intros Hre. rewrite Hre, lookup_insert_eq. eauto. }
  destruct (callback b) as [result|m] eqn:Hcb.
  - destruct (onRunEvent b) as [m|] eqn:Hev; [|discriminate].
    injection Hset as ->.
    destruct (executeJob_resolved i job b s result Hcb) as (job1 & k & Hid & ->).
    cbv zeta. rewrite Hev. now apply (Hfin _ job1).
  - injection Hset as ->.
    unfold executeJob. rewrite Hcb. cbv [bind dateNow writeJob modify].
    eapply Hfin; reflexivity.
Qed.

(** The [catch] block, whatever its [onEvent] and its [save] do: it
    throws, and leaves the job marked as failed where it is. *)
Lemma failed_keeps place job startMs message b s :
  exists job1 thrown s',
    failed clock cronNext place job startMs message b s = (Throw thrown, s')
    /\ id job1 = id job
    /\ deleteAfterRun job1 = deleteAfterRun job
    /\ lastStatus (state job1) = Some StatusError
    /\ lastError (state job1) = Some message
    /\ jobs s' = match place with
                 | Some i => <[i := job1]> (jobs s)
                 | None => jobs s
                 end.
Proof.
  unfold failed. cbv [bind dateNow].
  match goal with
  | |- context [computeNextRun _ _ _ ?st] =>
      destruct (computeNextRun_frame clock cronNext (schedule job) st)
        as (v & k & Hc & _); rewrite Hc
  end.
  match goal with
  | |- context [mkEvent _ ?j _ _] => set (job1 := j)
  end.
  exists job1.
  assert (Hjobs : forall J T r st ev k0,
             jobs (mkState J T r st ev k0) = J) by reflexivity.
  unfold emit, saveOr. cbv [bind writeAt writeJob modify ret gets].
  destruct (onErrorEvent b) as [thrown|].
  - cbv [throw]. destruct place; proj; eexists _, _;
      (split; [reflexivity|]); repeat (split; [reflexivity|]); reflexivity.
  - remember (running s) as r eqn:Er.
    destruct place as [i|]; proj; rewrite <- ?Er;
      (destruct (r && enabled job);
       [ match goal with
         | |- context [scheduleJob _ _ ?j ?st] =>
             destruct (scheduleJob_effect j st) as (d & k' & Hs); rewrite Hs
         end
       | ]);
      destruct (saveAfterError b);
      cbv [save modify throw ret setTimers setStore setJobs setReads addEvent];
      proj; eexists _, _;
      (split; [reflexivity|]); repeat (split; [reflexivity|]); reflexivity.
Qed.

(** An execution that fails, whatever the [catch] block meets: the job
    is still in the list. *)
Lemma executeJob_keeps_failed (s : State) i job b message :
  settles b = Throw message ->
  exists thrown s' job1,
    executeJob clock cronNext i job b s = (Throw thrown, s')
    /\ jobs s' = <[i := job1]> (jobs s)
    /\ id job1 = id job
    /\ deleteAfterRun job1 = deleteAfterRun job
    /\ lastStatus (state job1) = Some StatusError
    /\ lastError (state job1) = Some message.
Proof.
  intros Hset. unfold settles in Hset.
  assert (Hfin : forall s1 jobA,
             jobs s1 = <[i := jobA]> (jobs s) ->
             exists thrown s' job1,
               failed clock cronNext (Some i) job (clock (reads s)) message b s1
               = (Throw thrown, s')
               /\ jobs s' = <[i := job1]> (jobs s)
               /\ id job1 = id job
               /\ deleteAfterRun job1 = deleteAfterRun job
               /\ lastStatus (state job1) = Some StatusError
               /\ lastError (state job1) = Some message).
  { intros s1 jobA Hj.
    destruct (failed_keeps (Some i) job (clock (reads s)) message b s1)
      as (jobE & thrown & s' & -> & H1 & H2 & H3 & H4 & H5).
    exists thrown, s', jobE. split; [reflexivity|].
    rewrite H5, Hj, list_insert_insert_eq. auto. }
  destruct (callback b) as [result|m] eqn:Hcb.
  - destruct (onRunEvent b) as [m|] eqn:Hev; [|discriminate].
    injection Hset as ->.
    destruct (executeJob_resolved i job b s result Hcb) as (job1 & k & Hid & ->).
    cbv zeta. rewrite Hev. now apply (Hfin _ job1).
  - injection Hset as ->.
    unfold executeJob. rewrite Hcb. cbv [bind dateNow writeJob modify].
    eapply Hfin; reflexivity.
Qed.

Lemma run_force_executes (s : State) jobId i job b :
  findIndex (hasId jobId) (jobs s) = Some i ->
  jobs s !! i = Some job ->
  run clock cronNext jobId Force b s
  = executeJob clock cronNext i job b s.
Proof.
  intros Hidx Hjob. unfold run. cbv [bind gets ret].
  rewrite Hidx, Hjob. reflexivity.
Qed.

Lemma run_due_executes (s : State) jobId i job b :
  findIndex (hasId jobId) (jobs s) = Some i ->
  jobs s !! i = Some job ->
  (forall n, nextRunAtMs (state job) = Some n -> truthyNum n = true ->
             gtNum n (clock (reads s)) = false) ->
  exists k,
    run clock cronNext jobId Due b s
    = executeJob clock cronNext i job b (setReads k s).
Proof.
  intros Hidx Hjob Hdue. unfold run. cbv [bind gets ret].
  rewrite Hidx, Hjob.
  destruct (nextRunAtMs (state job)) as [n|] eqn:En.
  - destruct (truthyNum n) eqn:Et.
    + cbv [dateNow]. rewrite (Hdue n eq_refl Et).
      now exists (S (reads s)).
    + exists (reads s). now destruct s.
  - exists (reads s). now destruct s.
Qed.

(** C1. What one execution does to a job with [deleteAfterRun = true],
    whether it is triggered by [run] in force mode, by [run] in due mode
    on a job that is due, or by its timer. When the callback resolves,
    [onEvent] returns and the store is written, the job is removed: it
    leaves the job list, no timer stays pending for it,
    [list({includeDisabled: true})] no longer shows it and the store no
    longer holds it (with unique ids, no job of that id is left). When
    the callback rejects, or [onEvent] throws on the "run" event, the
    job is not removed: it stays at its place, still a one-shot, with
    the status "error" and the message of the error, and on a running
    service the timer of an enabled job is armed again; [run] throws the
    error and the timer callback swallows it. When the [save] after the
    removal rejects, the job is out of the list and [run] throws, but on
    a running service a timer for the id of an enabled job is armed
    again. (In the last two cases the [onEvent] and the [save] of the
    [catch] block are taken to succeed.) Whatever these two do, an
    execution in which the callback rejects or [onEvent] throws on the
    "run" event throws and leaves the job in the list, still a one-shot,
    with the status "error". *)
Theorem oneshot_removed_when_callback_succeeds
    (s : State) (jobId : string) (i : nat) (job : CronJob) :
  findIndex (hasId jobId) (jobs s) = Some i ->
  jobs s !! i = Some job ->
  deleteAfterRun job = Some true ->
  let due := forall n, nextRunAtMs (state job) = Some n ->
                       truthyNum n = true ->
                       gtNum n (clock (reads s)) = false in
  (forall b result,
      callback b = Resolves result -> onRunEvent b = None ->
      saveAfterRun b = None ->
      (exists s',
          run clock cronNext jobId Force b s = (Ok result, s')
          /\ removedAt i jobId s s')
      /\ (due ->
          exists s',
            run clock cronNext jobId Due b s = (Ok result, s')
            /\ removedAt i jobId s s')
      /\ (exists s',
            timerFire clock cronNext jobId b s = (Ok tt, s')
            /\ removedAt i jobId s s'))
  /\ (NoDup (id <$> jobs s) ->
      forall j, j ∈ delete i (jobs s) -> id j <> jobId)
  /\ (forall b message,
      settles b = Throw message ->
      onErrorEvent b = None -> saveAfterError b = None ->
      (exists s',
          run clock cronNext jobId Force b s = (Throw message, s')
          /\ keptFailed i job message s s')
      /\ (due ->
          exists s',
            run clock cronNext jobId Due b s = (Throw message, s')
            /\ keptFailed i job message s s')
      /\ (exists s',
            timerFire clock cronNext jobId b s = (Ok tt, s')
            /\ keptFailed i job message s s'))
  /\ (forall b result message,
      callback b = Resolves result -> onRunEvent b = None ->
      saveAfterRun b = Some message ->
      onErrorEvent b = None -> saveAfterError b = None ->
      exists s',
        run clock cronNext jobId Force b s = (Throw message, s')
        /\ jobs s' = delete i (jobs s)
        /\ store s' = Some (delete i (jobs s))
        /\ (if running s && enabled job
            then is_Some (timers s' !! jobId)
            else timers s' !! jobId = None))
  /\ (forall b message,
      settles b = Throw message ->
      exists thrown s' job1,
        run clock cronNext jobId Force b s = (Throw thrown, s')
        /\ jobs s' = <[i := job1]> (jobs s)
        /\ id job1 = jobId
        /\ deleteAfterRun job1 = Some true
        /\ lastStatus (state job1) = Some StatusError
        /\ lastError (state job1) = Some message
        /\ fst (list true s') = Ok (jobs s')).
Proof.
  intros Hidx Hjob Hdel due.
  assert (Hid : id job = jobId).
  { destruct (findIndex_lookup _ _ _ Hidx) as (x & Hx & Hp).
    rewrite Hjob in Hx. injection Hx as <-. now apply hasId_eq. }
  assert (Htrue : isTrue (deleteAfterRun job) = true) by now rewrite Hdel.
  subst jobId. split; [|split; [|split; [|split]]].
  - intros b result Hcb Hev Hsave. split; [|split].
    + rewrite (run_force_executes s _ i job _ Hidx Hjob).
      now apply executeJob_oneshot_resolves.
    + intros Hdue.
      destruct (run_due_executes s _ i job b Hidx Hjob Hdue) as (k & ->).
      destruct (executeJob_oneshot_resolves (setReads k s) i job b result
                  Hidx Htrue Hcb Hev Hsave) as (s' & Hrun & Hgone).
      exists s'. split; [exact Hrun | exact Hgone].
    + unfold timerFire. cbv [bind modify catch ret].
      set (s0 := setTimers (delete (id job) (timers s)) s).
      rewrite (run_force_executes s0 _ i job _ Hidx Hjob).
      destruct (executeJob_oneshot_resolves s0 i job b result
                  Hidx Htrue Hcb Hev Hsave) as (s' & Hrun & Hgone).
      rewrite Hrun. exists s'. split; [reflexivity | exact Hgone].
  - intros Hnd j Hj. now apply (delete_unique_id (jobs s) i job Hnd Hjob).
  - intros b message Hset Hev' Hsave'. split; [|split].
    + rewrite (run_force_executes s _ i job _ Hidx Hjob).
      now apply executeJob_throws.
    + intros Hdue.
      destruct (run_due_executes s _ i job b Hidx Hjob Hdue) as (k & ->).
      destruct (executeJob_throws (setReads k s) i job b message
                  Hset Hev' Hsave') as (s' & Hrun & Hkept).
      exists s'. split; [exact Hrun | exact Hkept].
    + unfold timerFire. cbv [bind modify catch ret].
      set (s0 := setTimers (delete (id job) (timers s)) s).
      rewrite (run_force_executes s0 _ i job _ Hidx Hjob).
      destruct (executeJob_throws s0 i job b message Hset Hev' Hsave')
        as (s' & Hrun & Hkept).
      rewrite Hrun. exists s'. split; [reflexivity | exact Hkept].
  - intros b result message Hcb Hev Hsave Hev' Hsave'.
    rewrite (run_force_executes s _ i job _ Hidx Hjob).
    now apply (executeJob_oneshot_unsaved s i job b result message).
  - intros b message Hset.
    rewrite (run_force_executes s _ i job _ Hidx Hjob).
    destruct (executeJob_keeps_failed s i job b message Hset)
      as (thrown & s' & job1 & -> & Hj & H1 & H2 & H3 & H4).
    exists thrown, s', job1. split; [reflexivity|].
    split; [exact Hj|]. split; [exact H1|]. split; [congruence|].
    split; [exact H3|]. split; [exact H4|]. reflexivity.
Qed.

End CronOneShot.

Lemma oneshot_removed_when_callback_succeeds_witness :
  exists s',
    CronService.run (fun _ => 1000) (fun _ _ _ => None) "b" CronService.Force
      (CronService.succeeds (Some "done")) reminderService
    = (CronService.Ok (Some "done"), s')
    /\ CronService.jobs s' = [] /\ CronService.timers s' !! "b" = None.
Proof.
  destruct (oneshot_removed_when_callback_succeeds (fun _ => 1000)
              (fun _ _ _ => None) reminderService "b" 0%nat reminderJob
              eq_refl eq_refl eq_refl) as [Hok _].
  destruct (Hok (CronService.succeeds (Some "done")) (Some "done")
                eq_refl eq_refl eq_refl) as [Hforce _].
  destruct Hforce as (s' & Hrun & Hjobs & Htimer & _).
  exists s'. repeat split; assumption.
Defined.

(** C1 as stated fails when the callback throws: the one-shot job below is
    run in force mode, the callback rejects, and the job is still listed,
    marked with the error, and its timer is armed again (for [now + 1000]);
    the same when its timer fires. *)
Lemma oneshot_kept_when_callback_throws :
  let r := CronService.run (fun _ => 1000) (fun _ _ _ => None) "b"
             CronService.Force (CronService.fails "boom") reminderService in
  let t := CronService.timerFire (fun _ => 1000) (fun _ _ _ => None) "b"
             (CronService.fails "boom") reminderService in
  fst r = CronService.Throw "boom"
  /\ CronService.id <$> CronService.jobs (snd r) = ["b"]
  /\ (CronService.lastStatus ∘ CronService.state) <$> CronService.jobs (snd r)
     = [Some CronService.StatusError]
  /\ fst (CronService.list true (snd r)) = CronService.Ok (CronService.jobs (snd r))
  /\ CronService.timers (snd r) !! "b" = Some (CronService.Num 1000)
  /\ CronService.jobs (snd t) = CronService.jobs (snd r)
  /\ CronService.timers (snd t) !! "b" = Some (CronService.Num 1000).
Proof. cbv zeta. repeat split; vm_compute; reflexivity. Qed.

(** * Per-agent server: no serialisation of [/chat] turns *)
Section AgentServerChat.
Import AgentServer.
Local Open Scope list_scope.

(** C2 (as amended). The handler of [POST /chat] takes the session from the
    server's own cache and calls [prompt] on it itself. A request whose
    session is cached makes its [prompt] call on arrival, and a request
    that had to wait for a new session makes it when the creation settles,
    in both cases next to whatever [prompt] calls are in flight, on the same
    session or on others: the handler does not look at the calls in flight,
    whose list only grows by the new one. *)
Theorem chat_prompt_not_serialised
    (s : State) (r : nat) (c : ascii) (text : string)
    (provided : option string) (cryptoSuffix : string) :
  let sessionId := computeSessionId provided cryptoSuffix in
  let s' := chat r (Some (String c text)) provided cryptoSuffix s in
  (forall session, sessions s !! sessionId = Some session ->
     prompting s' = prompting s ++ [(r, sessionId, session)]
     /\ sessions s' = sessions s /\ replies s' = replies s)
  /\ (sessions s !! sessionId = None ->
      creating s' = creating s ++ [(r, sessionId)]
      /\ prompting s' = prompting s /\ sessions s' = sessions s)
  /\ (forall sid, lookupRequest r (creating s) = Some sid ->
      prompting (sessionCreated r None s)
      = prompting s ++ [(r, sid, nextSession s)]
      /\ sessions (sessionCreated r None s) !! sid = Some (nextSession s)).
Proof.
  cbv zeta. split; [|split].
  - intros session Hs. unfold chat. now rewrite Hs.
  - intros Hs. unfold chat. now rewrite Hs.
  - intros sid Hsid. unfold sessionCreated. rewrite Hsid.
    cbn [startPrompt prompting sessions nextSession].
    split; [reflexivity | apply lookup_insert_eq].
Qed.

Lemma chat_prompt_not_serialised_witness :
  prompting (run twoTurnsAtOnce init)
  = prompting (run (take 4 twoTurnsAtOnce) init) ++ [(2%nat, hardenedId, 0%nat)].
Proof.
  destruct (chat_prompt_not_serialised (run (take 4 twoTurnsAtOnce) init)
              2 "A" "nd twice that?" (Some hardenedId) someSuffix)
    as (Hcached & _).
  destruct (Hcached 0%nat) as (Hprompt & _).
  - vm_compute. reflexivity.
  - exact Hprompt.
Defined.

(** C2 as stated fails: the server does not serialise turns of one
    session. After a first turn on a session id, two requests with that id
    arrive; both [prompt] calls are in flight at once, on the same session
    object. And two first requests for a new id each create a session:
    their [prompt] calls run at once on two different objects. *)
Lemma same_session_prompts_overlap :
  prompting (run twoTurnsAtOnce init)
  = [(1%nat, hardenedId, 0%nat); (2%nat, hardenedId, 0%nat)]
  /\ prompting (run twoFirstTurns init)
     = [(1%nat, hardenedId, 0%nat); (2%nat, hardenedId, 1%nat)].
Proof. split; vm_compute; reflexivity. Qed.

End AgentServerChat.

(** * Local backend: reconciliation *)
Section Reconciliation.
Import LocalBackend.
Local Open Scope list_scope.
Variable w : World.
Variable agentsDir : string.

Lemma loadAgent_other agentId other (s : State) :
  other <> agentId ->
  agents (loadAgent w agentsDir agentId s) !! other = agents s !! other
  /\ pidFiles (loadAgent w agentsDir agentId s) !! other = pidFiles s !! other.
Proof.
  intros Hne. unfold loadAgent.
  destruct (metaFiles w !! agentId) as [[|meta]|]; [| |auto].
  { cbn [agents pidFiles]. rewrite lookup_delete_ne by auto. auto. }
  destruct (pidFiles s !! agentId) as [pidStr|];
    [destruct (signalZero w (parseInt pidStr))|];
    cbn [agents pidFiles]; rewrite ?lookup_insert_ne, ?lookup_delete_ne by auto;
    auto.
Qed.

(** A later pass over other directories leaves an agent as it is. *)
Lemma loadExistingAgents_other entries agentId (s : State) :
  agentId ∉ name <$> entries ->
  agents (loadExistingAgents w agentsDir entries s) !! agentId
  = agents s !! agentId
  /\ pidFiles (loadExistingAgents w agentsDir entries s) !! agentId
     = pidFiles s !! agentId.
Proof.
  revert s. induction entries as [|e entries IH]; intros s Hnot; [auto|].
  cbn [fmap list_fmap] in Hnot. apply not_elem_of_cons in Hnot as [Hne Hnot].
  cbn [loadExistingAgents fold_left].
  change (fold_left _ entries ?st) with (loadExistingAgents w agentsDir entries st).
  destruct (IH (if isDirectory e then loadAgent w agentsDir (name e) s else s) Hnot)
    as [-> ->].
  destruct (isDirectory e); [|auto]. now apply loadAgent_other.
Qed.

(** The whole loop treats a directory like its own pass alone does. *)
Lemma loadExistingAgents_at entries agentId (s : State) :
  NoDup (name <$> entries) ->
  mkDirent agentId true ∈ entries ->
  exists s0,
    agents s0 !! agentId = agents s !! agentId
    /\ pidFiles s0 !! agentId = pidFiles s !! agentId
    /\ agents (loadExistingAgents w agentsDir entries s) !! agentId
       = agents (loadAgent w agentsDir agentId s0) !! agentId
    /\ pidFiles (loadExistingAgents w agentsDir entries s) !! agentId
       = pidFiles (loadAgent w agentsDir agentId s0) !! agentId.
Proof.
  revert s. induction entries as [|e entries IH]; intros s Hnd Hin.
  - now apply elem_of_nil in Hin.
  - cbn [fmap list_fmap] in Hnd. apply NoDup_cons in Hnd as [Hfresh Hnd].
    cbn [loadExistingAgents fold_left].
    change (fold_left _ entries ?st) with (loadExistingAgents w agentsDir entries st).
    apply elem_of_cons in Hin as [<-|Hin].
    + cbn [isDirectory name] in *. exists s.
      destruct (loadExistingAgents_other entries agentId
                  (loadAgent w agentsDir agentId s) Hfresh) as [-> ->].
      repeat split.
    + assert (Hne : agentId <> name e).
      { intros ->. apply Hfresh.
        change (name e) with (name (mkDirent (name e) true)).
        now apply list_elem_of_fmap_2. }
      destruct (IH (if isDirectory e then loadAgent w agentsDir (name e) s else s)
                   Hnd Hin) as (s0 & Ha & Hp & Hra & Hrp).
      exists s0. rewrite Ha, Hp. repeat split; try assumption.
      * destruct (isDirectory e); [|reflexivity]. now apply loadAgent_other.
      * destruct (isDirectory e); [|reflexivity]. now apply loadAgent_other.
Qed.

(** What one pass does to its agent, by the state of [server.pid]. *)
Lemma loadAgent_at agentId meta (s : State) :
  metaFiles w !! agentId = Some (MetaValue meta) ->
  let s' := loadAgent w agentsDir agentId s in
  exists info,
    agents s' !! agentId = Some info
    /\ id info = agentId /\ createdAt info = metaCreatedAt meta
    /\ match pidFiles s !! agentId with
       | None =>
           status info = stopped /\ port info = None /\ pid info = None
           /\ pidFiles s' !! agentId = None
       | Some pidStr =>
           if signalZero w (parseInt pidStr) then
             if respondsOk w (metaPort meta) then
               status info = running /\ port info = metaPort meta
               /\ pid info = parseInt pidStr
               /\ pidFiles s' !! agentId = Some pidStr
             else
               status info = stopped /\ port info = None /\ pid info = None
               /\ pidFiles s' !! agentId = Some pidStr
           else
             status info = stopped /\ port info = None /\ pid info = None
             /\ pidFiles s' !! agentId = None
       end.
Proof.
  intros Hmeta. cbv zeta. unfold loadAgent. rewrite Hmeta.
  destruct (pidFiles s !! agentId) as [pidStr|] eqn:Epid.
  - destruct (signalZero w (parseInt pidStr)).
    + destruct (respondsOk w (metaPort meta));
        cbn [agents pidFiles]; rewrite lookup_insert_eq; eexists;
        (split; [reflexivity|]); cbn; repeat split; auto.
    + cbn [agents pidFiles]. rewrite lookup_insert_eq, lookup_delete_eq.
      eexists; (split; [reflexivity|]); cbn; repeat split; auto.
  - cbn [agents pidFiles]. rewrite lookup_insert_eq, lookup_delete_eq.
    eexists; (split; [reflexivity|]); cbn; repeat split; auto.
Qed.

(** C4 (as amended). After reconciliation over the directory listing,
    each agent directory whose [meta.json] reads and parses to a value
    other than [null] (its [createdAt] and [port], where present, being
    integers) has a record. Without a [server.pid] file, or when
    the recorded pid does not answer signal 0, the record is stopped with
    port and pid cleared and no [server.pid] file remains. When the
    process is alive and [/health] at the stored port answers ok, the
    record is running with that port and pid, and the file stays. When
    the process is alive but the health check fails, the record is
    stopped with port and pid cleared, and the [server.pid] file is left
    in place. A directory whose [meta.json] holds [null] gets no record
    and loses its [server.pid] file, whatever the process and the server
    do; a directory whose [meta.json] does not read or parse gets no
    record and keeps its [server.pid] file. *)
Theorem reconciliation_by_pid_and_health
    (entries : Datatypes.list Dirent) (s : State) (agentId : string) :
  NoDup (name <$> entries) ->
  mkDirent agentId true ∈ entries ->
  let s' := loadExistingAgents w agentsDir entries s in
  (forall meta, metaFiles w !! agentId = Some (MetaValue meta) ->
   exists info,
    agents s' !! agentId = Some info
    /\ id info = agentId
    /\ (pidFiles s !! agentId = None ->
        status info = stopped /\ port info = None /\ pid info = None
        /\ pidFiles s' !! agentId = None)
    /\ (forall pidStr, pidFiles s !! agentId = Some pidStr ->
        signalZero w (parseInt pidStr) = false ->
        status info = stopped /\ port info = None /\ pid info = None
        /\ pidFiles s' !! agentId = None)
    /\ (forall pidStr, pidFiles s !! agentId = Some pidStr ->
        signalZero w (parseInt pidStr) = true ->
        respondsOk w (metaPort meta) = true ->
        status info = running /\ port info = metaPort meta
        /\ pid info = parseInt pidStr
        /\ pidFiles s' !! agentId = Some pidStr)
    /\ (forall pidStr, pidFiles s !! agentId = Some pidStr ->
        signalZero w (parseInt pidStr) = true ->
        respondsOk w (metaPort meta) = false ->
        status info = stopped /\ port info = None /\ pid info = None
        /\ pidFiles s' !! agentId = Some pidStr))
  /\ (metaFiles w !! agentId = Some MetaNull ->
      agents s' !! agentId = agents s !! agentId
      /\ pidFiles s' !! agentId = None)
  /\ (metaFiles w !! agentId = None ->
      agents s' !! agentId = agents s !! agentId
      /\ pidFiles s' !! agentId = pidFiles s !! agentId).
Proof.
  intros Hnd Hin. cbv zeta.
  destruct (loadExistingAgents_at entries agentId s Hnd Hin)
    as (s0 & Ha & Hp & -> & ->).
  split; [|split].
  - intros meta Hmeta.
    destruct (loadAgent_at agentId meta s0 Hmeta)
      as (info & Hinfo & Hid & _ & Hcase).
    exists info. rewrite Hp in Hcase.
    split; [exact Hinfo|]. split; [exact Hid|].
    split; [|split; [|split]].
    + intros E. rewrite E in Hcase. exact Hcase.
    + intros pidStr E Hsig. rewrite E, Hsig in Hcase. exact Hcase.
    + intros pidStr E Hsig Hok. rewrite E, Hsig, Hok in Hcase. exact Hcase.
    + intros pidStr E Hsig Hok. rewrite E, Hsig, Hok in Hcase. exact Hcase.
  - intros Hmeta. unfold loadAgent. rewrite Hmeta. cbn [agents pidFiles].
    split; [exact Ha | apply lookup_delete_eq].
  - intros Hmeta. unfold loadAgent. rewrite Hmeta. now split.
Qed.

End Reconciliation.

Lemma reconciliation_by_pid_and_health_witness :
  exists info,
    LocalBackend.agents
      (LocalBackend.loadExistingAgents deadWorld "data/agents" workerListing
         workerOnDisk) !! "worker" = Some info
    /\ LocalBackend.status info = LocalBackend.stopped
    /\ LocalBackend.pidFiles
         (LocalBackend.loadExistingAgents deadWorld "data/agents" workerListing
            workerOnDisk) !! "worker" = None.
Proof.
  destruct (reconciliation_by_pid_and_health deadWorld "data/agents"
              workerListing workerOnDisk "worker") as (Hvalue & _).
  - cbn. apply NoDup_singleton.
  - apply list_elem_of_singleton. reflexivity.
  - destruct (Hvalue (LocalBackend.mkMeta (Some 1) (Some 9000)) eq_refl)
      as (info & Hinfo & _ & _ & Hdead & _).
    exists info. split; [exact Hinfo|].
    destruct (Hdead "4242" eq_refl eq_refl) as (Hst & _ & _ & Hfile).
    split; assumption.
Defined.

(** C4 as stated fails when the process is alive and the health check fails:
    the agent is marked stopped with port and pid cleared, but the
    [server.pid] file is not erased. *)
Lemma pid_file_kept_when_health_fails :
  let s' := LocalBackend.loadExistingAgents hungWorld "data/agents"
              workerListing workerOnDisk in
  LocalBackend.signalZero hungWorld (LocalBackend.parseInt "4242") = true
  /\ LocalBackend.respondsOk hungWorld (Some 9000) = false
  /\ (LocalBackend.status <$> LocalBackend.agents s' !! "worker")
     = Some LocalBackend.stopped
  /\ (LocalBackend.port <$> LocalBackend.agents s' !! "worker") = Some None
  /\ LocalBackend.pidFiles s' !! "worker" = Some "4242".
Proof. cbv zeta. repeat split; vm_compute; reflexivity. Qed.

(** With [null] in [meta.json], the [server.pid] file of a server that
    runs and answers is erased, and the agent gets no record. *)
Lemma pid_file_erased_when_meta_is_null :
  let s' := LocalBackend.loadExistingAgents nullMetaWorld "data/agents"
              workerListing workerOnDisk in
  LocalBackend.signalZero nullMetaWorld (LocalBackend.parseInt "4242") = true
  /\ LocalBackend.healthy nullMetaWorld 9000 = true
  /\ LocalBackend.agents s' !! "worker" = None
  /\ LocalBackend.pidFiles s' !! "worker" = None.
Proof. cbv zeta. repeat split; vm_compute; reflexivity. Qed.

(** * Session keys: parent keys, normal forms and what parsing keeps *)
Section SessionKeyMore.
Import SessionKey.

Lemma replaceDisallowed_id s :
  everyChar allowedChar s = true -> replaceDisallowed s = s.
Proof.
  induction s as [|c s IH]; simpl; [reflexivity|].
  intros [Hc Hs]%andb_prop. now rewrite Hc, (IH Hs).
Qed.

Lemma startsWith_split n s :
  startsWith n s = true -> exists b, s = n ++ b.
Proof.
  revert s. induction n as [|c n IH]; intros s H.
  - exists s. reflexivity.
  - destruct s as [|d s]; [discriminate|]. cbn [startsWith] in H.
    apply andb_prop in H as [Hcd Hn]. apply Ascii.eqb_eq in Hcd. subst d.
    destruct (IH s Hn) as [b ->]. exists b. reflexivity.
Qed.

(** A found needle splits the string around its first occurrence. *)
Lemma indexOf_split n s :
  0 <= indexOf n s ->
  exists a b, s = a ++ n ++ b /\ Z.of_nat (String.length a) = indexOf n s.
Proof.
  induction s as [|c s IH]; cbn [indexOf].
  - destruct (startsWith n "") eqn:E; [|lia].
    intros _. destruct (startsWith_split n "" E) as [b Hb].
    exists "", b. split; [exact Hb | reflexivity].
  - destruct (startsWith n (String c s)) eqn:E.
    + intros _. destruct (startsWith_split n _ E) as [b Hb].
      exists "", b. split; [exact Hb | reflexivity].
    + destruct (indexOf n s <? 0) eqn:E'; [lia|].
      apply Z.ltb_ge in E'. intros _.
      destruct (IH E') as (a & b & Hs & Hlen).
      exists (String c a), b. split.
      * rewrite str_app_cons. now f_equal.
      * simpl String.length. lia.
Qed.

(** Before the first separator there is no separator. *)
Lemma indexOf_colon_split s :
  0 <= indexOf ":" s ->
  exists a b, s = a ++ ":" ++ b
              /\ Z.of_nat (String.length a) = indexOf ":" s
              /\ everyChar (fun c => negb (Ascii.eqb ":" c)) a = true.
Proof.
  induction s as [|c s IH]; cbn [indexOf startsWith]; [lia|].
  destruct (Ascii.eqb ":" c) eqn:E.
  - intros _. apply Ascii.eqb_eq in E. subst c.
    exists "", s. cbn [andb]. split; [reflexivity|]. split; reflexivity.
  - cbn [andb]. destruct (indexOf ":" s <? 0) eqn:E'; [lia|].
    apply Z.ltb_ge in E'. intros _.
    destruct (IH E') as (a & b & Hs & Hlen & Ha).
    exists (String c a), b. split; [|split].
    + rewrite str_app_cons. now f_equal.
    + simpl String.length. lia.
    + cbn [everyChar]. now rewrite E, Ha.
Qed.

Lemma parseBaseKey_split key c h :
  parseBaseKey key = Some (c, h) ->
  key = c ++ ":" ++ h /\ c <> "" /\ h <> ""
  /\ everyChar (fun x => negb (Ascii.eqb ":" x)) c = true.
Proof.
  unfold parseBaseKey. cbv zeta.
  destruct (indexOf ":" key <=? 0) eqn:E; [discriminate|].
  apply Z.leb_gt in E.
  destruct (indexOf_colon_split key ltac:(lia)) as (a & b & Hkey & Hlen & Ha).
  subst key. rewrite <- Hlen.
  rewrite slice_app_l, sliceFrom_after_colon.
  destruct (truthy a) eqn:Ta; [|discriminate].
  destruct (truthy b) eqn:Tb; [|discriminate].
  cbn [negb orb]. intros [= <- <-].
  split; [reflexivity|].
  split; [|split]; [now destruct a | now destruct b | exact Ha].
Qed.

(** X1. The parent of a thread key is its base key; a key built without a
    thread id has no parent. The chat id "thread" is left out: there the
    first marker starts at the channel separator. *)
Theorem parent_of_built_key (p : SessionKeyParts) :
  normalize (chatId p) <> "thread" ->
  getParentSessionKey (buildSessionKey p)
  = match threadId p with
    | Some t =>
        if truthy t
        then Some (buildSessionKey (mkParts (channel p) (chatId p) None))
        else None
    | None => None
    end.
Proof.
  intros Hne. destruct p as [ch ci th]. cbn [channel chatId threadId] in *.
  pose proof (normalize_allowed ch) as Hc.
  pose proof (normalize_allowed ci) as Hh.
  unfold buildSessionKey. cbn [channel chatId threadId].
  set (c := normalize ch) in *. set (h := normalize ci) in *.
  assert (Hplain : getParentSessionKey (c ++ ":" ++ h) = None).
  { unfold getParentSessionKey. now rewrite (indexOf_thread_plain c h Hc Hh). }
  destruct th as [t|]; [|exact Hplain].
  destruct (truthy t); [|exact Hplain].
  unfold getParentSessionKey. cbv zeta.
  assert (Hidx : indexOf ":thread:" ((c ++ ":" ++ h) ++ ":thread:" ++ normalize t)
                 = Z.of_nat (String.length (c ++ ":" ++ h))).
  { rewrite (app_assoc_str c (":" ++ h)), (app_assoc_str ":" h).
    apply (indexOf_thread_marked c h (normalize t) Hc Hh Hne). }
  rewrite !Hidx.
  assert (Hpos : (Z.of_nat (String.length (c ++ ":" ++ h)) <=? 0) = false).
  { apply Z.leb_gt. rewrite strlen_app. simpl String.length. lia. }
  now rewrite Hpos, slice_app_l.
Qed.

Lemma parent_of_built_key_witness :
  getParentSessionKey
    (buildSessionKey (mkParts "Discord" "Channel 7" (Some "T1")))
  = Some "discord:channel-7".
Proof.
  apply (parent_of_built_key (mkParts "Discord" "Channel 7" (Some "T1"))).
  vm_compute. congruence.
Defined.

(** X2. Normalizing twice is normalizing once: a normalized component is kept
    as it is when it goes through [buildSessionKey] again. *)
Theorem normalize_idempotent (v : string) :
  normalize (normalize v) = normalize v.
Proof.
  pose proof (normalize_allowed v) as H.
  set (n := normalize v) in *. unfold normalize.
  rewrite (trim_keyChars n (allowed_keyChars n H)).
  rewrite (toLowerCase_keyChars n (allowed_keyChars n H)).
  now apply replaceDisallowed_id.
Qed.

(** X3. Whatever [parseSessionKey] accepts, it keeps: the components are not
    empty, the channel holds no separator, and putting the components
    back together gives the trimmed, lower-cased key. *)
Theorem parse_keeps_the_key (k : string) (q : SessionKeyParts) :
  parseSessionKey k = Some q ->
  channel q <> "" /\ chatId q <> ""
  /\ everyChar (fun c => negb (Ascii.eqb ":" c)) (channel q) = true
  /\ toLowerCase (trim k)
     = channel q ++ ":" ++ chatId q
       ++ match threadId q with
          | Some t => ":thread:" ++ t
          | None => ""
          end.
Proof.
  unfold parseSessionKey. cbv zeta.
  set (s := toLowerCase (trim k)).
  destruct (truthy s); cbn [negb]; [|discriminate].
  destruct (0 <? indexOf ":thread:" s) eqn:E.
  - apply Z.ltb_lt in E.
    destruct (indexOf_split ":thread:" s ltac:(lia)) as (a & b & Hs & Hlen).
    clearbody s. subst s. rewrite <- Hlen.
    rewrite slice_app_l.
    replace (sliceFrom (a ++ ":thread:" ++ b) (Z.of_nat (String.length a) + 8))
      with b.
    2:{ rewrite <- (app_assoc_str a ":thread:" b).
        replace (Z.of_nat (String.length a) + 8)
          with (Z.of_nat (String.length (a ++ ":thread:"))).
        - now rewrite sliceFrom_app_r.
        - rewrite strlen_app. change (String.length ":thread:") with 8%nat. lia. }
    destruct (parseBaseKey a) as [[c h]|] eqn:Eb; [|discriminate].
    intros [= <-]. cbn [channel chatId threadId].
    destruct (parseBaseKey_split a c h Eb) as (Ha & Hc & Hh & Hcol).
    split; [exact Hc|]. split; [exact Hh|]. split; [exact Hcol|].
    rewrite Ha. now rewrite !app_assoc_str.
  - destruct (parseBaseKey s) as [[c h]|] eqn:Eb; [|discriminate].
    intros [= <-]. cbn [channel chatId threadId].
    destruct (parseBaseKey_split s c h Eb) as (Ha & Hc & Hh & Hcol).
    split; [exact Hc|]. split; [exact Hh|]. split; [exact Hcol|].
    rewrite Ha. f_equal. f_equal.
    clear. induction h as [|x h IH]; [reflexivity|].
    now rewrite str_app_cons, <- IH.
Qed.

Lemma parse_keeps_the_key_witness :
  toLowerCase (trim "  Telegram:DM:42:thread:Topic.9 ")
  = "telegram" ++ ":" ++ "dm:42" ++ ":thread:" ++ "topic.9".
Proof.
  exact (proj2 (proj2 (proj2
    (parse_keeps_the_key "  Telegram:DM:42:thread:Topic.9 "
       (mkParts "telegram" "dm:42" (Some "topic.9")) eq_refl)))).
Defined.

End SessionKeyMore.

(** * Message bus: outbound fan-out *)
Section BusOutbound.
Import MessageBus.
Local Open Scope list_scope.

Lemma subscribedTo_snoc chan us u :
  subscribedTo chan (us ++ [u])
  = subscribedTo chan us
    ++ match u with
       | Subscribe c cb => if String.eqb c chan then [cb] else []
       | _ => []
       end.
Proof.
  unfold subscribedTo. rewrite omap_app. f_equal.
  destruct u as [c|m|c cb]; try reflexivity.
  cbn. now destruct (String.eqb c chan).
Qed.

Lemma inboundOf_snoc us u :
  inboundOf (us ++ [u])
  = inboundOf us ++ match u with Inbound c => [c] | _ => [] end.
Proof. unfold inboundOf. rewrite omap_app. now destruct u. Qed.

Lemma subscribersInv_step before s u :
  subscribersInv before s -> subscribersInv (before ++ [u]) (use s u).
Proof.
  intros Inv chan. rewrite subscribedTo_snoc, <- (Inv chan).
  destruct u as [[m|]|m|c cb]; cbn [use call].
  - unfold publishInbound. destruct (resolvers s); cbn; now rewrite app_nil_r.
  - unfold consumeInbound. destruct (queue s); cbn; now rewrite app_nil_r.
  - cbn. now rewrite app_nil_r.
  - unfold subscribe. cbn [subscribers].
    destruct (String.eqb c chan) eqn:E.
    + apply String.eqb_eq in E. subst c. now rewrite lookup_insert_eq.
    + apply String.eqb_neq in E. rewrite lookup_insert_ne by exact E.
      now rewrite app_nil_r.
Qed.

Lemma notified_uses us : forall before s,
  subscribersInv before s ->
  notified (uses us s) = notified s ++ deliveries before us.
Proof.
  induction us as [|u us IH]; intros before s Inv; cbn [uses fold_left deliveries].
  - now rewrite app_nil_r.
  - change (fold_left use us (use s u)) with (uses us (use s u)).
    rewrite (IH (before ++ [u]) (use s u) (subscribersInv_step before s u Inv)).
    rewrite app_assoc. f_equal.
    destruct u as [[m|]|m|c cb]; cbn [use call].
    + unfold publishInbound. destruct (resolvers s); cbn; now rewrite app_nil_r.
    + unfold consumeInbound. destruct (queue s); cbn; now rewrite app_nil_r.
    + cbn [publishOutbound notified]. now rewrite (Inv (channel m)).
    + cbn. now rewrite app_nil_r.
Qed.

Lemma inboundSide_use s s' u :
  inboundSide s = inboundSide s' ->
  inboundSide (use s u)
  = inboundSide (match u with Inbound c => call s' c | _ => s' end).
Proof.
  unfold inboundSide. intros [= Hq Hr Hn Hs].
  destruct u as [[m|]|m|c cb]; cbn [use call].
  - unfold publishInbound. rewrite Hr. destruct (resolvers s'); cbn; congruence.
  - unfold consumeInbound. rewrite Hq. destruct (queue s'); cbn; congruence.
  - cbn. congruence.
  - cbn. congruence.
Qed.

Lemma inboundSide_uses us : forall s s',
  inboundSide s = inboundSide s' ->
  inboundSide (uses us s) = inboundSide (calls (inboundOf us) s').
Proof.
  induction us as [|u us IH]; intros s s' H; [exact H|].
  cbn [uses fold_left].
  change (fold_left use us (use s u)) with (uses us (use s u)).
  rewrite (IH _ _ (inboundSide_use s s' u H)).
  destruct u as [c|m|c cb]; reflexivity.
Qed.

(** X4. An outbound message is handed, at once and in subscription order, to
    the callbacks subscribed to its channel before it was published, and
    to no other: nothing is kept for later subscribers, and a message on
    a channel without subscribers is dropped. The inbound queue, the
    waiting consumers and the resolved promises are those of the inbound
    calls alone. *)
Theorem outbound_fanout (us : list Use) :
  notified (uses us empty) = deliveries [] us
  /\ queue (uses us empty) = queue (calls (inboundOf us) empty)
  /\ resolvers (uses us empty) = resolvers (calls (inboundOf us) empty)
  /\ settled (uses us empty) = settled (calls (inboundOf us) empty).
Proof.
  split.
  - rewrite (notified_uses us [] empty); [reflexivity|].
    intros chan. reflexivity.
  - pose proof (inboundSide_uses us empty empty eq_refl) as H.
    unfold inboundSide in H. injection H as Hq Hr _ Hs. auto.
Qed.

End BusOutbound.

(** * Memory provider: ranking, listing and relevance *)
Section MemoryRanking.
Import FileMemoryProvider.
Local Open Scope list_scope.
Variable scoreOf : MemorySearchOptions -> Z -> MemoryEntry -> Q.

(** X5. The results come best first, and what [search] leaves out does not
    score higher than anything it returns: the cut at [maxResults] keeps
    the best candidates. *)
Theorem search_ranked (opts : MemorySearchOptions) (now : Z)
        (entries : Datatypes.list MemoryEntry) :
  StronglySorted (fun a b => (score b <= score a)%Q)
                 (search scoreOf opts now entries)
  /\ forall r c,
       In r (search scoreOf opts now entries) ->
       In c (scored scoreOf opts now entries) ->
       ~ In c (search scoreOf opts now entries) ->
       (score c <= score r)%Q.
Proof.
  unfold search, sliceTo.
  set (l := sortByScore (scored scoreOf opts now entries)).
  set (k := Z.to_nat _).
  pose proof (sortByScore_sorted (scored scoreOf opts now entries)) as Hs.
  fold l in Hs. rewrite <- (firstn_skipn k l) in Hs.
  destruct (sorted_app_inv _ _ _ Hs) as [Hfirst Hcross].
  split; [exact Hfirst|].
  intros r c Hr Hc Hnot.
  apply (Hcross r c Hr).
  apply (Permutation_in _ (Permutation_sym (sortByScore_perm _))) in Hc.
  fold l in Hc. rewrite <- (firstn_skipn k l) in Hc.
  apply in_app_or in Hc as [Hc|Hc]; [contradiction | exact Hc].
Qed.

End MemoryRanking.

Section MemoryListing.
Import FileMemoryProvider.
Local Open Scope list_scope.

Let newestFirst (a b : MemoryEntry) : Prop := createdAt b <= createdAt a.

Lemma insertByCreatedAt_perm e l :
  Permutation (insertByCreatedAt e l) (e :: l).
Proof.
  induction l as [|x l IH]; cbn [insertByCreatedAt]; [reflexivity|].
  destruct (createdAt x <=? createdAt e); [reflexivity|].
  rewrite IH. apply perm_swap.
Qed.

Lemma sortByCreatedAt_perm l : Permutation (sortByCreatedAt l) l.
Proof.
  induction l as [|e l IH]; cbn [sortByCreatedAt]; [reflexivity|].
  rewrite insertByCreatedAt_perm. now apply perm_skip.
Qed.

Lemma insertByCreatedAt_sorted e l :
  StronglySorted newestFirst l ->
  StronglySorted newestFirst (insertByCreatedAt e l).
Proof.
  induction l as [|x l IH]; cbn [insertByCreatedAt]; intros Hs.
  - constructor; [constructor | constructor].
  - apply StronglySorted_inv in Hs as [Hl Hx].
    destruct (createdAt x <=? createdAt e) eqn:E.
    + apply Z.leb_le in E.
      constructor; [constructor; assumption|].
      constructor; [exact E|].
      eapply List.Forall_impl; [|exact Hx].
      intros y Hy. unfold newestFirst in *. lia.
    + apply Z.leb_gt in E.
      constructor; [now apply IH|].
      apply List.Forall_forall. intros y Hy.
      apply (Permutation_in _ (insertByCreatedAt_perm e l)) in Hy.
      destruct Hy as [<-|Hy].
      * unfold newestFirst. lia.
      * rewrite List.Forall_forall in Hx. now apply Hx.
Qed.

Lemma sortByCreatedAt_sorted l :
  StronglySorted newestFirst (sortByCreatedAt l).
Proof.
  induction l as [|e l IH]; cbn [sortByCreatedAt]; [constructor|].
  now apply insertByCreatedAt_sorted.
Qed.

(** Sorting a list that is already newest-first leaves it as it is. *)
Lemma sortByCreatedAt_fixed l :
  StronglySorted newestFirst l -> sortByCreatedAt l = l.
Proof.
  induction l as [|e l IH]; cbn [sortByCreatedAt]; [reflexivity|].
  intros Hs. apply StronglySorted_inv in Hs as [Hl He].
  rewrite (IH Hl). destruct l as [|x l]; [reflexivity|].
  cbn [insertByCreatedAt].
  apply List.Forall_inv in He. unfold newestFirst in He.
  apply Z.leb_le in He. now rewrite He.
Qed.

Lemma sliceList_In {A} (l : Datatypes.list A) first last x :
  In x (sliceList l first last) -> In x l.
Proof.
  unfold sliceList. cbv zeta.
  set (k := Z.to_nat (Z.max _ 0)). set (j := Z.to_nat _). intros H.
  rewrite <- (firstn_skipn j l). apply in_or_app. right.
  rewrite <- (firstn_skipn k (skipn j l)). apply in_or_app. now left.
Qed.

Lemma sorted_firstn {A} (R : A -> A -> Prop) n (l : Datatypes.list A) :
  StronglySorted R l -> StronglySorted R (firstn n l).
Proof.
  intros H. rewrite <- (firstn_skipn n l) in H.
  revert H. generalize (firstn n l) (skipn n l). clear.
  intros l1 l2. induction l1 as [|a l1 IH]; cbn [app]; intros Hs.
  - constructor.
  - apply StronglySorted_inv in Hs as [Hl Ha].
    constructor; [now apply IH|].
    rewrite List.Forall_forall in *. intros y Hy. apply Ha.
    apply in_or_app. now left.
Qed.

Lemma sorted_skipn {A} (R : A -> A -> Prop) n (l : Datatypes.list A) :
  StronglySorted R l -> StronglySorted R (skipn n l).
Proof.
  revert l. induction n as [|n IH]; intros [|a l] H; cbn [skipn]; auto.
  apply StronglySorted_inv in H as [Hl _]. now apply IH.
Qed.

(** X6. [list] returns entries that pass the tag filter, newest first. It
    never adds or drops an entry of the cache, but without a tag filter
    it leaves the cache itself sorted newest first; with a tag filter the
    cache keeps its order. *)
Theorem list_newest_first (opts : option ListOptions)
        (cache : Datatypes.list MemoryEntry) :
  StronglySorted (fun a b => createdAt b <= createdAt a)
                 (fst (list opts cache))
  /\ (forall e, In e (fst (list opts cache)) ->
                In e (filterTags (opts ≫= listTags) cache))
  /\ Permutation (snd (list opts cache)) cache
  /\ snd (list opts cache)
     = match opts ≫= listTags with
       | Some (_ :: _) => cache
       | _ => sortByCreatedAt cache
       end.
Proof.
  unfold list. cbv zeta. cbn [fst snd].
  set (tags := opts ≫= listTags).
  split; [|split; [|split]].
  - unfold sliceList. cbv zeta.
    apply sorted_firstn, sorted_skipn, sortByCreatedAt_sorted.
  - intros e He. apply sliceList_In in He.
    now apply (Permutation_in _ (sortByCreatedAt_perm _)) in He.
  - destruct tags as [[|t ts]|]; cbn [filterTags];
      try reflexivity; apply sortByCreatedAt_perm.
  - destruct tags as [[|t ts]|]; reflexivity.
Qed.

Lemma sliceList_nonneg {A} (l : Datatypes.list A) (a n : Z) :
  0 <= a -> 0 <= n ->
  sliceList l a (a + n) = firstn (Z.to_nat n) (skipn (Z.to_nat a) l).
Proof.
  intros Ha Hn. unfold sliceList, SessionKey.clampIndex. cbv zeta.
  destruct (a <? 0) eqn:E1; [apply Z.ltb_lt in E1; lia|].
  destruct (a + n <? 0) eqn:E2; [apply Z.ltb_lt in E2; lia|].
  set (len := Z.of_nat (length l)).
  destruct (Z_lt_le_dec a len) as [Hlt|Hge].
  - rewrite (Z.min_l a len) by lia.
    assert (Hlen : length (skipn (Z.to_nat a) l) = Z.to_nat (len - a)).
    { rewrite length_skipn. unfold len. lia. }
    destruct (Z_le_gt_dec (a + n) len) as [H1|H1].
    + rewrite Z.min_l by lia. f_equal. lia.
    + rewrite Z.min_r by lia.
      replace (Z.to_nat (Z.max (len - a) 0)) with (Z.to_nat (len - a)) by lia.
      rewrite <- Hlen. rewrite firstn_all.
      symmetry. apply firstn_all2. lia.
  - rewrite (Z.min_r a len) by lia.
    rewrite (skipn_all2 (n := Z.to_nat len)) by (unfold len; lia).
    rewrite (skipn_all2 (n := Z.to_nat a)) by (unfold len in Hge; lia).
    now rewrite !firstn_nil.
Qed.

Lemma firstn_plus {A} (n m : nat) (l : Datatypes.list A) :
  firstn (n + m) l = firstn n l ++ firstn m (skipn n l).
Proof.
  revert l. induction n as [|n IH]; intros [|x l]; cbn [firstn skipn plus app];
    try reflexivity.
  - now rewrite firstn_nil.
  - now rewrite IH.
Qed.

Lemma skipn_plus {A} (n m : nat) (l : Datatypes.list A) :
  skipn (n + m) l = skipn m (skipn n l).
Proof.
  revert l. induction n as [|n IH]; intros [|x l]; cbn [skipn plus];
    try reflexivity.
  - now rewrite skipn_nil.
  - apply IH.
Qed.

(** X7. Pages tile: the page of [n] entries at [offset], followed by the page
    of [m] entries at [offset + n], is the page of [n + m] entries at
    [offset], also though the first call may have sorted the cache; a
    page holds [n] entries or what is left of the [count(tags)] entries
    after [offset], whichever is less. *)
Theorem list_pages (tags : option (Datatypes.list string))
        (cache : Datatypes.list MemoryEntry) (offset n m : Z) :
  0 <= offset -> 0 <= n -> 0 <= m ->
  let first := list (Some (mkListOptions (Some n) (Some offset) tags)) cache in
  let second := list (Some (mkListOptions (Some m) (Some (offset + n)) tags))
                     (snd first) in
  fst first ++ fst second
  = fst (list (Some (mkListOptions (Some (n + m)) (Some offset) tags)) cache)
  /\ Z.of_nat (length (fst first))
     = Z.min n (Z.max 0 (Z.of_nat (count tags cache) - offset)).
Proof.
  intros Ho Hn Hm. cbv zeta. unfold list. cbv zeta.
  cbn [fst snd mbind option_bind listTags FileMemoryProvider.offset limit default].
  assert (Hsame :
    sortByCreatedAt
      (filterTags tags
         match tags with
         | Some (_ :: _) => cache
         | _ => sortByCreatedAt (filterTags tags cache)
         end)
    = sortByCreatedAt (filterTags tags cache)).
  { destruct tags as [[|t ts]|]; cbn [filterTags]; try reflexivity;
      apply sortByCreatedAt_fixed, sortByCreatedAt_sorted. }
  rewrite Hsame.
  set (l := sortByCreatedAt (filterTags tags cache)).
  unfold Datatypes.id.
  rewrite !sliceList_nonneg by lia.
  split.
  - rewrite Z2Nat.inj_add by lia. rewrite skipn_plus.
    rewrite Z2Nat.inj_add by lia. now rewrite firstn_plus.
  - rewrite length_firstn, length_skipn.
    unfold count, l. rewrite (Permutation_length (sortByCreatedAt_perm _)). lia.
Qed.

Lemma list_pages_witness :
  fst (list (Some (mkListOptions (Some 1) (Some 0) None))
            [mkEntry "a" 10 "first" (1#2) None None None;
             mkEntry "b" 30 "second" (1#2) None None None;
             mkEntry "c" 20 "third" (1#2) None None None])
  ++ fst (list (Some (mkListOptions (Some 5) (Some (0 + 1)) None))
               (snd (list (Some (mkListOptions (Some 1) (Some 0) None))
                 [mkEntry "a" 10 "first" (1#2) None None None;
                  mkEntry "b" 30 "second" (1#2) None None None;
                  mkEntry "c" 20 "third" (1#2) None None None])))
  = fst (list (Some (mkListOptions (Some (1 + 5)) (Some 0) None))
            [mkEntry "a" 10 "first" (1#2) None None None;
             mkEntry "b" 30 "second" (1#2) None None None;
             mkEntry "c" 20 "third" (1#2) None None None]).
Proof.
  refine (proj1 (list_pages None _ 0 1 5 _ _ _)); lia.
Defined.

End MemoryListing.

Section MemoryRelevance.
Import FileMemoryProvider.
Local Open Scope list_scope.

Lemma lowerChar_idem c : SessionKey.lowerChar (SessionKey.lowerChar c) = SessionKey.lowerChar c.
Proof. destruct c as [[] [] [] [] [] [] [] []]; reflexivity. Qed.

Lemma toLowerCase_idem s :
  SessionKey.toLowerCase (SessionKey.toLowerCase s) = SessionKey.toLowerCase s.
Proof.
  induction s as [|c s IH]; cbn; [reflexivity|].
  now rewrite lowerChar_idem, IH.
Qed.

(** An occurrence is found. *)
Lemma indexOf_occurs n a b : 0 <= SessionKey.indexOf n (a ++ n ++ b)%string.
Proof.
  induction a as [|c a IH].
  - rewrite str_app_nil.
    rewrite (indexOf_here n (n ++ b)%string (startsWith_self_app n b)). lia.
  - rewrite str_app_cons. cbn [SessionKey.indexOf].
    destruct (SessionKey.startsWith n _); [lia|].
    destruct (SessionKey.indexOf n (a ++ n ++ b)%string <? 0) eqn:E.
    + apply Z.ltb_lt in E. lia.
    + lia.
Qed.

(** Without a white space before it, the first piece of a split starts
    the string. *)
Lemma splitSpaces_first s :
  exists piece rest b,
    splitSpaces false s = piece :: rest /\ s = (piece ++ b)%string.
Proof.
  induction s as [|c s (piece & rest & b & E & Hs)]; cbn [splitSpaces].
  - exists "", [], "". split; reflexivity.
  - destruct (SessionKey.isWhiteSpace c).
    + exists "", (splitSpaces true s), (String c s). split; reflexivity.
    + rewrite E. exists (String c piece), rest, b.
      split; [reflexivity|]. rewrite str_app_cons. now f_equal.
Qed.

(** Every piece of a split is a part of the string. *)
Lemma splitSpaces_occurs s : forall afterSpace t,
  In t (splitSpaces afterSpace s) -> exists a b, s = (a ++ t ++ b)%string.
Proof.
  induction s as [|c s IH]; intros afterSpace t; cbn [splitSpaces].
  - intros [<-|[]]. exists "", "". reflexivity.
  - destruct (SessionKey.isWhiteSpace c).
    + intros H.
      assert (H' : t = "" \/ In t (splitSpaces true s)).
      { destruct afterSpace; [now right|]. destruct H as [<-|H]; auto. }
      destruct H' as [->|H'].
      * exists "", (String c s). reflexivity.
      * destruct (IH true t H') as (a & b & ->).
        exists (String c a), b. reflexivity.
    + destruct (splitSpaces_first s) as (piece & rest & b & E & Hs).
      rewrite E. intros [<-|H].
      * exists "", b. rewrite str_app_nil, str_app_cons. now f_equal.
      * destruct (IH false t) as (a & b' & ->).
        { rewrite E. now right. }
        exists (String c a), b'. reflexivity.
Qed.

Lemma filter_all {A} (p : A -> bool) (l : Datatypes.list A) :
  (forall x, In x l -> p x = true) -> List.filter p l = l.
Proof.
  induction l as [|x l IH]; cbn [List.filter]; intros H; [reflexivity|].
  rewrite (H x (or_introl eq_refl)). f_equal. apply IH.
  intros y Hy. apply H. now right.
Qed.

Lemma filter_shorter {A} (p : A -> bool) (l : Datatypes.list A) :
  (length (List.filter p l) <= length l)%nat.
Proof.
  induction l as [|x l IH]; cbn [List.filter length]; [lia|].
  destruct (p x); cbn [length]; lia.
Qed.

(** X8. The relevance of a content for a query lies between 0 and 1. It is
    one half when the query has no term of more than two code units, and
    1 when the query has such a term and occurs in the content, whatever
    the case of the letters; in general the case of the letters does not
    count. *)
Theorem relevance_ratio (content query : string) :
  (0 <= computeRelevance content query)%Q
  /\ (computeRelevance content query <= 1)%Q
  /\ (queryTerms query = [] -> computeRelevance content query = 1 # 2)
  /\ (forall a b,
        queryTerms query <> [] ->
        SessionKey.toLowerCase content
        = (a ++ SessionKey.toLowerCase query ++ b)%string ->
        (computeRelevance content query == 1)%Q)
  /\ computeRelevance (SessionKey.toLowerCase content)
                      (SessionKey.toLowerCase query)
     = computeRelevance content query.
Proof.
  unfold computeRelevance. cbv zeta.
  split; [|split; [|split; [|split]]].
  - destruct (queryTerms query) as [|t ts] eqn:E; [discriminate|].
    set (hits := List.filter _ _).
    apply Qle_shift_div_l.
    + change 0%Q with (inject_Z 0). rewrite <- Zlt_Qlt. cbn [length]. lia.
    + rewrite Qmult_0_l. change 0%Q with (inject_Z 0).
      rewrite <- Zle_Qle. lia.
  - destruct (queryTerms query) as [|t ts] eqn:E; [discriminate|].
    set (hits := List.filter _ _).
    apply Qle_shift_div_r.
    + change 0%Q with (inject_Z 0). rewrite <- Zlt_Qlt. cbn [length]. lia.
    + rewrite Qmult_1_l. rewrite <- Zle_Qle.
      pose proof (filter_shorter (includes (SessionKey.toLowerCase content))
                                 (t :: ts)). fold hits in H. lia.
  - now intros ->.
  - intros a b Hne Hocc.
    destruct (queryTerms query) as [|t ts] eqn:E; [congruence|].
    rewrite filter_all.
    + unfold Qdiv. apply Qmult_inv_r. change 0%Q with (inject_Z 0).
      rewrite inject_Z_injective. cbn [length]. lia.
    + intros x Hx. rewrite <- E in Hx. unfold queryTerms in Hx.
      apply filter_In in Hx as [Hx _].
      destruct (splitSpaces_occurs _ _ _ Hx) as (a' & b' & Hq).
      unfold includes. apply Z.leb_le.
      rewrite Hocc, Hq.
      replace (a ++ (a' ++ x ++ b') ++ b)%string
        with ((a ++ a') ++ x ++ (b' ++ b))%string
        by (now rewrite !app_assoc_str).
      apply indexOf_occurs.
  - unfold queryTerms. now rewrite !toLowerCase_idem.
Qed.

End MemoryRelevance.

(** * Session manager: eviction and cleanup *)
Section SessionEviction.
Import SessionManager.
Local Open Scope list_scope.

Lemma entries_lookup s k m : In (k, m) (entries s) -> sessions s !! k = Some m.
Proof.
  unfold entries. generalize (order s). intros l.
  induction l as [|k' l IH]; cbn [omap list_omap]; [intros []|].
  destruct (sessions s !! k') as [m'|] eqn:E; cbn [fmap option_fmap option_map].
  - intros [[= <- <-]|H]; [exact E | now apply IH].
  - exact IH.
Qed.

(** The loop of [evictOldest] from an accumulator holding the time [t0]:
    either nothing in [es] is older, or the result is the first of the
    entries with the least time. *)
Lemma oldest_from es : forall k0 t0,
  let r := fold_left
    (fun (acc : option (string * Z)) (kv : string * ManagedSession) =>
       match acc with
       | Some (_, t) =>
           if lastAccessedAt (snd kv) <? t
           then Some (fst kv, lastAccessedAt (snd kv)) else acc
       | None => Some (fst kv, lastAccessedAt (snd kv))
       end) es (Some (k0, t0)) in
  (r = Some (k0, t0) /\ forall e, In e es -> t0 <= lastAccessedAt (snd e))
  \/ exists l1 k m l2,
       es = l1 ++ (k, m) :: l2
       /\ r = Some (k, lastAccessedAt m)
       /\ lastAccessedAt m < t0
       /\ (forall e, In e l1 -> lastAccessedAt m < lastAccessedAt (snd e))
       /\ (forall e, In e l2 -> lastAccessedAt m <= lastAccessedAt (snd e)).
Proof.
  induction es as [|[k1 m1] es IH]; intros k0 t0; cbn [fold_left fst snd].
  - left. split; [reflexivity | intros e []].
  - destruct (lastAccessedAt m1 <? t0) eqn:E.
    + apply Z.ltb_lt in E.
      destruct (IH k1 (lastAccessedAt m1)) as [[Hr Hall]|(l1 & k & m & l2 & -> & Hr & Hlt & H1 & H2)].
      * right. exists [], k1, m1, es. cbn [app].
        split; [reflexivity|]. split; [exact Hr|]. split; [exact E|].
        split; [intros e [] | exact Hall].
      * right. exists ((k1, m1) :: l1), k, m, l2. cbn [app].
        split; [reflexivity|]. split; [exact Hr|]. split; [lia|].
        split; [|exact H2].
        intros e [<-|He]; [exact Hlt | now apply H1].
    + apply Z.ltb_ge in E.
      destruct (IH k0 t0) as [[Hr Hall]|(l1 & k & m & l2 & -> & Hr & Hlt & H1 & H2)].
      * left. split; [exact Hr|].
        intros e [<-|He]; [exact E | now apply Hall].
      * right. exists ((k1, m1) :: l1), k, m, l2. cbn [app].
        split; [reflexivity|]. split; [exact Hr|]. split; [exact Hlt|].
        split; [|exact H2].
        intros e [<-|He]; [cbn [snd]; lia | now apply H1].
Qed.

Lemma oldestKey_first_least es :
  es <> [] ->
  exists l1 k m l2,
    es = l1 ++ (k, m) :: l2
    /\ oldestKey es = Some k
    /\ (forall e, In e l1 -> lastAccessedAt m < lastAccessedAt (snd e))
    /\ (forall e, In e l2 -> lastAccessedAt m <= lastAccessedAt (snd e)).
Proof.
  destruct es as [|[k1 m1] es]; [congruence|]. intros _.
  unfold oldestKey. cbn [fold_left fst snd].
  destruct (oldest_from es k1 (lastAccessedAt m1))
    as [[Hr Hall]|(l1 & k & m & l2 & -> & Hr & Hlt & H1 & H2)].
  - exists [], k1, m1, es. cbn [app]. rewrite Hr.
    split; [reflexivity|]. split; [reflexivity|].
    split; [intros e [] | exact Hall].
  - exists ((k1, m1) :: l1), k, m, l2. cbn [app]. rewrite Hr.
    split; [reflexivity|]. split; [reflexivity|].
    split; [|exact H2].
    intros e [<-|He]; [exact Hlt | now apply H1].
Qed.

(** X9. Eviction is by least recent use: with at least one session installed,
    [evictOldest] starts the close of the session with the least
    [lastAccessedAt], the first such in the order of the map, and removes
    nothing by itself. Only a session under the empty key is never
    evicted: the test [if (oldestKey)] takes the empty string for no
    key. *)
Theorem evictOldest_least_recent (s : State) :
  entries s <> [] ->
  exists l1 k m l2,
    entries s = l1 ++ (k, m) :: l2
    /\ (forall e, In e l1 -> lastAccessedAt m < lastAccessedAt (snd e))
    /\ (forall e, In e l2 -> lastAccessedAt m <= lastAccessedAt (snd e))
    /\ sessions (evictOldest s) = sessions s
    /\ closing (evictOldest s)
       = if SessionKey.truthy k then closing s ++ [k] else closing s.
Proof.
  intros Hne.
  destruct (oldestKey_first_least (entries s) Hne)
    as (l1 & k & m & l2 & Hes & Hk & H1 & H2).
  exists l1, k, m, l2.
  split; [exact Hes|]. split; [exact H1|]. split; [exact H2|].
  split; [apply evictOldest_frame|].
  unfold evictOldest. rewrite Hk.
  destruct (SessionKey.truthy k); [|reflexivity].
  unfold closeSessionBegin.
  rewrite (entries_lookup s k m); [reflexivity|].
  rewrite Hes. apply in_or_app. right. now left.
Qed.

Lemma evictOldest_least_recent_witness :
  exists l1 k m l2,
    entries fullManager = l1 ++ (k, m) :: l2
    /\ (forall e, In e l1 -> lastAccessedAt m < lastAccessedAt (snd e))
    /\ (forall e, In e l2 -> lastAccessedAt m <= lastAccessedAt (snd e))
    /\ sessions (evictOldest fullManager) = sessions fullManager
    /\ closing (evictOldest fullManager)
       = if SessionKey.truthy k then closing fullManager ++ [k]
         else closing fullManager.
Proof.
  apply (evictOldest_least_recent fullManager). vm_compute. discriminate.
Defined.

Lemma oldestKey_In es k : oldestKey es = Some k -> exists m, In (k, m) es.
Proof.
  intros Hk. destruct es as [|e es]; [discriminate|].
  destruct (oldestKey_first_least (e :: es) ltac:(discriminate))
    as (l1 & k' & m & l2 & Hes & Hk' & _).
  rewrite Hk in Hk'. injection Hk' as <-.
  exists m. rewrite Hes. apply in_or_app. right. now left.
Qed.

Lemma removeFirst_app_new key l :
  exists rest, removeFirst key (l ++ [key]) = Some rest
               /\ (removeFirst key l = None -> rest = l)
               /\ (forall r, removeFirst key l = Some r -> rest = r ++ [key]).
Proof.
  induction l as [|k l (rest & Hr & Hn & Hs)]; cbn [app removeFirst].
  - rewrite String.eqb_refl. exists []. split; [reflexivity|].
    split; [reflexivity | discriminate].
  - destruct (String.eqb k key).
    + exists (l ++ [key]). split; [reflexivity|].
      split; [discriminate | now intros r [= <-]].
    + rewrite Hr. exists (k :: rest). split; [reflexivity|]. split.
      * destruct (removeFirst key l); [discriminate|].
        intros _. now rewrite Hn.
      * destruct (removeFirst key l) as [r0|]; [|discriminate].
        intros r [= <-]. now rewrite (Hs r0 eq_refl).
Qed.

Lemma removeFirst_twice key l :
  exists r r', removeFirst key (l ++ [key; key]) = Some r
               /\ removeFirst key r = Some r'.
Proof.
  destruct (removeFirst_app_new key l) as (r0 & Hr0 & _).
  destruct (removeFirst_app_new key (l ++ [key])) as (rest & Hrest & _ & Hs).
  specialize (Hs r0 Hr0). subst rest.
  destruct (removeFirst_app_new key r0) as (r' & Hr' & _).
  exists (r0 ++ [key]), r'.
  split; [|exact Hr'].
  now rewrite <- Hrest, <- app_assoc.
Qed.

Lemma entries_same s s' :
  sessions s' = sessions s -> order s' = order s -> entries s' = entries s.
Proof. unfold entries. now intros -> ->. Qed.

(** The first stretch of a call that starts a creation in a full
    manager. *)
Lemma getOrCreateByKey_evicts key now s v :
  sessions s !! key = None -> pendingCreations s !! key = None ->
  (maxSessions s <= size (sessions s))%nat ->
  oldestKey (entries s) = Some v -> v <> "" ->
  snd (getOrCreateByKey key now s)
  = mkState (sessions s) (order s)
            (<[key := nextPromise s]> (pendingCreations s))
            (closing s ++ [v]) (S (nextPromise s)) (maxSessions s).
Proof.
  intros Hs Hp Hfull Hv Hne. unfold getOrCreateByKey. rewrite Hs, Hp.
  apply Nat.leb_le in Hfull. rewrite Hfull. cbn [snd].
  unfold evictOldest. rewrite Hv.
  rewrite (truthy_nonempty v Hne).
  destruct (oldestKey_In _ _ Hv) as [m Hm].
  unfold closeSessionBegin. rewrite (entries_lookup s v m Hm). reflexivity.
Qed.

Lemma creationSettled_ok key now s p :
  pendingCreations s !! key = Some p -> sessions s !! key = None ->
  creationSettled key true now s
  = mkState (<[key := mkManaged p now now]> (sessions s)) (order s ++ [key])
            (delete key (pendingCreations s)) (closing s) (nextPromise s)
            (maxSessions s).
Proof.
  intros Hp Hs. unfold creationSettled, setSession. now rewrite Hp, Hs.
Qed.

Lemma closeSessionEnd_waiting key s rest :
  removeFirst key (closing s) = Some rest ->
  closeSessionEnd key s
  = mkState (delete key (sessions s))
            (List.filter (fun k => negb (String.eqb k key)) (order s))
            (pendingCreations s) rest (nextPromise s) (maxSessions s).
Proof. intros H. unfold closeSessionEnd. now rewrite H. Qed.

(** X10. Eviction does not keep the limit when first calls come together: two
    calls for new keys that reach a full manager before either creation
    settles both pick the same victim, so that one session is closed and
    two are installed, and the manager ends above [maxSessions]. *)
Theorem crowded_creations_share_victim
        (s : State) (k1 k2 v : string) (now1 now2 t1 t2 : Z) :
  sessions s !! k1 = None -> sessions s !! k2 = None ->
  pendingCreations s !! k1 = None -> pendingCreations s !! k2 = None ->
  k1 <> k2 ->
  (maxSessions s <= size (sessions s))%nat ->
  oldestKey (entries s) = Some v -> v <> "" ->
  let s' := run [Call k1 now1; Call k2 now2] s in
  let s'' := run [CreationSettled k1 true t1; CreationSettled k2 true t2;
                  CloseEnd v; CloseEnd v] s' in
  sessions s' = sessions s
  /\ closing s' = closing s ++ [v; v]
  /\ is_Some (sessions s'' !! k1)
  /\ is_Some (sessions s'' !! k2)
  /\ sessions s'' !! v = None
  /\ (maxSessions s'' < size (sessions s''))%nat.
Proof.
  intros Hs1 Hs2 Hp1 Hp2 Hk Hfull Hv Hne.
  destruct (oldestKey_In _ _ Hv) as [m Hm].
  pose proof (entries_lookup s v m Hm) as Hvm.
  assert (Hv1 : v <> k1) by (intros ->; congruence).
  assert (Hv2 : v <> k2) by (intros ->; congruence).
  cbv zeta. unfold run. cbn [fold_left step].
  rewrite (getOrCreateByKey_evicts k1 now1 s v Hs1 Hp1 Hfull Hv Hne).
  set (s1 := mkState _ _ _ _ _ _).
  rewrite (getOrCreateByKey_evicts k2 now2 s1 v); cbn [s1 sessions pendingCreations maxSessions order closing nextPromise];
    [ | exact Hs2 | now rewrite lookup_insert_ne | exact Hfull
      | now rewrite (entries_same s s1) | exact Hne ].
  rewrite <- app_assoc. cbn [app].
  split; [reflexivity|]. split; [reflexivity|].
  destruct (removeFirst_twice v (closing s)) as (r & r' & Hr & Hr').
  rewrite (creationSettled_ok k1 t1 _ (nextPromise s));
    cbn [pendingCreations sessions order closing nextPromise maxSessions];
    [ | rewrite lookup_insert_ne by congruence; apply lookup_insert_eq
      | exact Hs1 ].
  rewrite (creationSettled_ok k2 t2 _ (S (nextPromise s)));
    cbn [pendingCreations sessions order closing nextPromise maxSessions];
    [ | rewrite lookup_delete_ne by congruence; apply lookup_insert_eq
      | now rewrite lookup_insert_ne by congruence ].
  match goal with
  | |- context [closeSessionEnd v (mkState ?a ?b ?c ?d ?e ?f)] =>
      rewrite (closeSessionEnd_waiting v (mkState a b c d e f) r) by exact Hr
  end.
  cbn [pendingCreations sessions order closing nextPromise maxSessions].
  rewrite (closeSessionEnd_waiting v _ r') by exact Hr'.
  cbn [pendingCreations sessions order closing nextPromise maxSessions].
  split; [|split; [|split]].
  - rewrite !lookup_delete_ne by congruence.
    rewrite lookup_insert_ne by congruence. rewrite lookup_insert_eq. eauto.
  - rewrite !lookup_delete_ne by congruence.
    rewrite lookup_insert_eq. eauto.
  - apply lookup_delete_eq.
  - rewrite (map_size_delete_None v) by apply lookup_delete_eq.
    rewrite map_size_delete_Some.
    2:{ rewrite !lookup_insert_ne by congruence. eauto. }
    rewrite map_size_insert_None.
    2:{ now rewrite lookup_insert_ne by congruence. }
    rewrite map_size_insert_None by exact Hs1.
    cbn [Nat.pred]. lia.
Qed.

Lemma crowded_creations_share_victim_witness :
  (maxSessions
     (run [CreationSettled "b" true 4; CreationSettled "c" true 5;
           CloseEnd "a"; CloseEnd "a"]
          (run [Call "b" 2; Call "c" 3] fullManager))
   < size (sessions
             (run [CreationSettled "b" true 4; CreationSettled "c" true 5;
                   CloseEnd "a"; CloseEnd "a"]
                  (run [Call "b" 2; Call "c" 3] fullManager))))%nat.
Proof.
  assert (H1 : sessions fullManager !! "b" = None) by (vm_compute; reflexivity).
  assert (H2 : sessions fullManager !! "c" = None) by (vm_compute; reflexivity).
  assert (H3 : pendingCreations fullManager !! "b" = None)
    by (vm_compute; reflexivity).
  assert (H4 : pendingCreations fullManager !! "c" = None)
    by (vm_compute; reflexivity).
  assert (H5 : "b" <> "c") by discriminate.
  assert (H6 : (maxSessions fullManager <= size (sessions fullManager))%nat)
    by (vm_compute; lia).
  assert (H7 : oldestKey (entries fullManager) = Some "a")
    by (vm_compute; reflexivity).
  assert (H8 : "a" <> "") by discriminate.
  exact (proj2 (proj2 (proj2 (proj2 (proj2
    (crowded_creations_share_victim fullManager "b" "c" "a" 2 3 4 5
       H1 H2 H3 H4 H5 H6 H7 H8)))))).
Defined.

Lemma cleanupTick_fold now ttl (es : Datatypes.list (string * ManagedSession)) :
  forall s,
    (forall kv, In kv es -> is_Some (sessions s !! fst kv)) ->
    let s' := fold_left
      (fun st (kv : string * ManagedSession) =>
         if lastAccessedAt (snd kv) <? now - ttl
         then closeSessionBegin (fst kv) st else st) es s in
    sessions s' = sessions s /\ order s' = order s
    /\ pendingCreations s' = pendingCreations s
    /\ closing s'
       = closing s
         ++ (fst <$> List.filter
                       (fun kv => lastAccessedAt (snd kv) <? now - ttl) es).
Proof.
  induction es as [|kv es IH]; intros s Hin; cbn [fold_left List.filter].
  - cbn. now rewrite app_nil_r.
  - assert (Hrest : forall st, sessions st = sessions s ->
              forall kv', In kv' es -> is_Some (sessions st !! fst kv')).
    { intros st -> kv' H'. apply Hin. now right. }
    destruct (lastAccessedAt (snd kv) <? now - ttl).
    + destruct (Hin kv (or_introl eq_refl)) as [m Hm].
      assert (Hc : closeSessionBegin (fst kv) s
                   = mkState (sessions s) (order s) (pendingCreations s)
                             (closing s ++ [fst kv]) (nextPromise s)
                             (maxSessions s)).
      { unfold closeSessionBegin. now rewrite Hm. }
      rewrite Hc.
      destruct (IH (mkState (sessions s) (order s) (pendingCreations s)
                            (closing s ++ [fst kv]) (nextPromise s)
                            (maxSessions s)) (Hrest _ eq_refl))
        as (H1 & H2 & H3 & H4).
      cbv zeta in *. rewrite H1, H2, H3, H4. cbn.
      now rewrite <- app_assoc.
    + apply IH. apply (Hrest s eq_refl).
Qed.

(** X11. A tick of the cleanup timer starts the close of exactly the sessions
    last accessed before [now - sessionTtlMs], once each and in the order
    of the map; a session accessed at the cutoff or later is left alone.
    The tick itself removes nothing: the sessions it is closing stay
    listed until their close has finished. *)
Theorem cleanupTick_closes_idle (now sessionTtlMs : Z) (s : State) :
  closing (cleanupTick now sessionTtlMs s)
  = closing s
    ++ (fst <$> List.filter
                  (fun kv => lastAccessedAt (snd kv) <? now - sessionTtlMs)
                  (entries s))
  /\ sessions (cleanupTick now sessionTtlMs s) = sessions s
  /\ listSessions (cleanupTick now sessionTtlMs s) = listSessions s
  /\ (forall k m, sessions s !! k = Some m ->
                  now - sessionTtlMs <= lastAccessedAt m ->
                  In k (closing (cleanupTick now sessionTtlMs s)) ->
                  In k (closing s)).
Proof.
  unfold cleanupTick. cbv zeta.
  destruct (cleanupTick_fold now sessionTtlMs (entries s) s)
    as (H1 & H2 & H3 & H4).
  { intros [k m] H. cbn [fst]. rewrite (entries_lookup s k m H). eauto. }
  cbv zeta in *.
  split; [exact H4|]. split; [exact H1|]. split.
  - unfold listSessions. f_equal. now apply entries_same.
  - intros k m Hk Hfresh Hin. rewrite H4 in Hin.
    apply in_app_or in Hin as [Hin|Hin]; [exact Hin|].
    exfalso. apply in_map_iff in Hin as ([k' m'] & <- & Hf).
    apply filter_In in Hf as [Hin' Hold]. cbn [fst snd] in *.
    rewrite (entries_lookup s k' m' Hin') in Hk. injection Hk as ->.
    apply Z.ltb_lt in Hold. lia.
Qed.

End SessionEviction.

(** * Subagent manager: spawning, timeouts, the background run, cleanup *)
Section SubagentLife.
Import SubagentManager.
Local Open Scope list_scope.

(** X12. An announcement goes to the place that was current when the subagent
    was spawned (or to the channel and chat id given to [spawn], when
    they are not empty), whatever the current context is when the
    announcement is made. The spawned record is running and carries the
    session key "subagent:<parent or main>:<id>". *)
Theorem announcement_goes_to_spawn_context
        (s : State) (params : SpawnParams) (uuidPrefix : string)
        (parentSessionKey : option string)
        (chan chat chan' chat' : string) (now now' : Z) :
  let spawned := spawn params uuidPrefix now parentSessionKey
                       (setCurrentContext chan chat s) in
  let final := stop (fst spawned) now'
                    (setCurrentContext chan' chat' (snd spawned)) in
  fst spawned = uuidPrefix
  /\ (exists sub,
        get uuidPrefix (snd spawned) = Some sub
        /\ status sub = Running
        /\ createdAt sub = now
        /\ sessionKey sub
           = ("subagent:" ++ orElse parentSessionKey "main" ++ ":"
              ++ uuidPrefix)%string)
  /\ fst final = true
  /\ exists msg,
       MessageBus.published (bus (snd final))
       = MessageBus.published (bus s) ++ [msg]
       /\ MessageBus.channel msg = orElse (spawnChannel params) chan
       /\ MessageBus.chatId msg = orElse (spawnChatId params) chat.
Proof.
  cbv zeta. unfold spawn, setCurrentContext. cbn [fst snd].
  cbn [subagents currentChannel currentChatId bus].
  split; [reflexivity|]. split.
  - eexists. unfold get. cbn [subagents]. rewrite lookup_insert_eq.
    split; [reflexivity|]. repeat split.
  - set (sub := mkSubagent _ _ _ _ _ _ _ _ _ _ _ _ _).
    erewrite (stop_running _ uuidPrefix now' sub);
      [ | cbn [subagents]; apply lookup_insert_eq | reflexivity ].
    cbn [fst snd bus]. split; [reflexivity|].
    eexists. split; [reflexivity|]. split; reflexivity.
Qed.

Lemma timeoutFired_running s subagentId now sub c :
  subagents s !! subagentId = Some sub -> status sub = Running ->
  abortController sub = Some c ->
  timeoutFired subagentId now s
  = announceResult (timedOut now sub) "timed out"
      (mkState (<[subagentId := timedOut now sub]> (subagents s))
               (currentChannel s) (currentChatId s) (bus s)).
Proof.
  intros E Hrun Hc. unfold timeoutFired, isRunning.
  now rewrite E, Hc, Hrun.
Qed.

(** X13. Stopping and timing out exclude each other. For a running subagent
    with a timer, whichever of [stop] and the timer comes first marks the
    record and makes the one announcement; the other one then changes
    nothing: the timer after a stop does nothing, and [stop] after a
    timeout returns false. *)
Theorem stop_and_timeout_exclusive
        (s : State) (subagentId : string) (sub : Subagent) (now now' : Z) :
  subagents s !! subagentId = Some sub ->
  status sub = Running ->
  is_Some (abortController sub) ->
  timeoutFired subagentId now' (snd (stop subagentId now s))
  = snd (stop subagentId now s)
  /\ stop subagentId now' (timeoutFired subagentId now s)
     = (false, timeoutFired subagentId now s)
  /\ (exists sub',
        subagents (timeoutFired subagentId now s) !! subagentId = Some sub'
        /\ status sub' = Failed
        /\ error sub' = Some "Timeout exceeded"
        /\ completedAt sub' = Some now
        /\ abortController sub' = Some true
        /\ MessageBus.published (bus (timeoutFired subagentId now s))
           = MessageBus.published (bus s) ++ [announcement sub' "timed out"]).
Proof.
  intros E Hrun [c Hc].
  rewrite (stop_running s subagentId now sub E Hrun).
  rewrite (timeoutFired_running s subagentId now sub c E Hrun Hc).
  cbn [snd]. split; [|split].
  - unfold timeoutFired. cbn [subagents]. rewrite lookup_insert_eq.
    cbn [stopped abortController isRunning status]. now rewrite Hc.
  - apply stop_not_running. intros sub'.
    unfold announceResult. cbn [subagents]. rewrite lookup_insert_eq.
    intros [= <-]. discriminate.
  - exists (timedOut now sub).
    unfold announceResult. cbn [subagents bus]. rewrite lookup_insert_eq.
    cbn [timedOut status error completedAt abortController].
    rewrite Hc. repeat split.
Qed.

Lemma stop_and_timeout_exclusive_witness :
  timeoutFired "ab12cd34" 9000 (snd (stop "ab12cd34" 5000 twoSubagents))
  = snd (stop "ab12cd34" 5000 twoSubagents)
  /\ stop "ab12cd34" 9000 (timeoutFired "ab12cd34" 5000 twoSubagents)
     = (false, timeoutFired "ab12cd34" 5000 twoSubagents).
Proof.
  destruct (stop_and_timeout_exclusive twoSubagents "ab12cd34"
              researchSubagent 5000 9000) as (H1 & H2 & _);
    [reflexivity | reflexivity | now exists false |].
  split; [exact H1 | exact H2].
Defined.

(** X14. [stop] does not reach the background run. When the prompt of a
    stopped subagent resolves later, the run overwrites the record
    (status completed, the result of the run instead of "Stopped by
    request") and announces again: the requester gets two announcements
    for the one subagent. When the run fails later, it is silent only
    for a subagent that was spawned with a timeout (its controller was
    aborted by [stop]); without a timeout the record turns to failed and
    is announced again. *)
Theorem run_goes_on_after_stop
        (s : State) (subagentId : string) (sub : Subagent)
        (now now' : Z) (lastText : option string) (message : string) :
  subagents s !! subagentId = Some sub ->
  status sub = Running ->
  let stopped_state := snd (stop subagentId now s) in
  (exists s' sub',
      promptResolved subagentId lastText now' stopped_state = Some s'
      /\ subagents s' !! subagentId = Some sub'
      /\ status sub' = Completed
      /\ result sub' = Some (orElse lastText "Done")
      /\ MessageBus.published (bus s')
         = MessageBus.published (bus s)
           ++ [announcement (stopped now sub) "stopped";
               announcement sub' "completed successfully"])
  /\ (is_Some (abortController sub) ->
      runFailed subagentId message now' stopped_state = Some stopped_state)
  /\ (abortController sub = None ->
      exists s' sub',
        runFailed subagentId message now' stopped_state = Some s'
        /\ subagents s' !! subagentId = Some sub'
        /\ status sub' = Failed
        /\ error sub' = Some message
        /\ MessageBus.published (bus s')
           = MessageBus.published (bus s)
             ++ [announcement (stopped now sub) "stopped";
                 announcement sub' ("failed: " ++ message)%string]).
Proof.
  intros E Hrun. cbv zeta.
  rewrite (stop_running s subagentId now sub E Hrun). cbn [snd].
  split; [|split].
  - unfold promptResolved. cbn [subagents]. rewrite lookup_insert_eq.
    eexists. eexists. split; [reflexivity|].
    unfold announceResult. cbn [subagents bus].
    rewrite lookup_insert_eq. split; [reflexivity|].
    split; [reflexivity|]. split; [reflexivity|].
    cbn [MessageBus.publishOutbound MessageBus.published].
    now rewrite <- app_assoc.
  - intros [c Hc]. unfold runFailed. cbn [subagents].
    rewrite lookup_insert_eq. cbn [stopped abortController].
    now rewrite Hc.
  - intros Hc. unfold runFailed. cbn [subagents].
    rewrite lookup_insert_eq. cbn [stopped abortController]. rewrite Hc.
    eexists. eexists. split; [reflexivity|].
    unfold announceResult. cbn [subagents bus].
    rewrite lookup_insert_eq. split; [reflexivity|].
    split; [reflexivity|]. split; [reflexivity|].
    cbn [MessageBus.publishOutbound MessageBus.published].
    now rewrite <- app_assoc.
Qed.

Lemma run_goes_on_after_stop_witness :
  exists s' sub',
    promptResolved "ab12cd34" (Some "3 errors found") 9000
                   (snd (stop "ab12cd34" 5000 twoSubagents)) = Some s'
    /\ subagents s' !! "ab12cd34" = Some sub'
    /\ status sub' = Completed
    /\ result sub' = Some (orElse (Some "3 errors found") "Done")
    /\ MessageBus.published (bus s')
       = MessageBus.published (bus twoSubagents)
         ++ [announcement (stopped 5000 researchSubagent) "stopped";
             announcement sub' "completed successfully"].
Proof.
  exact (proj1 (run_goes_on_after_stop twoSubagents "ab12cd34"
                  researchSubagent 5000 9000 (Some "3 errors found") "boom"
                  eq_refl eq_refl)).
Defined.

(** X15. [cleanup] deletes exactly the records that are not running and whose
    completion time (0 when absent) lies before [now - maxAgeMs]; it
    returns their number, keeps every running record whatever its age,
    and announces nothing. *)
Theorem cleanup_removes_expired (maxAgeMs : option Z) (now : Z) (s : State) :
  let cutoff := now - default (30 * 60 * 1000) maxAgeMs in
  let s' := snd (cleanup maxAgeMs now s) in
  (forall i sub,
      subagents s' !! i = Some sub
      <-> subagents s !! i = Some sub /\ expired cutoff sub = false)
  /\ (forall i sub, subagents s !! i = Some sub -> status sub = Running ->
                    subagents s' !! i = Some sub)
  /\ (fst (cleanup maxAgeMs now s) + size (subagents s') = size (subagents s))%nat
  /\ bus s' = bus s.
Proof.
  cbv zeta. unfold cleanup. cbn [fst snd subagents bus].
  set (cutoff := now - default (30 * 60 * 1000) maxAgeMs).
  split; [|split; [|split]].
  - intros i sub. now rewrite map_lookup_filter_Some.
  - intros i sub E Hrun. apply map_lookup_filter_Some. split; [exact E|].
    cbn [snd]. unfold expired, isRunning. now rewrite Hrun.
  - rewrite <- (map_size_disj_union
                  (filter (fun kv => expired cutoff (snd kv) = true) (subagents s))
                  (filter (fun kv => expired cutoff (snd kv) = false) (subagents s))).
    + f_equal. apply map_eq. intros i.
      destruct (subagents s !! i) as [sub|] eqn:E.
      * destruct (expired cutoff sub) eqn:Ex.
        -- apply lookup_union_Some_l, map_lookup_filter_Some. now split.
        -- apply lookup_union_Some_raw. right. split.
           ++ apply map_lookup_filter_None. right. intros sub' E'.
              cbn [snd]. rewrite E in E'. injection E' as <-. congruence.
           ++ apply map_lookup_filter_Some. now split.
      * apply lookup_union_None. split; apply map_lookup_filter_None; now left.
    + apply map_disjoint_spec. intros i x y Hx Hy.
      apply map_lookup_filter_Some in Hx as [Ex Hx].
      apply map_lookup_filter_Some in Hy as [Ey Hy].
      rewrite Ex in Ey. injection Ey as <-. cbn [snd] in *. congruence.
  - reflexivity.
Qed.

End SubagentLife.

(** * Cron service: the operations and what they keep *)
Section CronOperations.
Import CronService.
Local Open Scope list_scope.
Variable clock : nat -> Z.
Variable cronNext : string -> option string -> Z -> option Z.

Ltac proj :=
  cbn [jobs timers running store events reads setReads setJobs setTimers
       setStore addEvent setRunning fst snd].

(** ** Lists of jobs *)









Lemma findIndex_None {A} (p : A -> bool) (l : Datatypes.list A) :
  findIndex p l = None <-> existsb p l = false.
Proof.
  induction l as [|x l IH]; cbn [findIndex existsb]; [tauto|].
  destruct (p x); cbn [orb]; [split; discriminate|].
  rewrite <- IH. destruct (findIndex p l); cbn; split; congruence.
Qed.






(** ** What the operations do to the service *)






Lemma run_missing jobId mode b s :
  findIndex (hasId jobId) (jobs s) = None ->
  run clock cronNext jobId mode b s
  = (Throw ("Job not found: " ++ jobId)%string, s).
Proof. intros H. unfold run. cbv [bind gets throw]. now rewrite H. Qed.


Lemma scheduleEach_effect (l : Datatypes.list CronJob) : forall s,
  exists T k,
    scheduleEach clock cronNext l s
    = (Ok tt, mkState (jobs s) T (running s) (store s) (events s) k)
    /\ forall x, is_Some (T !! x)
                 <-> is_Some (timers s !! x) \/ In x (enabledIds l).
Proof.
  induction l as [|job l IH]; intros s; cbn [scheduleEach].
  - exists (timers s), (reads s). split; [now destruct s|].
    intros x. cbn. tauto.
  - cbv [bind]. destruct (enabled job) eqn:E.
    + destruct (scheduleJob_effect clock cronNext job s) as (d & k & ->).
      destruct (IH (mkState (jobs s) (<[id job:=d]> (timers s)) (running s)
                            (store s) (events s) k)) as (T & k' & -> & HT).
      proj. exists T, k'. split; [reflexivity|].
      intros x. rewrite HT. proj. rewrite lookup_insert_is_Some.
      unfold enabledIds. cbn [List.filter]. rewrite E. cbn [fmap list_fmap In].
      destruct (decide (id job = x)); tauto.
    + cbv [ret]. destruct (IH s) as (T & k' & -> & HT).
      exists T, k'. split; [reflexivity|].
      intros x. rewrite HT. unfold enabledIds. cbn [List.filter].
      now rewrite E.
Qed.



Lemma enabledIds_revived (l : Datatypes.list CronJob) :
  enabledIds (revived <$> l) = enabledIds l.
Proof.
  unfold enabledIds. induction l as [|j l IH]; [reflexivity|].
  cbn [fmap list_fmap List.filter]. change (enabled (revived j)) with (enabled j).
  destruct (enabled j); cbn [fmap list_fmap]; [change (id (revived j)) with (id j); f_equal|]; exact IH.
Qed.


Lemma start_effect s :
  running s = false ->
  exists T k,
    start clock cronNext s
    = (Ok tt, mkState (revived <$> default [] (store s)) T true (store s)
                      (events s) k)
    /\ forall x, is_Some (T !! x)
                 <-> is_Some (timers s !! x)
                     \/ In x (enabledIds (default [] (store s))).
Proof.
  intros H. unfold start, scheduleAllJobs, load. cbv [bind gets modify].
  rewrite H. proj.
  match goal with
  | |- context [scheduleEach _ _ ?l ?st] =>
      destruct (scheduleEach_effect l st) as (T & k & -> & HT)
  end.
  exists T, k. split; [reflexivity|].
  intros x. rewrite HT, enabledIds_revived. reflexivity.
Qed.

Lemma stop_effect s :
  stop s = (Ok tt, mkState (jobs s) ∅ false (store s) (events s) (reads s)).
Proof. reflexivity. Qed.

(** ** What the operations keep *)

Lemma is_Some_empty (x : string) : is_Some ((∅ : gmap string jsnum) !! x) <-> False.
Proof. rewrite lookup_empty. split; [intros [? ?]; discriminate | tauto]. Qed.






(** X17. The jobs survive a restart: when the store holds the job list
    as it is written (as it does after [start] and after every change),
    stopping the service and starting it again gives the jobs back as
    they read from the store, a next run or a duration that is [NaN] or
    infinite having become absent,
    and arms a timer for exactly the enabled ones. *)
Theorem jobs_survive_restart (s : State) :
  revived <$> jobs s = revived <$> default [] (store s) ->
  let s' := exec clock cronNext [OpStop; OpStart] s in
  jobs s' = revived <$> jobs s
  /\ store s' = store s
  /\ running s' = true
  /\ forall i, is_Some (timers s' !! i) <-> In i (enabledIds (jobs s)).
Proof.
  intros Hmir. cbv zeta. cbn [exec fold_left apply].
  rewrite stop_effect. cbn [snd].
  set (s1 := mkState _ _ _ _ _ _).
  destruct (start_effect s1 eq_refl) as (T & k & -> & HT).
  cbn [snd]. unfold s1 in *. proj. proj. cbn [store timers] in HT.
  split; [now rewrite Hmir|]. split; [reflexivity|]. split; [reflexivity|].
  intros x. rewrite HT, is_Some_empty.
  rewrite <- (enabledIds_revived (default [] (store s))), <- Hmir.
  rewrite enabledIds_revived. tauto.
Qed.





(** X20. When [run] executes nothing. An unknown id makes it throw "Job not
    found" and change nothing. In due mode a job whose next run lies
    after the clock reading is skipped: the call returns undefined, the
    callback is not invoked, nothing is recorded or saved; so for any
    next run that is truthy and greater than the reading, and in
    particular for an integer one other than 0 that lies after the
    reading (a reading up to 2^53 in magnitude, as every time value
    is). A next run of 0, [NaN] or none at all counts as due: there due
    mode does what force mode does. *)
Theorem run_without_execution (jobId : string) (b : Behaviour) (s : State) :
  (forall mode,
      existsb (hasId jobId) (jobs s) = false ->
      run clock cronNext jobId mode b s
      = (Throw ("Job not found: " ++ jobId)%string, s))
  /\ (forall i job n,
        findIndex (hasId jobId) (jobs s) = Some i ->
        jobs s !! i = Some job ->
        nextRunAtMs (state job) = Some n ->
        truthyNum n = true ->
        gtNum n (clock (reads s)) = true ->
        run clock cronNext jobId Due b s
        = (Ok None, setReads (S (reads s)) s))
  /\ (forall i job z,
        findIndex (hasId jobId) (jobs s) = Some i ->
        jobs s !! i = Some job ->
        nextRunAtMs (state job) = Some (Num (inject_Z z)) -> z <> 0 ->
        clock (reads s) < z ->
        Z.abs (clock (reads s)) <= 2 ^ 53 ->
        run clock cronNext jobId Due b s
        = (Ok None, setReads (S (reads s)) s))
  /\ (forall i job,
        findIndex (hasId jobId) (jobs s) = Some i ->
        jobs s !! i = Some job ->
        nextRunAtMs (state job) = None
        \/ nextRunAtMs (state job) = Some NaN
        \/ (exists q, nextRunAtMs (state job) = Some (Num q) /\ q == 0) ->
        run clock cronNext jobId Due b s
        = run clock cronNext jobId Force b s).
Proof.
  assert (Hskip : forall i job n,
    findIndex (hasId jobId) (jobs s) = Some i ->
    jobs s !! i = Some job ->
    nextRunAtMs (state job) = Some n ->
    truthyNum n = true ->
    gtNum n (clock (reads s)) = true ->
    run clock cronNext jobId Due b s
    = (Ok None, setReads (S (reads s)) s)).
  { intros i job n Hidx Hjob Hn Ht Hgt.
    unfold run. cbv [bind gets ret]. rewrite Hidx, Hjob, Hn, Ht.
    cbv [dateNow]. now rewrite Hgt. }
  split; [|split; [exact Hskip|split]].
  - intros mode H. apply run_missing. now apply findIndex_None.
  - intros i job z Hidx Hjob Hn Hz Hlt Hmod.
    apply (Hskip i job _ Hidx Hjob Hn).
    + unfold truthyNum, JsNumber.truthy, JsNumber.isZero. cbn [Qnum inject_Z].
      apply Z.eqb_neq in Hz. now rewrite Hz.
    + unfold gtNum. rewrite (ofZ_exact _ Hmod). cbn [JsNumber.gt].
      apply negb_true_iff. destruct (Qle_bool _ _) eqn:E; [|reflexivity].
      apply Qle_bool_iff in E. rewrite <- Zle_Qle in E. lia.
  - intros i job Hidx Hjob Hn.
    unfold run. cbv [bind gets ret]. rewrite Hidx, Hjob.
    destruct Hn as [->|[->|(q & -> & Hq)]]; [reflexivity|reflexivity|].
    assert (Hz : truthyNum (Num q) = false).
    { unfold truthyNum, JsNumber.truthy, JsNumber.isZero.
      destruct q as [qn qd]. unfold Qeq in Hq. cbn in Hq |- *.
      assert (qn = 0) by lia. subst qn. reflexivity. }
    now rewrite Hz.
Qed.

End CronOperations.


Lemma jobs_survive_restart_witness :
  let s' := CronService.exec (fun _ => 1000) (fun _ _ _ => None)
              [CronService.OpStop; CronService.OpStart]
              (CronService.mkState [tickJob] ∅ true (Some [tickJob]) [] 0) in
  CronService.jobs s' = [tickJob]
  /\ CronService.store s' = Some [tickJob]
  /\ CronService.running s' = true
  /\ forall i, is_Some (CronService.timers s' !! i)
               <-> In i (CronService.enabledIds [tickJob]).
Proof.
  exact (jobs_survive_restart (fun _ => 1000) (fun _ _ _ => None)
           (CronService.mkState [tickJob] ∅ true (Some [tickJob]) [] 0)
           eq_refl).
Defined.


(** * Per-agent server: session ids and the API key *)
Section AgentServerIds.
Import AgentServer.
Local Open Scope list_scope.

Lemma substring_skip a n b :
  substring (String.length a) n (a ++ b)%string = substring 0 n b.
Proof. induction a as [|c a IH]; [reflexivity | exact IH]. Qed.

Lemma substring_whole n s : (String.length s <= n)%nat -> substring 0 n s = s.
Proof.
  revert n. induction s as [|c s IH]; intros [|n] H; cbn in *;
    try reflexivity; try lia.
  f_equal. apply IH. lia.
Qed.

(** A non-empty part without line terminators, a dash and sixteen hex
    digits pass the test of the handler. *)
Lemma hasCryptoSuffix_built (b sfx : string) :
  b <> ""%string ->
  SessionKey.everyChar (fun c => negb (isLineTerminator c)) b = true ->
  String.length sfx = 16%nat ->
  SessionKey.everyChar isHex sfx = true ->
  hasCryptoSuffix (b ++ "-" ++ sfx)%string = true.
Proof.
  intros Hb Hline Hlen Hhex. unfold hasCryptoSuffix.
  rewrite !strlen_app, Hlen. cbn [String.length].
  assert (Hpos : (1 <= String.length b)%nat).
  { destruct b; [congruence | cbn; lia]. }
  destruct (String.length b + (1 + 16) <? 18)%nat eqn:E;
    [apply Nat.ltb_lt in E; lia|].
  replace (String.length b + (1 + 16) - 17)%nat with (String.length b) by lia.
  replace (String.length b + (1 + 16) - 16)%nat
    with (String.length (b ++ "-")%string)
    by (rewrite strlen_app; cbn; lia).
  rewrite substring_app_l, substring_skip.
  rewrite <- (app_assoc_str b "-" sfx), substring_skip.
  rewrite (substring_whole 16 sfx) by lia.
  change ("-" ++ sfx)%string with (String "-" sfx). cbn [substring].
  replace (substring 0 0 sfx) with ""%string by (now destruct sfx).
  rewrite Hline, Hhex. reflexivity.
Qed.

(** X21. The session id a reply carries is stable: when the random suffix is
    sixteen lower-case hex digits and the id sent by the client holds no
    line terminator, the id computed by the handler passes the handler's
    own test, so that a client sending it back gets the same id again,
    whatever the new suffix, and with it the cached session. *)
Theorem session_id_stable (provided : option string)
        (cryptoSuffix cryptoSuffix' : string) :
  String.length cryptoSuffix = 16%nat ->
  SessionKey.everyChar isHex cryptoSuffix = true ->
  (forall p, provided = Some p ->
             SessionKey.everyChar (fun c => negb (isLineTerminator c)) p = true) ->
  let sessionId := computeSessionId provided cryptoSuffix in
  hasCryptoSuffix sessionId = true
  /\ computeSessionId (Some sessionId) cryptoSuffix' = sessionId
  /\ forall s r c text session,
       sessions s !! sessionId = Some session ->
       chat r (Some (String c text)) (Some sessionId) cryptoSuffix' s
       = startPrompt r sessionId session s.
Proof.
  intros Hlen Hhex Hline. cbv zeta.
  assert (Hhas : hasCryptoSuffix (computeSessionId provided cryptoSuffix) = true).
  { unfold computeSessionId.
    assert (Hdef : hasCryptoSuffix ("session-" ++ cryptoSuffix)%string = true).
    { apply (hasCryptoSuffix_built "session" cryptoSuffix);
        [discriminate | reflexivity | exact Hlen | exact Hhex]. }
    destruct provided as [p|]; [|exact Hdef].
    destruct (SessionKey.truthy p) eqn:Tp; cbn [negb]; [|exact Hdef].
    destruct (hasCryptoSuffix p) eqn:Hp; [exact Hp|].
    apply hasCryptoSuffix_built; [now destruct p | now apply Hline | exact Hlen | exact Hhex]. }
  assert (Hsame : computeSessionId (Some (computeSessionId provided cryptoSuffix))
                                   cryptoSuffix'
                  = computeSessionId provided cryptoSuffix).
  { set (sid := computeSessionId provided cryptoSuffix) in *.
    unfold computeSessionId at 1. rewrite Hhas.
    destruct sid; [discriminate | reflexivity]. }
  split; [exact Hhas|]. split; [exact Hsame|].
  intros s r c text session Hs. unfold chat. now rewrite Hsame, Hs.
Qed.

Lemma session_id_stable_witness :
  computeSessionId (Some (computeSessionId (Some "alice") someSuffix))
                   "ffffffffffffffff"
  = computeSessionId (Some "alice") someSuffix.
Proof.
  refine (proj1 (proj2 (session_id_stable (Some "alice") someSuffix
                          "ffffffffffffffff" eq_refl eq_refl _))).
  intros p [= <-]. reflexivity.
Defined.

Lemma envVarOf_known provider envVar :
  envVarOf provider = Some envVar -> In (provider, envVar) PROVIDER_ENV_VARS.
Proof.
  unfold envVarOf.
  destruct (List.find _ PROVIDER_ENV_VARS) as [[k v]|] eqn:E; [|discriminate].
  cbn. intros [= <-]. apply find_some in E as [Hin Heq].
  cbn in Heq. apply String.eqb_eq in Heq. now subst k.
Qed.

(** X22. After the key of a provider has been read from the environment, a
    non-empty key is no longer there: the variable of the provider is
    deleted, and the key is only in the value returned. Nothing else
    changes, so the keys of the other providers stay in the environment;
    and for a provider that is not in the table nothing is read and
    nothing is cleared. *)
Theorem env_key_read_once (provider : string) (env : gmap string string) :
  let r := readAndClearEnvApiKey provider env in
  (envVarOf provider = None -> r = (None, env))
  /\ (forall envVar,
        envVarOf provider = Some envVar ->
        In (provider, envVar) PROVIDER_ENV_VARS
        /\ fst r = env !! envVar
        /\ (snd r !! envVar = None \/ snd r !! envVar = Some ""%string)
        /\ (forall other, other <> envVar -> snd r !! other = env !! other)
        /\ fst (readAndClearEnvApiKey provider (snd r)) = snd r !! envVar).
Proof.
  cbv zeta. unfold readAndClearEnvApiKey. split.
  - now intros ->.
  - intros envVar Hv. rewrite Hv.
    split; [now apply envVarOf_known|].
    destruct (env !! envVar) as [key|] eqn:Ek.
    + destruct key as [|c key]; cbn [SessionKey.truthy fst snd].
      * rewrite Ek. split; [reflexivity|]. split; [now right|].
        split; [reflexivity|]. reflexivity.
      * rewrite lookup_delete_eq. split; [reflexivity|]. split; [now left|].
        split; [|reflexivity].
        intros other Hne. now rewrite lookup_delete_ne by congruence.
    + cbn [fst snd]. rewrite Ek. split; [reflexivity|]. split; [now left|].
      split; reflexivity.
Qed.

End AgentServerIds.

(** * Local backend: port allocation *)
Section PortAllocation.
Import LocalBackend.
Local Open Scope list_scope.

Lemma scanPorts_spec w fuel : forall next,
  (Z.to_nat (65535 - next) <= fuel)%nat ->
  (forall q, next <= q < snd (scanPorts w fuel next) - 1 ->
             isPortInUse w q = true)
  /\ next < snd (scanPorts w fuel next)
  /\ (next <= 65535 -> snd (scanPorts w fuel next) <= 65536)
  /\ match fst (scanPorts w fuel next) with
     | Some p => snd (scanPorts w fuel next) = p + 1
                 /\ isPortInUse w p = false
     | None => isPortInUse w (snd (scanPorts w fuel next) - 1) = true
               /\ 65535 < snd (scanPorts w fuel next)
     end.
Proof.
  induction fuel as [|fuel IH]; intros next Hfuel; cbn [scanPorts];
    cbv zeta; destruct (isPortInUse w next) eqn:Euse; cbn [negb fst snd].
  - destruct (65535 <? next + 1) eqn:E; cbn [fst snd].
    + apply Z.ltb_lt in E. replace (next + 1 - 1) with next by lia.
      split; [intros q Hq; lia|]. split; [lia|]. split; [lia|]. auto.
    + apply Z.ltb_ge in E. lia.
  - replace (next + 1 - 1) with next by lia.
    split; [intros q Hq; lia|]. split; [lia|]. split; [lia|]. auto.
  - destruct (65535 <? next + 1) eqn:E; cbn [fst snd].
    + apply Z.ltb_lt in E. replace (next + 1 - 1) with next by lia.
      split; [intros q Hq; lia|]. split; [lia|]. split; [lia|]. auto.
    + apply Z.ltb_ge in E.
      destruct (IH (next + 1) ltac:(lia)) as (Hbusy & Hlt & Hmax & Hres).
      split; [|split; [lia|split; [intros _; apply Hmax; lia | exact Hres]]].
      intros q Hq. destruct (Z.eq_dec q next) as [->|Hne]; [exact Euse|].
      apply Hbusy. lia.
  - replace (next + 1 - 1) with next by lia.
    split; [intros q Hq; lia|]. split; [lia|]. split; [lia|]. auto.
Qed.

(** More rounds than the loop can take change nothing. *)
Lemma scanPorts_enough w fuel : forall fuel' next,
  (Z.to_nat (65535 - next) <= fuel)%nat ->
  (Z.to_nat (65535 - next) <= fuel')%nat ->
  scanPorts w fuel next = scanPorts w fuel' next.
Proof.
  induction fuel as [|fuel IH]; intros [|fuel'] next H H'; cbn [scanPorts];
    cbv zeta; try reflexivity;
    destruct (negb (isPortInUse w next)); try reflexivity;
    destruct (65535 <? next + 1) eqn:E; try reflexivity;
    apply Z.ltb_ge in E; try lia.
  apply IH; lia.
Qed.

Lemma findAvailablePort_spec (w0 : World) (s0 : State) :
  let r := findAvailablePort w0 s0 in
  agents (snd r) = agents s0 /\ pidFiles (snd r) = pidFiles s0
  /\ nextPort s0 < nextPort (snd r)
  /\ match fst r with
     | Some p =>
         nextPort s0 <= p /\ isPortInUse w0 p = false
         /\ (forall q, nextPort s0 <= q < p -> isPortInUse w0 q = true)
         /\ nextPort (snd r) = p + 1
         /\ (nextPort s0 <= 65535 -> p <= 65535)
     | None =>
         (forall q, nextPort s0 <= q < nextPort (snd r) ->
                    isPortInUse w0 q = true)
         /\ 65535 < nextPort (snd r)
     end.
Proof.
  cbv zeta. unfold findAvailablePort.
  pose proof (scanPorts_spec w0 (Z.to_nat (65535 - nextPort s0)) (nextPort s0)
                ltac:(lia)) as (Hbusy & Hlt & Hmax & Hres).
  destruct (scanPorts w0 (Z.to_nat (65535 - nextPort s0)) (nextPort s0))
    as [found next]. cbn [fst snd agents pidFiles nextPort] in *.
  split; [reflexivity|]. split; [reflexivity|]. split; [exact Hlt|].
  destruct found as [p|].
  - destruct Hres as [-> Hfree].
    split; [lia|]. split; [exact Hfree|]. split.
    + intros q Hq. apply Hbusy. lia.
    + split; [reflexivity|]. intros H. specialize (Hmax H). lia.
  - destruct Hres as [Hlast Hhigh]. split; [|exact Hhigh].
    intros q Hq. destruct (Z.eq_dec q (next - 1)) as [->|Hne]; [exact Hlast|].
    apply Hbusy. lia.
Qed.

(** X23. [findAvailablePort] always settles. It resolves with the first port
    from [nextPort] on that does not answer a health request, every port
    before it being in use, and leaves [nextPort] just above it, so that
    the next call resolves with a higher port even if the port handed out
    is still free; the port is at most 65535 as long as [nextPort] was.
    It rejects only when every port from [nextPort] up to 65535 is in
    use, or when [nextPort] is already above 65535 and that very port is
    in use. Agents and pid files are left alone. *)
Theorem findAvailablePort_first_free (w : World) (s : State) :
  let r := findAvailablePort w s in
  agents (snd r) = agents s /\ pidFiles (snd r) = pidFiles s
  /\ nextPort s < nextPort (snd r)
  /\ match fst r with
     | Some p =>
         nextPort s <= p /\ isPortInUse w p = false
         /\ (forall q, nextPort s <= q < p -> isPortInUse w q = true)
         /\ nextPort (snd r) = p + 1
         /\ (nextPort s <= 65535 -> p <= 65535)
     | None =>
         (forall q, nextPort s <= q < nextPort (snd r) ->
                    isPortInUse w q = true)
         /\ 65535 < nextPort (snd r)
     end
  /\ (forall w' p p',
        fst r = Some p -> fst (findAvailablePort w' (snd r)) = Some p' ->
        p < p')
  /\ (forall fuel, (Z.to_nat (65535 - nextPort s) <= fuel)%nat ->
        scanPorts w fuel (nextPort s)
        = scanPorts w (Z.to_nat (65535 - nextPort s)) (nextPort s)).
Proof.
  cbv zeta.
  destruct (findAvailablePort_spec w s) as (H1 & H2 & H3 & H4).
  split; [exact H1|]. split; [exact H2|]. split; [exact H3|].
  split; [exact H4|]. split.
  - intros w' p p' Hp Hp'. rewrite Hp in H4. destruct H4 as (_ & _ & _ & Hn & _).
    destruct (findAvailablePort_spec w' (snd (findAvailablePort w s)))
      as (_ & _ & _ & H4').
    rewrite Hp' in H4'. destruct H4' as (Hge & _). lia.
  - intros fuel Hfuel. apply scanPorts_enough; lia.
Qed.

Lemma loadAgent_ports w agentsDir agentId (s : State) :
  0 < nextPort s -> portsBelow s ->
  nextPort s <= nextPort (loadAgent w agentsDir agentId s)
  /\ portsBelow (loadAgent w agentsDir agentId s).
Proof.
  intros Hpos Hbelow. unfold loadAgent.
  destruct (metaFiles w !! agentId) as [[|meta]|];
    [split; [cbn [nextPort]; lia | exact Hbelow] | |split; [lia | exact Hbelow]].
  assert (Hgen : forall isRunning pid (prt : option Z) files,
    let tracked := match prt with
                   | Some p => if isRunning && negb (p =? 0)
                               then Z.max (nextPort s) (p + 1) else nextPort s
                   | None => nextPort s
                   end in
    nextPort s <= tracked
    /\ portsBelow
         (mkState (<[agentId :=
                      mkInfo agentId (if isRunning then running else stopped)
                             (join (join agentsDir agentId) "workspace")
                             (join (join agentsDir agentId) "sessions")
                             (join (join agentsDir agentId) "memory")
                             (metaCreatedAt meta)
                             (if isRunning then prt else None)
                             (if isRunning then pid else None)]> (agents s))
                  tracked files)).
  { intros isRunning pid prt files tracked.
    assert (Hmono : nextPort s <= tracked).
    { unfold tracked. destruct prt as [p|]; [|lia].
      destruct (isRunning && negb (p =? 0)); lia. }
    split; [exact Hmono|].
    intros other info p Hlook Hst Hport. cbn [agents nextPort] in *.
    destruct (decide (other = agentId)) as [->|Hne].
    - rewrite lookup_insert_eq in Hlook. injection Hlook as <-.
      cbn [status port] in *. destruct isRunning; [|discriminate].
      subst prt. unfold tracked. cbn [andb].
      destruct (p =? 0) eqn:Ez; cbn [negb]; [apply Z.eqb_eq in Ez; lia | lia].
    - rewrite lookup_insert_ne in Hlook by congruence.
      specialize (Hbelow other info p Hlook Hst Hport). lia. }
  destruct (pidFiles s !! agentId) as [pidStr|].
  - destruct (signalZero w (parseInt pidStr)).
    + exact (Hgen (respondsOk w (metaPort meta)) (parseInt pidStr)
                  (metaPort meta) (pidFiles s)).
    + exact (Hgen false (parseInt pidStr) (metaPort meta)
                  (delete agentId (pidFiles s))).
  - exact (Hgen false None None (delete agentId (pidFiles s))).
Qed.

(** X24. Reconciliation tracks the ports in use: [nextPort] never goes down,
    and after the scan it lies above the port of every agent found
    running, so that a port handed out afterwards is not the port of any
    of them. *)
Theorem reconciliation_tracks_ports
        (w : World) (agentsDir : string) (entries : Datatypes.list Dirent)
        (s : State) :
  0 < nextPort s ->
  portsBelow s ->
  let s' := loadExistingAgents w agentsDir entries s in
  nextPort s <= nextPort s'
  /\ portsBelow s'
  /\ forall w' p agentId info,
       fst (findAvailablePort w' s') = Some p ->
       agents s' !! agentId = Some info -> status info = running ->
       port info <> Some p.
Proof.
  intros Hpos Hbelow. cbv zeta.
  assert (Hfold : nextPort s <= nextPort (loadExistingAgents w agentsDir entries s)
                  /\ portsBelow (loadExistingAgents w agentsDir entries s)).
  { unfold loadExistingAgents. revert s Hpos Hbelow.
    induction entries as [|e entries IH]; intros s Hpos Hbelow;
      cbn [fold_left]; [split; [lia | exact Hbelow]|].
    destruct (isDirectory e).
    - destruct (loadAgent_ports w agentsDir (name e) s Hpos Hbelow) as [Hle Hb].
      destruct (IH (loadAgent w agentsDir (name e) s) ltac:(lia) Hb)
      as [Hle' Hb'].
    split; [lia | exact Hb'].
    - now apply IH. }
  destruct Hfold as [Hle Hb]. split; [exact Hle|]. split; [exact Hb|].
  intros w' p agentId info Hp Hlook Hst Hport.
  pose proof (Hb agentId info p Hlook Hst Hport) as Hlt.
  destruct (findAvailablePort_spec w'
              (loadExistingAgents w agentsDir entries s)) as (_ & _ & _ & H4).
  rewrite Hp in H4. lia.
Qed.

End PortAllocation.

Lemma reconciliation_tracks_ports_witness :
  LocalBackend.nextPort workerOnDisk
  <= LocalBackend.nextPort
       (LocalBackend.loadExistingAgents liveWorld "data/agents" workerListing
          workerOnDisk).
Proof.
  refine (proj1 (reconciliation_tracks_ports liveWorld "data/agents"
                   workerListing workerOnDisk _ _)).
  - reflexivity.
  - intros agentId info p H. cbn in H. rewrite lookup_empty in H. discriminate.
Defined.

(** * Local backend: the refresh of [list] *)
Section BackendList.
Import LocalBackend.

Lemma refreshed_twice w info : refreshed w (refreshed w info) = refreshed w info.
Proof.
  unfold refreshed.
  destruct (status info) eqn:Es, (port info) as [p|] eqn:Ep;
    rewrite ?Es, ?Ep; try reflexivity.
  destruct (negb (p =? 0) && negb (healthy w p)) eqn:E; cbn [status port].
  - reflexivity.
  - now rewrite Es, Ep, E.
Qed.

Lemma loadAgent_answering w agentsDir agentId s :
  answering w s -> answering w (loadAgent w agentsDir agentId s).
Proof.
  intros Hs. unfold loadAgent.
  destruct (metaFiles w !! agentId) as [[|meta]|]; [exact Hs| |exact Hs].
  destruct (pidFiles s !! agentId) as [pidStr|];
    [destruct (signalZero w (parseInt pidStr))|];
    intros a info; cbn [agents];
    (destruct (decide (agentId = a)) as [->|Hne];
     [rewrite lookup_insert_eq; intros [= <-]; cbn [status port]
     |rewrite lookup_insert_ne by exact Hne; apply Hs]).
  - destruct (respondsOk w (metaPort meta)) eqn:E; [intros _; exact E | discriminate].
  - discriminate.
  - discriminate.
Qed.

Lemma loadExistingAgents_answering w agentsDir (entries : Datatypes.list Dirent) :
  forall s, answering w s -> answering w (loadExistingAgents w agentsDir entries s).
Proof.
  unfold loadExistingAgents.
  induction entries as [|e entries IH]; intros s Hs; [exact Hs|].
  cbn [fold_left]. apply IH.
  destruct (isDirectory e); [now apply loadAgent_answering | exact Hs].
Qed.

Lemma refreshed_answering w info :
  (status info = running -> respondsOk w (port info) = true) ->
  refreshed w info = info.
Proof.
  intros H. unfold refreshed.
  destruct (status info); [|reflexivity].
  destruct (port info) as [p|]; [|reflexivity].
  cbn [respondsOk] in H. rewrite (H eq_refl), andb_false_r. reflexivity.
Qed.

(** X28. [list] refreshes, and only downwards: a record it leaves running
    was running before, and its port, when it has one other than 0,
    answered the health request; a record it leaves stopped that was
    running has lost its port and pid; every other field of a record is
    kept. A second [list] that finds the servers as the first did changes
    nothing more. [nextPort] and the pid files are not touched: a port
    once handed out is not handed out again, and the pid file of a server
    found dead stays on disk. *)
Theorem list_refreshes_downwards (w : World) (s : State) :
  let r := list w s in
  agents (snd r) = fst r
  /\ (forall agentId, is_Some (fst r !! agentId) <-> is_Some (agents s !! agentId))
  /\ (forall agentId info info',
        agents s !! agentId = Some info -> fst r !! agentId = Some info' ->
        id info' = id info /\ createdAt info' = createdAt info
        /\ workspace info' = workspace info
        /\ (status info' = running ->
            info' = info
            /\ forall p, port info = Some p -> p <> 0 -> healthy w p = true)
        /\ (status info' = stopped -> status info = running ->
            port info' = None /\ pid info' = None
            /\ exists p, port info = Some p /\ p <> 0 /\ healthy w p = false))
  /\ list w (snd r) = r
  /\ nextPort (snd r) = nextPort s
  /\ pidFiles (snd r) = pidFiles s.
Proof.
  cbv zeta. unfold list. cbn [fst snd agents nextPort pidFiles].
  split; [reflexivity|]. split; [|split; [|split; [|split; reflexivity]]].
  - intros a. rewrite lookup_fmap. now rewrite fmap_is_Some.
  - intros a info info' Hin Hout. rewrite lookup_fmap, Hin in Hout.
    cbn in Hout. injection Hout as <-.
    unfold refreshed.
    destruct (status info) eqn:Es, (port info) as [p|] eqn:Ep;
      rewrite ?Es, ?Ep.
    + destruct (negb (p =? 0) && negb (healthy w p)) eqn:E;
        cbn [id createdAt workspace status port pid].
      * apply andb_true_iff in E. destruct E as [E0 Eh].
        apply negb_true_iff in E0, Eh. apply Z.eqb_neq in E0.
        split; [reflexivity|]. split; [reflexivity|]. split; [reflexivity|].
        split; [discriminate|]. intros _ _.
        split; [reflexivity|]. split; [reflexivity|]. now exists p.
      * split; [reflexivity|]. split; [reflexivity|]. split; [reflexivity|].
        split; [|congruence]. intros _. split; [reflexivity|].
        intros q [= <-] Hq. apply andb_false_iff in E. destruct E as [E|E].
        -- apply negb_false_iff, Z.eqb_eq in E. contradiction.
        -- now apply negb_false_iff in E.
    + split; [reflexivity|]. split; [reflexivity|]. split; [reflexivity|].
      split; [|congruence]. intros _. split; [reflexivity|]. discriminate.
    + split; [reflexivity|]. split; [reflexivity|]. split; [reflexivity|].
      split; [congruence|]. congruence.
    + split; [reflexivity|]. split; [reflexivity|]. split; [reflexivity|].
      split; [congruence|]. congruence.
  - f_equal.
    + rewrite <- map_fmap_compose. apply map_fmap_ext.
      intros a info _. apply refreshed_twice.
    + f_equal. rewrite <- map_fmap_compose. apply map_fmap_ext.
      intros a info _. apply refreshed_twice.
Qed.

(** X29. What reconciliation found running, [list] finds running: after
    [loadExistingAgents] on a backend without records, a [list] that
    meets the servers as reconciliation did returns the records as they
    are and changes nothing. *)
Theorem list_after_reconciliation
        (w : World) (agentsDir : string) (entries : Datatypes.list Dirent)
        (next : Z) (files : gmap string string) :
  let s := loadExistingAgents w agentsDir entries (mkState ∅ next files) in
  list w s = (agents s, s).
Proof.
  cbv zeta.
  set (s := loadExistingAgents w agentsDir entries (mkState ∅ next files)).
  assert (Hs : answering w s).
  { apply loadExistingAgents_answering. intros a info H. cbn in H.
    rewrite lookup_empty in H. discriminate. }
  assert (Hsame : refreshed w <$> agents s = agents s).
  { apply map_eq. intros a. rewrite lookup_fmap.
    destruct (agents s !! a) as [info|] eqn:E; [|reflexivity].
    cbn. f_equal. apply refreshed_answering. exact (Hs a info E). }
  unfold list. rewrite Hsame. now destruct s.
Qed.
End BackendList.

(** * Per-agent server: the command line written by the backend *)
Section ServerCommandLine.
Import AgentServerArgs.
Local Open Scope list_scope.

Ltac digit :=
  match goal with
  | |- context [LocalBackend.digitValue ?c] =>
      let v := eval vm_compute in (LocalBackend.digitValue c) in
      change (LocalBackend.digitValue c) with v
  end.

Lemma parseDigits_acc (d : Decimal.uint) : forall acc : positive,
  LocalBackend.parseDigits (Some (Z.pos acc)) (NilEmpty.string_of_uint d)
  = Some (Z.pos (Pos.of_uint_acc d acc)).
Proof.
  induction d as [|d IH|d IH|d IH|d IH|d IH|d IH|d IH|d IH|d IH|d IH];
    intros acc;
    cbn [NilEmpty.string_of_uint LocalBackend.parseDigits Pos.of_uint_acc];
    try reflexivity; digit; cbv iota; cbn [default]; unfold Datatypes.id;
    rewrite <- IH; do 2 f_equal; lia.
Qed.

Lemma parseDigits_zero (d : Decimal.uint) :
  LocalBackend.parseDigits (Some 0) (NilEmpty.string_of_uint d)
  = Some (Z.of_N (Pos.of_uint d)).
Proof.
  induction d as [|d IH|d IH|d IH|d IH|d IH|d IH|d IH|d IH|d IH|d IH];
    cbn [NilEmpty.string_of_uint LocalBackend.parseDigits Pos.of_uint];
    try reflexivity; digit; cbv iota; cbn [default]; unfold Datatypes.id;
    first [ exact IH | apply parseDigits_acc ].
Qed.

Lemma parseDigits_start (d : Decimal.uint) :
  d <> Decimal.Nil ->
  LocalBackend.parseDigits None (NilEmpty.string_of_uint d)
  = Some (Z.of_N (Pos.of_uint d)).
Proof.
  intros Hd. rewrite <- parseDigits_zero.
  destruct d; [congruence| ..];
    cbn [NilEmpty.string_of_uint LocalBackend.parseDigits]; digit; reflexivity.
Qed.

(** Reading back the decimal form of a positive integer gives the
    integer. *)
Lemma parseInt_numberToString (z : Z) :
  0 < z ->
  LocalBackend.parseInt (SubagentManager.numberToString z) = Some z.
Proof.
  destruct z as [|p|p]; try lia. intros _.
  unfold SubagentManager.numberToString. cbn [Z.to_int NilZero.string_of_int].
  pose proof (Unsigned.to_uint_nonnil p) as Hnn.
  pose proof (parseDigits_start (Pos.to_uint p) Hnn) as Hparse.
  rewrite DecimalPos.Unsigned.of_to in Hparse.
  unfold NilZero.string_of_uint.
  destruct (Pos.to_uint p) as [|d|d|d|d|d|d|d|d|d|d] eqn:E; [congruence| ..];
    exact Hparse.
Qed.

Lemma orElse_nonempty value fallback :
  fallback <> ""%string -> SubagentManager.orElse value fallback <> ""%string.
Proof.
  intros Hf. unfold SubagentManager.orElse.
  destruct value as [v|]; [|exact Hf].
  destruct v; [exact Hf | discriminate].
Qed.

Lemma setOption_id value config :
  setOption "--id" value config
  = mkPartial value (configPort config) (configDataDir config)
              (configProvider config) (configModel config).
Proof. reflexivity. Qed.

Lemma setOption_port value config :
  setOption "--port" value config
  = mkPartial (configId config) (value ≫= LocalBackend.parseInt)
              (configDataDir config) (configProvider config)
              (configModel config).
Proof. reflexivity. Qed.

Lemma setOption_dataDir value config :
  setOption "--data-dir" value config
  = mkPartial (configId config) (configPort config) value
              (configProvider config) (configModel config).
Proof. reflexivity. Qed.

Lemma setOption_provider value config :
  setOption "--provider" value config
  = mkPartial (configId config) (configPort config) (configDataDir config)
              value (configModel config).
Proof. reflexivity. Qed.

Lemma setOption_model value config :
  setOption "--model" value config
  = mkPartial (configId config) (configPort config) (configDataDir config)
              (configProvider config) value.
Proof. reflexivity. Qed.

(** X25. The server reads the command line the backend writes. Whatever the
    arguments, a configuration returned by [parseArgs] has a non-empty
    id and data directory, a port that is a number other than 0, and a
    non-empty provider and model. And the arguments that
    [startAgentServer] builds from a non-empty agent id, a positive port
    and a non-empty data directory are read back as exactly these
    values, with "openai" and "gpt-4o" standing in for an empty provider
    or model. *)
Theorem server_reads_its_command_line :
  (forall args config,
      parseArgs args = Some config ->
      id config <> ""%string /\ port config <> 0
      /\ dataDir config <> ""%string
      /\ provider config <> ""%string /\ model config <> ""%string)
  /\ (forall agentId portNumber dir providerName modelName,
        agentId <> ""%string -> 0 < portNumber -> dir <> ""%string ->
        parseArgs (LocalBackend.serverArgs agentId portNumber dir
                                           providerName modelName)
        = Some (mkConfig agentId portNumber dir
                         (SubagentManager.orElse (Some providerName) "openai")
                         (SubagentManager.orElse (Some modelName) "gpt-4o"))).
Proof.
  split.
  - intros args config. unfold parseArgs. cbv zeta.
    destruct (configId _) as [i|]; [|discriminate].
    destruct (configPort _) as [p|]; [|discriminate].
    destruct (configDataDir _) as [d|]; [|discriminate].
    destruct (SessionKey.truthy i) eqn:Ti; cbn [negb orb]; [|discriminate].
    destruct (p =? 0) eqn:Ep; cbn [orb]; [discriminate|].
    destruct (SessionKey.truthy d) eqn:Td; cbn [negb]; [|discriminate].
    intros [= <-]. cbn [id port dataDir provider model].
    apply Z.eqb_neq in Ep.
    split; [now destruct i|]. split; [exact Ep|]. split; [now destruct d|].
    split; apply orElse_nonempty; discriminate.
  - intros agentId portNumber dir providerName modelName Hid Hport Hdir.
    unfold parseArgs, LocalBackend.serverArgs. cbv zeta.
    cbn [readPairs].
    rewrite setOption_id, setOption_port, setOption_dataDir,
      setOption_provider, setOption_model.
    cbn [configId configPort configDataDir configProvider configModel
         mbind option_bind].
    rewrite (parseInt_numberToString portNumber Hport).
    rewrite (truthy_nonempty agentId Hid), (truthy_nonempty dir Hdir).
    assert (Hz : (portNumber =? 0) = false) by (apply Z.eqb_neq; lia).
    rewrite Hz. reflexivity.
Qed.

End ServerCommandLine.

(** * HTTP channel: which request an outbound message answers *)
Section HttpReplies.
Import HttpChannel.
Local Open Scope list_scope.
Variable callback : nat.

Lemma onOutbound_new r msg s :
  newRequest r s -> newRequest r (onOutbound msg s).
Proof.
  intros [Hp Hr]. split.
  - intros k. cbn [onOutbound pending].
    destruct (decide (MessageBus.chatId msg = k)) as [->|Hne].
    + rewrite lookup_delete_eq. discriminate.
    + rewrite lookup_delete_ne by exact Hne. apply Hp.
  - intros c. cbn [onOutbound responses].
    destruct (pending s !! MessageBus.chatId msg) as [q|] eqn:E; [|apply Hr].
    intros Hin. apply in_app_or in Hin. destruct Hin as [Hin|[Heq|[]]].
    + exact (Hr c Hin).
    + injection Heq as -> _. exact (Hp _ E).
Qed.

Lemma calls_new r msg cbs : forall s,
  newRequest r s ->
  newRequest r (fold_left (fun st cb => if Nat.eqb cb callback then onOutbound msg st else st)
                          cbs s).
Proof.
  induction cbs as [|cb cbs IH]; intros s H; [exact H|].
  cbn [fold_left]. apply IH.
  destruct (Nat.eqb cb callback); [now apply onOutbound_new | exact H].
Qed.

Lemma step_new r s e :
  requestOf e <> Some r -> newRequest r s -> newRequest r (step callback s e).
Proof.
  intros Hne H. destruct e as [q m sid u|msg|]; cbn [step].
  - assert (Hq : q <> r) by (intros ->; now apply Hne).
    destruct H as [Hp Hr]. unfold chat.
    destruct m as [m|]; [destruct (SessionKey.truthy m)|]; split; cbn; auto.
    intros k. destruct (decide (SubagentManager.orElse sid u = k)) as [->|Hk].
    + rewrite lookup_insert_eq. congruence.
    + rewrite lookup_insert_ne by exact Hk. apply Hp.
  - unfold busPublishOutbound. apply calls_new. exact H.
  - exact H.
Qed.

Lemma run_new r evs : forall s,
  List.Forall (fun e => requestOf e <> Some r) evs ->
  newRequest r s -> newRequest r (run callback evs s).
Proof.
  induction evs as [|e evs IH]; intros s Hall H; [exact H|].
  cbn [run fold_left]. apply IH.
  - exact (List.Forall_inv_tail Hall).
  - apply step_new; [exact (List.Forall_inv Hall) | exact H].
Qed.

Lemma calls_filter msg cbs : forall s,
  fold_left (fun st cb => if Nat.eqb cb callback then onOutbound msg st else st) cbs s
  = fold_left (fun st _ => onOutbound msg st)
              (filter (fun cb => Nat.eqb cb callback) cbs) s.
Proof.
  induction cbs as [|cb cbs IH]; intros s; [reflexivity|].
  cbn [fold_left]. unfold filter at 1. cbn [list_filter].
  destruct (decide (Nat.eqb cb callback)) as [E|E].
  - apply Is_true_true in E. rewrite E. cbn [fold_left]. apply IH.
  - apply Is_true_false in E. rewrite E. apply IH.
Qed.

(** What one publication does to a listening channel. *)
Lemma busPublishOutbound_listening msg s :
  listening callback s ->
  let s' := busPublishOutbound callback msg s in
  listening callback s'
  /\ (MessageBus.channel msg = "http" ->
      pending s' = delete (MessageBus.chatId msg) (pending s)
      /\ responses s'
         = match pending s !! MessageBus.chatId msg with
           | Some r => responses s ++ [(r, MessageBus.content msg)]
           | None => responses s
           end)
  /\ (MessageBus.channel msg <> "http" ->
      pending s' = pending s /\ responses s' = responses s).
Proof.
  intros L. cbv zeta. unfold busPublishOutbound. rewrite calls_filter, (L _).
  destruct (String.eqb (MessageBus.channel msg) "http") eqn:E.
  - apply String.eqb_eq in E. cbn [fold_left]. split; [exact L|].
    split; [intros _; split; reflexivity | intros Hne; now destruct Hne].
  - apply String.eqb_neq in E. cbn [fold_left]. split; [exact L|].
    split; [intros Heq; now destruct E | intros _; split; reflexivity].
Qed.

Lemma subscribers_publishInbound msg b :
  MessageBus.subscribers (MessageBus.publishInbound msg b) = MessageBus.subscribers b.
Proof. unfold MessageBus.publishInbound. now destruct (MessageBus.resolvers b). Qed.

Lemma subscribers_consumeInbound b :
  MessageBus.subscribers (snd (MessageBus.consumeInbound b)) = MessageBus.subscribers b.
Proof. unfold MessageBus.consumeInbound. now destruct (MessageBus.queue b). Qed.

Lemma listening_bus s p rs f b :
  MessageBus.subscribers b = MessageBus.subscribers (bus s) ->
  listening callback s -> listening callback (mkState p rs f b).
Proof. intros E L chan. cbn [bus]. rewrite E. apply L. Qed.

Lemma step_waiting c r s e :
  concerns c e = false ->
  listening callback s -> pending s !! c = Some r ->
  listening callback (step callback s e) /\ pending (step callback s e) !! c = Some r.
Proof.
  intros Hq L Hp. destruct e as [q m sid u|msg|]; cbn [step].
  - unfold chat. cbn [concerns] in Hq.
    destruct m as [m|]; [destruct (SessionKey.truthy m)|]; cbn in *;
      try (split; [exact L | exact Hp]).
    apply String.eqb_neq in Hq. split.
    + apply (listening_bus s); [apply subscribers_publishInbound | exact L].
    + now rewrite lookup_insert_ne by exact Hq.
  - destruct (busPublishOutbound_listening msg s L) as (L' & Hhttp & Hother).
    split; [exact L'|]. cbn [concerns] in Hq.
    destruct (String.eqb (MessageBus.channel msg) "http") eqn:E.
    + apply String.eqb_eq in E. destruct (Hhttp E) as [-> _].
      cbn in Hq. apply String.eqb_neq in Hq.
      now rewrite lookup_delete_ne by exact Hq.
    + apply String.eqb_neq in E. destruct (Hother E) as [-> _]. exact Hp.
  - split; [|exact Hp].
    apply (listening_bus s); [apply subscribers_consumeInbound | exact L].
Qed.

Lemma run_waiting c r evs : forall s,
  forallb (fun e => negb (concerns c e)) evs = true ->
  listening callback s -> pending s !! c = Some r ->
  listening callback (run callback evs s) /\ pending (run callback evs s) !! c = Some r.
Proof.
  induction evs as [|e evs IH]; intros s Hall L Hp; [now split|].
  cbn [forallb] in Hall. apply andb_true_iff in Hall. destruct Hall as [He Hall].
  apply negb_true_iff in He.
  destruct (step_waiting c r s e He L Hp) as [L' Hp'].
  cbn [run fold_left]. exact (IH _ Hall L' Hp').
Qed.

Lemma startHttp_listening b :
  (forall chan cbs, MessageBus.subscribers b !! chan = Some cbs -> ~ In callback cbs) ->
  listening callback (startHttp callback b).
Proof.
  intros Hfresh chan. cbn [startHttp bus MessageBus.subscribe MessageBus.subscribers].
  assert (Hnone : forall cbs, ~ In callback cbs ->
                              filter (fun cb => Nat.eqb cb callback) cbs = []).
  { induction cbs as [|cb cbs IH]; intros Hn; [reflexivity|].
    unfold filter. cbn [list_filter].
    destruct (decide (Nat.eqb cb callback)) as [E|E].
    - apply Is_true_true, Nat.eqb_eq in E. subst cb. destruct Hn. now left.
    - apply IH. intros Hin. apply Hn. now right. }
  assert (Hold : forall ch, filter (fun cb => Nat.eqb cb callback)
                                   (default [] (MessageBus.subscribers b !! ch)) = []).
  { intros ch. destruct (MessageBus.subscribers b !! ch) as [cbs|] eqn:E; [|reflexivity].
    apply Hnone. exact (Hfresh _ _ E). }
  destruct (String.eqb chan "http") eqn:E.
  - apply String.eqb_eq in E. subst chan. rewrite lookup_insert_eq. cbn [default].
    unfold Datatypes.id. rewrite filter_app, Hold. cbn.
    unfold filter. cbn [list_filter].
    destruct (decide (Nat.eqb callback callback)) as [E|E]; [reflexivity|].
    apply Is_true_false in E. now rewrite Nat.eqb_refl in E.
  - apply String.eqb_neq in E. rewrite lookup_insert_ne by congruence. apply Hold.
Qed.

(** X26. A request that comes in under the chat id of a request still
    waiting takes its place in the pending table: whatever requests and
    outbound messages follow, the earlier request gets no response. *)
Theorem overwritten_request_never_answered
        s r1 r2 m1 m2 sid1 sid2 u1 u2 evs content :
  SessionKey.truthy m1 = true -> SessionKey.truthy m2 = true ->
  SubagentManager.orElse sid1 u1 = SubagentManager.orElse sid2 u2 ->
  r1 <> r2 ->
  newRequest r1 s ->
  List.Forall (fun e => requestOf e <> Some r1) evs ->
  ~ In (r1, content)
       (responses (run callback evs
                       (chat r2 (Some m2) sid2 u2 (chat r1 (Some m1) sid1 u1 s)))).
Proof.
  intros T1 T2 Hc Hr [Hp Hres] Hall.
  apply (run_new r1 evs); [exact Hall|].
  unfold chat. rewrite T1, T2, Hc. split; cbn [pending responses]; [|exact Hres].
  intros k. destruct (decide (SubagentManager.orElse sid2 u2 = k)) as [->|Hk].
  - rewrite lookup_insert_eq. congruence.
  - rewrite !lookup_insert_ne by exact Hk. apply Hp.
Qed.

(** X27. On a channel whose callback is subscribed once, a waiting
    request is answered by the first outbound message published on "http"
    for its chat id, with the content of that message; its entry leaves
    the pending table, so a further message for the chat reaches nobody. *)
Theorem reply_is_first_outbound_for_chat s r m sid u evs content content' :
  listening callback s ->
  SessionKey.truthy m = true ->
  let c := SubagentManager.orElse sid u in
  forallb (fun e => negb (concerns c e)) evs = true ->
  let s1 := run callback evs (chat r (Some m) sid u s) in
  let s2 := busPublishOutbound callback (MessageBus.mkOutbound "http" c content) s1 in
  responses s2 = responses s1 ++ [(r, content)]
  /\ pending s2 !! c = None
  /\ responses (busPublishOutbound callback (MessageBus.mkOutbound "http" c content') s2)
     = responses s2.
Proof.
  intros L T c Hall s1 s2.
  assert (L0 : listening callback (chat r (Some m) sid u s)).
  { unfold chat. rewrite T.
    apply (listening_bus s); [apply subscribers_publishInbound | exact L]. }
  assert (P0 : pending (chat r (Some m) sid u s) !! c = Some r).
  { unfold chat. rewrite T. cbn [pending]. apply lookup_insert_eq. }
  destruct (run_waiting c r evs _ Hall L0 P0) as [L1 P1]. fold s1 in L1, P1.
  destruct (busPublishOutbound_listening (MessageBus.mkOutbound "http" c content) s1 L1)
    as (L2 & Hhttp & _).
  destruct (Hhttp eq_refl) as [Hp2 Hr2]. fold s2 in L2, Hp2, Hr2.
  cbn [MessageBus.chatId MessageBus.content] in Hp2, Hr2. rewrite P1 in Hr2.
  assert (P2 : pending s2 !! c = None) by (rewrite Hp2; apply lookup_delete_eq).
  split; [exact Hr2|]. split; [exact P2|].
  destruct (busPublishOutbound_listening (MessageBus.mkOutbound "http" c content') s2 L2)
    as (_ & Hhttp' & _).
  destruct (Hhttp' eq_refl) as [_ Hr3].
  cbn [MessageBus.chatId] in Hr3. now rewrite P2 in Hr3.
Qed.
End HttpReplies.

Lemma overwritten_request_never_answered_witness :
  ~ In (1%nat, "hello")
       (HttpChannel.responses
          (HttpChannel.run 7 twoAnswers
             (HttpChannel.chat 2 (Some "again") (Some "alice") "9a8b7c6d"
                (HttpChannel.chat 1 (Some "hi") (Some "alice") "12345678"
                   freshChannel)))).
Proof.
  apply (overwritten_request_never_answered 7 freshChannel 1 2 "hi" "again"
           (Some "alice") (Some "alice") "12345678" "9a8b7c6d" twoAnswers "hello").
  - reflexivity.
  - reflexivity.
  - reflexivity.
  - discriminate.
  - split.
    + intros k. cbn. rewrite lookup_empty. discriminate.
    + intros c [].
  - repeat constructor; cbn; discriminate.
Defined.

Lemma reply_is_first_outbound_for_chat_witness :
  let s1 := HttpChannel.run 7
              [HttpChannel.Chat 3 (Some "hey") (Some "bob") "0c1d2e3f";
               HttpChannel.Outbound (MessageBus.mkOutbound "log" "alice" "noted");
               HttpChannel.Consumed]
              (HttpChannel.chat 1 (Some "hi") (Some "alice") "12345678" freshChannel) in
  let s2 := HttpChannel.busPublishOutbound 7
              (MessageBus.mkOutbound "http" "alice" "hello") s1 in
  HttpChannel.responses s2 = (HttpChannel.responses s1 ++ [(1%nat, "hello")])%list
  /\ HttpChannel.pending s2 !! "alice" = None
  /\ HttpChannel.responses
       (HttpChannel.busPublishOutbound 7
          (MessageBus.mkOutbound "http" "alice" "more") s2)
     = HttpChannel.responses s2.
Proof.
  apply (reply_is_first_outbound_for_chat 7 freshChannel 1 "hi" (Some "alice")
           "12345678" _ "hello" "more").
  - apply startHttp_listening. intros chan cbs H. cbn in H.
    rewrite lookup_empty in H. discriminate.
  - reflexivity.
  - reflexivity.
Defined.
